(** * chrish: a shallow embedding of [chrish.c]

    The shell reads a line, splits it with [strtok], and either runs one of
    three builtins or forks and execs an external program.  The C code is
    embedded as functions in a small monad over an explicit [world]: the
    two output streams, the working directory, [errno], the heap's live
    blocks, the pending input, and the two global builtin tables.

    Conventions.
    - A [char *] is the list of characters it points at ([cstr]).  The
      terminating NUL is implicit at the end of the list; a NUL inside
      the list ends the string earlier, as it does for every libc routine.
    - An [int] is a [Z]; signed overflow is undefined behaviour and is
      reported as such, the [ssize_t] to [int] conversion wraps.
    - A [char **] is the list of its slots; a slot is uninitialised, NULL
      or a string.
    - A stream is the sequence of what has been written to it; the
      buffering of stdio is not modelled.
    - What the operating system decides (does an allocation succeed, does
      [chdir] succeed, does [fork] succeed, what does the exec'd program do)
      is read from an [OS] record of oracles.
    - [getline] is one request to the allocator and then the read; the
      requests by which it grows its buffer for a long line are not
      modelled.
    - A child shares the two output streams with the shell.  What a
      launched program reads from the standard input it inherits is not
      modelled: what is stated about the lines the shell reads is stated
      for passes and runs that launch nothing.
    - [strtok] is given the string by value: the NUL bytes it writes into
      the caller's buffer are not part of the world.  The shell does not
      read the buffer again. *)

From Stdlib Require Import ZArith Lia DecimalString Ascii.
From stdpp Require Import base strings list gmap.

Local Open Scope Z_scope.

(** ** C strings and the libc routines the shell calls *)

Abbreviation cstr := (list ascii).

(** A string literal of the C source. *)
Definition lit (s : string) : cstr := String.list_ascii_of_string s.

Definition NUL : ascii := "000"%char.
Definition LF : ascii := "010"%char.
Definition DQUOTE : ascii := "034"%char.

(** [strchr(set, c) != NULL] for a [c] that is not NUL. *)
Fixpoint strchr (set : cstr) (c : ascii) : bool :=
  match set with
  | [] => false
  | d :: set' => if Ascii.eqb d NUL then false
                 else if Ascii.eqb d c then true else strchr set' c
  end.

(** [strspn(s, accept)]: length of the longest prefix of [s] made of
    characters of [accept]. *)
Fixpoint strspn (s accept : cstr) : nat :=
  match s with
  | [] => 0%nat
  | c :: s' => if Ascii.eqb c NUL then 0%nat
               else if strchr accept c then S (strspn s' accept) else 0%nat
  end.

(** [strcspn(s, reject)]: length of the longest prefix of [s] free of
    characters of [reject]. *)
Fixpoint strcspn (s reject : cstr) : nat :=
  match s with
  | [] => 0%nat
  | c :: s' => if Ascii.eqb c NUL then 0%nat
               else if strchr reject c then 0%nat else S (strcspn s' reject)
  end.

(** [*s == '\0'] *)
Definition at_end (s : cstr) : bool :=
  match s with
  | [] => true
  | c :: _ => Ascii.eqb c NUL
  end.

(** One call of [strtok] on the string at the saved position: skip the
    leading delimiters; if the string ends there, there is no token;
    otherwise the token runs up to the next delimiter, which is overwritten
    by NUL, and the position is saved just behind it (or at the end of the
    string).  Returns the token and the new saved position. *)
Definition strtok_r (s delim : cstr) : option cstr * cstr :=
  if at_end s then (None, s)
  else
    let s1 := drop (strspn s delim) s in
    if at_end s1 then (None, s1)
    else
      let n := strcspn s1 delim in
      let e := drop n s1 in
      if at_end e then (Some (take n s1), e)
      else (Some (take n s1), drop 1 e).

(** [strcmp]: the difference of the first pair of differing characters,
    taken as unsigned chars; the end of a string counts as NUL. *)
Fixpoint strcmp (a b : cstr) : Z :=
  match a, b with
  | [], [] => 0
  | [], d :: _ => - Z.of_nat (nat_of_ascii d)
  | c :: _, [] => Z.of_nat (nat_of_ascii c)
  | c :: a', d :: b' =>
      if Ascii.eqb c NUL then - Z.of_nat (nat_of_ascii d)
      else if Ascii.eqb c d then strcmp a' b'
      else Z.of_nat (nat_of_ascii c) - Z.of_nat (nat_of_ascii d)
  end.

(** The content of a buffer read as a C string: up to the first NUL. *)
Fixpoint c_str (s : cstr) : cstr :=
  match s with
  | [] => []
  | c :: s' => if Ascii.eqb c NUL then [] else c :: c_str s'
  end.

(** ** Integers *)

Definition INT_MAX : Z := 2147483647.
Definition INT_MIN : Z := -2147483648.

(** Conversion of an out-of-range value to [int]: reduced modulo 2^32. *)
Definition to_int (z : Z) : Z := (z - INT_MIN) mod 4294967296 + INT_MIN.

(** [printf("%s", s)]: the string up to its end. *)
Definition fmt_s (s : cstr) : cstr := c_str s.

(** [printf("%d", z)] *)
Definition fmt_d (z : Z) : cstr :=
  String.list_ascii_of_string (NilZero.string_of_int (Z.to_int z)).

Definition EXIT_SUCCESS : Z := 0.
Definition EXIT_FAILURE : Z := 1.

(** ** The world the shell runs in *)

Definition errno_t := Z.

(** What [waitpid(pid, &status, WUNTRACED)] can report about a child. *)
Inductive wstatus :=
| W_EXITED (code : Z)
| W_SIGNALED (sig : Z)
| W_STOPPED (sig : Z).

Definition WIFEXITED (status : wstatus) : bool :=
  match status with W_EXITED _ => true | _ => false end.

Definition WIFSIGNALED (status : wstatus) : bool :=
  match status with W_SIGNALED _ => true | _ => false end.

(** The decisions of the operating system.  [os_malloc n] tells whether
    the [n]-th allocation request of the process succeeds; [os_chdir cwd p]
    is the new working directory or the error; [os_fork n] is the outcome
    of the [n]-th [fork]; [os_execvp n file argv] is the outcome of the
    [execvp] in the [n]-th child: an error, or the state changes the new
    program will report to its parent, in order (a list without an exit
    or a signal death is a program that never ends). *)
Record OS := {
  os_malloc : nat -> bool;
  os_chdir : cstr -> cstr -> errno_t + cstr;
  os_fork : nat -> errno_t + positive;
  os_execvp : nat -> option cstr -> list cstr -> errno_t + list wstatus;
  os_strerror : errno_t -> cstr
}.

(** A pointer returned by the allocator, as far as [free] cares. *)
Inductive ptr :=
| PIndet               (* never assigned *)
| PNull
| PAddr (a : nat).

(** One element of a [char **] array. *)
Inductive slot :=
| Uninit
| Null
| Tok (s : cstr).

(** The functions whose addresses are stored in [builtin_func]. *)
Inductive fnptr :=
| fn_chrish_cd
| fn_chrish_help
| fn_chrish_exit.

Record world := World {
  w_out : cstr;                    (* everything written to stdout *)
  w_err : cstr;                    (* everything written to stderr *)
  w_cwd : cstr;                    (* current working directory *)
  w_errno : errno_t;
  w_stdin : list cstr;             (* the lines still to be read *)
  w_live : gset nat;               (* heap blocks allocated and not freed *)
  w_brk : nat;                     (* allocation requests made so far *)
  w_forks : nat;                   (* fork calls made so far *)
  w_waits : nat;                   (* waitpid calls made so far *)
  w_strtok : cstr;                 (* the position strtok has saved *)
  w_builtin_str : list cstr;       (* the global array builtin_str *)
  w_builtin_func : list fnptr      (* the global array builtin_func *)
}.

Definition set_out (f : cstr -> cstr) (w : world) : world :=
  World (f (w_out w)) (w_err w) (w_cwd w) (w_errno w) (w_stdin w) (w_live w)
        (w_brk w) (w_forks w) (w_waits w) (w_strtok w)
        (w_builtin_str w) (w_builtin_func w).

Definition set_err (f : cstr -> cstr) (w : world) : world :=
  World (w_out w) (f (w_err w)) (w_cwd w) (w_errno w) (w_stdin w) (w_live w)
        (w_brk w) (w_forks w) (w_waits w) (w_strtok w)
        (w_builtin_str w) (w_builtin_func w).

Definition set_cwd (d : cstr) (w : world) : world :=
  World (w_out w) (w_err w) d (w_errno w) (w_stdin w) (w_live w)
        (w_brk w) (w_forks w) (w_waits w) (w_strtok w)
        (w_builtin_str w) (w_builtin_func w).

Definition set_errno (e : errno_t) (w : world) : world :=
  World (w_out w) (w_err w) (w_cwd w) e (w_stdin w) (w_live w)
        (w_brk w) (w_forks w) (w_waits w) (w_strtok w)
        (w_builtin_str w) (w_builtin_func w).

Definition set_stdin (l : list cstr) (w : world) : world :=
  World (w_out w) (w_err w) (w_cwd w) (w_errno w) l (w_live w)
        (w_brk w) (w_forks w) (w_waits w) (w_strtok w)
        (w_builtin_str w) (w_builtin_func w).

Definition set_heap (live : gset nat) (brk : nat) (w : world) : world :=
  World (w_out w) (w_err w) (w_cwd w) (w_errno w) (w_stdin w) live
        brk (w_forks w) (w_waits w) (w_strtok w)
        (w_builtin_str w) (w_builtin_func w).

Definition set_forks (n : nat) (w : world) : world :=
  World (w_out w) (w_err w) (w_cwd w) (w_errno w) (w_stdin w) (w_live w)
        (w_brk w) n (w_waits w) (w_strtok w)
        (w_builtin_str w) (w_builtin_func w).

Definition set_waits (n : nat) (w : world) : world :=
  World (w_out w) (w_err w) (w_cwd w) (w_errno w) (w_stdin w) (w_live w)
        (w_brk w) (w_forks w) n (w_strtok w)
        (w_builtin_str w) (w_builtin_func w).

Definition set_strtok (s : cstr) (w : world) : world :=
  World (w_out w) (w_err w) (w_cwd w) (w_errno w) (w_stdin w) (w_live w)
        (w_brk w) (w_forks w) (w_waits w) s
        (w_builtin_str w) (w_builtin_func w).

(** ** Outcomes and the monad *)

Inductive undefined :=
| UB_out_of_bounds          (* access outside an array *)
| UB_uninitialised          (* read of an uninitialised slot *)
| UB_int_overflow           (* signed overflow *)
| UB_free_indeterminate     (* free of a pointer that was never assigned *)
| UB_free_dead.             (* free of a block that is not live *)

(** How a piece of code can end: it returns a value; it calls [exit]; it
    runs into undefined behaviour; it blocks for ever in [waitpid]; its
    process image is replaced by [execvp]; or a loop of the model has
    used up the number of turns it was given (which [main] and the
    functions it calls never do, see [main_never_out_of_fuel]). *)
Inductive outcome (A : Type) :=
| Ret (a : A) (w : world)
| Exit (code : Z) (w : world)
| Undef (u : undefined) (w : world)
| Blocked (w : world)
| Replaced (behaviour : list wstatus) (w : world)
| Fuel (w : world).

Arguments Ret {A} a w.
Arguments Exit {A} code w.
Arguments Undef {A} u w.
Arguments Blocked {A} w.
Arguments Replaced {A} behaviour w.
Arguments Fuel {A} w.

Definition M (A : Type) : Type := world -> outcome A.

Definition ret {A} (a : A) : M A := fun w => Ret a w.

Definition bind {A B} (m : M A) (k : A -> M B) : M B := fun w =>
  match m w with
  | Ret a w' => k a w'
  | Exit c w' => Exit c w'
  | Undef u w' => Undef u w'
  | Blocked w' => Blocked w'
  | Replaced b w' => Replaced b w'
  | Fuel w' => Fuel w'
  end.

#[global] Instance M_ret : MRet M := @ret.
#[global] Instance M_bind : MBind M := fun A B k m => bind m k.

(** The world an outcome ends in. *)
Definition final {A} (o : outcome A) : world :=
  match o with
  | Ret _ w | Exit _ w | Undef _ w | Blocked w | Replaced _ w | Fuel w => w
  end.

Definition exit {A} (code : Z) : M A := fun w => Exit code w.
Definition undef {A} (u : undefined) : M A := fun w => Undef u w.
Definition out_of_fuel {A} : M A := fun w => Fuel w.

(** [printf] of an already formatted text, and [fprintf(stderr, ...)]. *)
Definition printf (s : cstr) : M unit := fun w =>
  Ret tt (set_out (fun o => o ++ s) w).

Definition eprintf (s : cstr) : M unit := fun w =>
  Ret tt (set_err (fun o => o ++ s) w).

Definition seterrno (e : errno_t) : M unit := fun w =>
  Ret tt (set_errno e w).

(** Signed addition; overflow is undefined. *)
Definition int_add (a b : Z) : M Z :=
  if (INT_MIN <=? a + b) && (a + b <=? INT_MAX) then ret (a + b)
  else undef UB_int_overflow.

(** [a[i] = v] and [a[i]] on a [char **]. *)
Definition store (a : list slot) (i : Z) (v : slot) : M (list slot) :=
  if (0 <=? i) && (i <? Z.of_nat (length a))
  then ret (<[Z.to_nat i := v]> a) else undef UB_out_of_bounds.

Definition load (a : list slot) (i : Z) : M (option cstr) :=
  if i <? 0 then undef UB_out_of_bounds
  else match a !! Z.to_nat i with
       | Some (Tok s) => ret (Some s)
       | Some Null => ret None
       | Some Uninit => undef UB_uninitialised
       | None => undef UB_out_of_bounds
       end.

Section Shell.

Context (os : OS).

(** [perror(prefix)] *)
Definition perror (prefix : cstr) : M unit := fun w =>
  eprintf (prefix ++ lit ": " ++ os_strerror os (w_errno w) ++ [LF]) w.

(** [malloc]: a block distinct from every live one, or NULL when the
    system refuses. *)
Definition malloc : M ptr := fun w =>
  let a := fresh (w_live w) in
  if os_malloc os (w_brk w)
  then Ret (PAddr a) (set_heap ({[a]} ∪ w_live w) (S (w_brk w)) w)
  else Ret PNull (set_heap (w_live w) (S (w_brk w)) w).

(** [free]: nothing for NULL, releases a live block, undefined otherwise. *)
Definition free (p : ptr) : M unit := fun w =>
  match p with
  | PNull => Ret tt w
  | PIndet => Undef UB_free_indeterminate w
  | PAddr a =>
      if bool_decide (a ∈ w_live w)
      then Ret tt (set_heap (w_live w ∖ {[a]}) (w_brk w) w)
      else Undef UB_free_dead w
  end.

(** [realloc]: on success the old block is gone and a fresh one is live;
    on failure NULL is returned and the old block stays. *)
Definition realloc (p : ptr) : M ptr :=
  q ← malloc;
  match q with
  | PAddr _ => free p;; ret q
  | _ => ret PNull
  end.

(** [chdir] *)
Definition chdir (path : cstr) : M Z := fun w =>
  match os_chdir os (w_cwd w) path with
  | inr d => Ret 0 (set_cwd d w)
  | inl e => Ret (-1) (set_errno e w)
  end.

(** [strtok(s, delim)]; [None] for [s] is the NULL that continues the
    previous scan. *)
Definition strtok (s : option cstr) (delim : cstr) : M (option cstr) := fun w =>
  let start := match s with Some s => s | None => w_strtok w end in
  let '(token, save) := strtok_r start delim in
  Ret token (set_strtok save w).

(** ** The builtin tables *)

(** The initialisers of the two global arrays. *)
Definition builtin_str : list cstr := [lit "cd"; lit "help"; lit "exit"].

Definition builtin_func : list fnptr :=
  [fn_chrish_cd; fn_chrish_help; fn_chrish_exit].

(** [sizeof(builtin_str) / sizeof(char * )]: fixed by the declaration. *)
Definition chrish_num_builtins : Z := Z.of_nat (length builtin_str).

(** [builtin_str[i]] and [builtin_func[i]], read from the globals. *)
Definition read_builtin_str (i : Z) : M cstr := fun w =>
  if i <? 0 then Undef UB_out_of_bounds w
  else match w_builtin_str w !! Z.to_nat i with
       | Some s => Ret s w
       | None => Undef UB_out_of_bounds w
       end.

Definition read_builtin_func (i : Z) : M fnptr := fun w =>
  if i <? 0 then Undef UB_out_of_bounds w
  else match w_builtin_func w !! Z.to_nat i with
       | Some f => Ret f w
       | None => Undef UB_out_of_bounds w
       end.

(** ** Builtin function implementations *)

Definition cd_usage : cstr :=
  lit "chrish: expected argument to " ++ [DQUOTE] ++ lit "cd" ++ [DQUOTE; LF].

Definition chrish_cd (args : list slot) : M Z :=
  a1 ← load args 1;
  match a1 with
  | None => eprintf cd_usage
  | Some dir =>
      r ← chdir dir;
      if negb (r =? 0) then perror (lit "chrish") else ret tt
  end;;
  ret 1.

Definition help_banner : cstr :=
  lit "Stephen Brennan's CHRISH" ++ [LF] ++
  lit "Type program names and arguments, and hit enter." ++ [LF] ++
  lit "The following are built in:" ++ [LF].

Definition help_footer : cstr :=
  lit "Use the man command for information on other programs." ++ [LF].

(** The [for] loop of [chrish_help], from index [i] on. *)
Fixpoint chrish_help_loop (fuel : nat) (i : Z) : M unit :=
  if i <? chrish_num_builtins then
    match fuel with
    | O => out_of_fuel
    | S fuel' =>
        name ← read_builtin_str i;
        printf (lit "  " ++ fmt_s name ++ [LF]);;
        i' ← int_add i 1;
        chrish_help_loop fuel' i'
    end
  else ret tt.

Definition chrish_help (args : list slot) : M Z :=
  printf help_banner;;
  chrish_help_loop (Z.to_nat chrish_num_builtins) 0;;
  printf help_footer;;
  ret 1.

Definition chrish_exit (args : list slot) : M Z := ret 0.

(** [( *f)(args)] *)
Definition call (f : fnptr) (args : list slot) : M Z :=
  match f with
  | fn_chrish_cd => chrish_cd args
  | fn_chrish_help => chrish_help args
  | fn_chrish_exit => chrish_exit args
  end.

(** ** Launching a program *)

(** The strings of a NULL-terminated [char **], as [execvp] reads them. *)
Fixpoint argv_strings (a : list slot) : M (list cstr) :=
  match a with
  | [] => undef UB_out_of_bounds
  | Uninit :: _ => undef UB_uninitialised
  | Null :: _ => ret []
  | Tok s :: a' => l ← argv_strings a'; ret (s :: l)
  end.

(** [execvp]: returns -1 on failure and does not return on success. *)
Definition sys_execvp (file : option cstr) (argv : list cstr) : M Z := fun w =>
  match os_execvp os (w_forks w) file argv with
  | inl e => Ret (-1) (set_errno e w)
  | inr behaviour => Replaced behaviour w
  end.

Definition execvp (file : option cstr) (args : list slot) : M Z :=
  argv ← argv_strings args;
  sys_execvp file argv.

(** What the parent will see of a child that ended as [c]. *)
Definition child_report {A} (c : outcome A) : list wstatus :=
  match c with
  | Exit code _ => [W_EXITED code]
  | Replaced behaviour _ => behaviour
  | _ => []
  end.

(** [fork]: in the parent, the child's pid or -1; the new process runs
    [child] on a copy of the world and shares the two output streams.
    Returned with the pid are the state changes the child will report. *)
Definition fork (child : M Z) : M (Z * list wstatus) := fun w =>
  let n := w_forks w in
  let w1 := set_forks (S n) w in
  match os_fork os n with
  | inl e => Ret (-1, []) (set_errno e w1)
  | inr pid =>
      let c := child w1 in
      Ret (Z.pos pid, child_report c)
          (set_out (fun _ => w_out (final c))
             (set_err (fun _ => w_err (final c)) w1))
  end.

(** [do waitpid(pid, &status, WUNTRACED);
     while (!WIFEXITED(status) && !WIFSIGNALED(status));]
    over the state changes the child still has to report; when there is
    none left and the child has not ended, [waitpid] never returns. *)
Fixpoint chrish_wait (pid : Z) (pending : list wstatus) : M unit :=
  match pending with
  | [] => fun w => Blocked w
  | status :: pending' =>
      fun w =>
        let w' := set_waits (S (w_waits w)) w in
        if negb (WIFEXITED status) && negb (WIFSIGNALED status)
        then chrish_wait pid pending' w'
        else Ret tt w'
  end.

(** The body of [chrish_launch] behind [pid = fork()], for the value of
    [pid] the process has received: 0 in the child, negative in a parent
    whose [fork] failed, the child's pid otherwise. *)
Definition chrish_launch_from (pid : Z) (child : list wstatus)
    (args : list slot) : M Z :=
  (if pid =? 0 then
     (* Child process *)
     file ← load args 0;
     r ← execvp file args;
     (if r =? -1 then perror (lit "chrish") else ret tt);;
     exit EXIT_FAILURE
   else if pid <? 0 then
     (* Error forking *)
     perror (lit "chrish")
   else
     (* Parent process *)
     chrish_wait pid child);;
  ret 1.

Definition chrish_launch (args : list slot) : M Z :=
  '(pid, child) ← fork (chrish_launch_from 0 [] args);
  chrish_launch_from pid child args.

(** ** Dispatch *)

(** The [for] loop of [chrish_execute], from index [i] on. *)
Fixpoint chrish_execute_loop (fuel : nat) (i : Z)
    (cmd : cstr) (args : list slot) : M Z :=
  if i <? chrish_num_builtins then
    match fuel with
    | O => out_of_fuel
    | S fuel' =>
        name ← read_builtin_str i;
        if strcmp cmd name =? 0 then
          f ← read_builtin_func i;
          call f args
        else
          i' ← int_add i 1;
          chrish_execute_loop fuel' i' cmd args
    end
  else chrish_launch args.

Definition chrish_execute (args : list slot) : M Z :=
  a0 ← load args 0;
  match a0 with
  | None => ret 1
  | Some cmd =>
      chrish_execute_loop (Z.to_nat chrish_num_builtins) 0 cmd args
  end.

(** ** Reading and splitting a line *)

Definition ENOMEM : errno_t := 12.

(** [getline(line, &bufsize, stdin)] with [*line == NULL]: the buffer is
    allocated first; then a line is read, or -1 is returned at the end of
    the input.  Returns the value converted to [int], the buffer and its
    text. *)
Definition read_stdin (buf : ptr) : M (Z * ptr * cstr) := fun w =>
  match w_stdin w with
  | [] => Ret (-1, buf, []) w
  | l :: rest => Ret (to_int (Z.of_nat (length l)), buf, l) (set_stdin rest w)
  end.

Definition chrish_read_line : M (Z * ptr * cstr) :=
  buf ← malloc;
  match buf with
  | PAddr _ => read_stdin buf
  | _ => seterrno ENOMEM;; ret (-1, PNull, [])
  end.

Definition CHRISH_TOK_BUFSIZE : Z := 64.

Definition CHRISH_TOK_DELIM : cstr := [" "; "009"; "013"; "010"; "007"]%char.

Definition alloc_error : cstr := lit "chrish: allocation error" ++ [LF].

(** The [if (position >= bufsize)] block of the loop: the array grows by
    [CHRISH_TOK_BUFSIZE] slots, or the process ends.  [tokens] is the
    array's address and [arr] its slots. *)
Definition chrish_grow (bufsize position : Z) (tokens : ptr) (arr : list slot)
    : M (Z * ptr * list slot) :=
  if position >=? bufsize then
    bufsize ← int_add bufsize CHRISH_TOK_BUFSIZE;
    let tokens_backup := tokens in
    tokens ← realloc tokens;
    match tokens with
    | PAddr _ =>
        ret (bufsize, tokens,
             arr ++ replicate (Z.to_nat bufsize - length arr) Uninit)
    | _ =>
        free tokens_backup;;
        eprintf alloc_error;;
        exit EXIT_FAILURE
    end
  else ret (bufsize, tokens, arr).

(** The [while (token != NULL)] loop of [chrish_split_line]. *)
Fixpoint chrish_split_loop (fuel : nat) (token : option cstr)
    (bufsize position n_tokens : Z) (tokens : ptr) (arr : list slot)
    : M (Z * ptr * list slot * Z) :=
  match token with
  | None => ret (position, tokens, arr, n_tokens)
  | Some tok =>
      match fuel with
      | O => out_of_fuel
      | S fuel' =>
          n_tokens ← int_add n_tokens 1;
          arr ← store arr position (Tok tok);
          position ← int_add position 1;
          '(bufsize, tokens, arr) ← chrish_grow bufsize position tokens arr;
          token ← strtok None CHRISH_TOK_DELIM;
          chrish_split_loop fuel' token bufsize position n_tokens tokens arr
      end
  end.

Definition chrish_split_line (line : cstr) : M (ptr * list slot) :=
  let bufsize := CHRISH_TOK_BUFSIZE in
  tokens ← malloc;
  match tokens with
  | PAddr _ =>
      token ← strtok (Some line) CHRISH_TOK_DELIM;
      '(position, tokens, arr, n_tokens) ←
        chrish_split_loop (length line) token bufsize 0 0 tokens
          (replicate (Z.to_nat bufsize) Uninit);
      arr ← store arr position Null;
      printf (fmt_d n_tokens ++ [LF]);;
      ret (tokens, arr)
  | _ =>
      eprintf alloc_error;;
      exit EXIT_FAILURE
  end.

(** ** The loop *)

(** One pass through the body of the [do ... while (status)].  [args] is
    the value of the variable [args] on entry: it is declared outside the
    [do] and keeps its value between passes.  Returns [status] and the
    new value of [args]. *)
Definition chrish_loop_body (args : ptr) : M (Z * ptr) :=
  printf (lit "> ");;
  '(r, line, text) ← chrish_read_line;
  printf (fmt_d r ++ [LF]);;
  if r =? -1 then
    free line;;
    free args;;
    exit EXIT_SUCCESS
  else
    '(args, argv) ← chrish_split_line text;
    status ← chrish_execute argv;
    free line;;
    free args;;
    ret (status, args).

Fixpoint chrish_loop (fuel : nat) (args : ptr) : M unit :=
  match fuel with
  | O => out_of_fuel
  | S fuel' =>
      '(status, args) ← chrish_loop_body args;
      if status =? 0 then ret tt else chrish_loop fuel' args
  end.

(** One iteration per line of input, and one more that meets its end. *)
Definition main : M Z := fun w =>
  (chrish_loop (S (length (w_stdin w))) PIndet;;
   ret EXIT_SUCCESS) w.

End Shell.

(** ** The tokenizer's contract, in the words of the specification *)

(** The delimiter set: space, tab, carriage return, newline, bell. *)
Definition delimiter (c : ascii) : bool :=
  bool_decide (nat_of_ascii c ∈ [32; 9; 13; 10; 7]%nat).

(** The line cut at every delimiter: between two adjacent delimiters, and
    before a leading or behind a trailing one, lies an empty field. *)
Fixpoint fields (s : cstr) : list cstr :=
  match s with
  | [] => [[]]
  | c :: s' =>
      if delimiter c then [] :: fields s'
      else match fields s' with
           | f :: fs => (c :: f) :: fs
           | [] => [[c]]
           end
  end.

(** The maximal runs of non-delimiter characters, in order: the fields
    that are not empty. *)
Definition maximal_runs (s : cstr) : list cstr :=
  filter (λ f, f ≠ []) (fields s).

(** A line written as words and what separates them: [lead], then each
    word followed by its separator. *)
Definition interleave (lead : cstr) (ws : list (cstr * cstr)) : cstr :=
  lead ++ concat (map (λ p, p.1 ++ p.2) ws).

(** Every separator between two words is non-empty; the last may be. *)
Fixpoint separated (ws : list (cstr * cstr)) : Prop :=
  match ws with
  | [] => True
  | [_] => True
  | p :: ws' => p.2 ≠ [] ∧ separated ws'
  end.

(** A NULL-terminated [char **] holding [toks], followed by whatever the
    rest of the allocation holds. *)
Definition argv (toks : list cstr) (junk : list slot) : list slot :=
  (Tok <$> toks) ++ Null :: junk.

(** ** Vocabulary of the statements *)

(** The continuation signal an [int] status stands for: the loop runs
    [while (status)]. *)
Inductive signal :=
| Continue
| Terminate.

Definition signal_of (status : Z) : signal :=
  if status =? 0 then Terminate else Continue.

(** Both global tables hold what their initialisers put there. *)
Definition tables_intact (w : world) : Prop :=
  w_builtin_str w = builtin_str ∧ w_builtin_func w = builtin_func.

(** A computation that leaves a part [proj] of the world as it is,
    however it ends. *)
Definition keeps {A B} (proj : world → B) (m : M A) : Prop :=
  ∀ w, proj (final (m w)) = proj w.

(** The two builtin tables. *)
Definition tables (w : world) : list cstr * list fnptr :=
  (w_builtin_str w, w_builtin_func w).

(** The ways a computation can stop short of returning. *)
Inductive stop :=
| StopExit (code : Z)
| StopUndef (u : undefined)
| StopBlocked
| StopReplaced (behaviour : list wstatus)
| StopFuel.

Definition stop_of {A} (o : outcome A) : option stop :=
  match o with
  | Ret _ _ => None
  | Exit code _ => Some (StopExit code)
  | Undef u _ => Some (StopUndef u)
  | Blocked _ => Some StopBlocked
  | Replaced b _ => Some (StopReplaced b)
  | Fuel _ => Some StopFuel
  end.

(** A computation that never stops in one of the ways [bad]. *)
Definition never {A} (bad : stop → Prop) (m : M A) : Prop :=
  ∀ w s, stop_of (m w) = Some s → ¬ bad s.

(** The stop by a call of [exit], by [exit(EXIT_SUCCESS)], and the stop of a loop of the model
    that has used up its turns. *)
Definition exits (s : stop) : Prop := ∃ code, s = StopExit code.
Definition exits_success (s : stop) : Prop := s = StopExit EXIT_SUCCESS.
Definition out_of_turns (s : stop) : Prop := s = StopFuel.

(** A computation that writes nothing to standard output when it stops
    and one line, a number in decimal, when it returns. *)
Definition writes_count {A} (m : M A) : Prop :=
  ∀ w, (stop_of (m w) ≠ None ∧ w_out (final (m w)) = w_out w)
       ∨ ∃ r n w', m w = Ret r w' ∧ w_out w' = w_out w ++ fmt_d n ++ [LF].

(** What a computation returns, when it returns, satisfies [P]. *)
Definition returns {A} (P : A → Prop) (m : M A) : Prop :=
  ∀ w a w', m w = Ret a w' → P a.

Definition is_addr (p : ptr) : Prop := ∃ a, p = PAddr a.

(** A pointer [free] must not be given: it has never been assigned, or
    its block is not live. *)
Definition stale (args : ptr) (w : world) : Prop :=
  args = PIndet ∨ ∃ a, args = PAddr a ∧ a ∉ w_live w.

(** What [perror] prints for the error [e]. *)
Definition perror_text (os : OS) (e : errno_t) : cstr :=
  lit "chrish" ++ lit ": " ++ os_strerror os e ++ [LF].

(** Everything [chrish_help] prints. *)
Definition help_text : cstr :=
  help_banner
    ++ concat ((λ name, lit "  " ++ name ++ [LF]) <$> builtin_str)
    ++ help_footer.

(** A state change that ends the wait. *)
Definition terminal (status : wstatus) : bool :=
  WIFEXITED status || WIFSIGNALED status.

(** Every program the system starts ends at some point. *)
Definition programs_end (os : OS) : Prop :=
  ∀ n file args behaviour,
    os_execvp os n file args = inr behaviour →
    Exists (λ st, terminal st = true) behaviour.

(** The world right after a [fork]. *)
Definition after_fork (w : world) : world := set_forks (S (w_forks w)) w.

(** The world after the tokenizer: only standard error, the heap and the
    position of [strtok] can differ from [w]. *)
Definition tok_world (w : world) (err : cstr) (live : gset nat) (brk : nat)
    (s : cstr) : world :=
  World (w_out w) err (w_cwd w) (w_errno w) (w_stdin w) live brk
        (w_forks w) (w_waits w) s (w_builtin_str w) (w_builtin_func w).

(** The token array while it is filled: the tokens stored so far, then
    uninitialised slots up to the capacity. *)
Definition token_array (toks : list cstr) (capacity : Z) : list slot :=
  (Tok <$> toks) ++ replicate (Z.to_nat capacity - length toks) Uninit.

(** The capacity the array has once it holds [n] tokens. *)
Definition capacity_for (n : Z) : Z :=
  CHRISH_TOK_BUFSIZE * (n / CHRISH_TOK_BUFSIZE + 1).

(** ** Vocabulary for whole runs *)

(** The tokens written out again, one space between two. *)
Fixpoint unwords (toks : list cstr) : cstr :=
  match toks with
  | [] => []
  | [t] => t
  | t :: ts => t ++ " "%char :: unwords ts
  end.

(** The strings a vector holds before its NULL, and the tokens in the
    vector a run of the tokenizer returns. *)
Fixpoint strings_of (a : list slot) : list cstr :=
  match a with
  | Tok s :: a' => s :: strings_of a'
  | _ => []
  end.

Definition tokens_returned (o : outcome (ptr * list slot))
    : option (list cstr) :=
  match o with
  | Ret (_, arr) _ => Some (strings_of arr)
  | _ => None
  end.

(** A first token that is one of the builtin names. *)
Definition is_builtin (cmd : cstr) : bool :=
  bool_decide (c_str cmd ∈ builtin_str).

(** The command lines that make the shell attempt a [fork]. *)
Definition launches (toks : list cstr) : bool :=
  match toks with
  | [] => false
  | cmd :: _ => negb (is_builtin cmd)
  end.

(** The status the dispatch returns on a command line: 0 for the exit
    builtin, 1 for everything else. *)
Definition status_of (toks : list cstr) : Z :=
  match toks with
  | cmd :: _ => if bool_decide (c_str cmd = lit "exit") then 0 else 1
  | [] => 1
  end.

(** A line whose first token is exit. *)
Definition exit_command (line : cstr) : bool :=
  match maximal_runs (c_str line) with
  | cmd :: _ => bool_decide (cmd = lit "exit")
  | [] => false
  end.

(** The lines behind the first exit command, if there is one. *)
Fixpoint after_exit (lines : list cstr) : option (list cstr) :=
  match lines with
  | [] => None
  | l :: ls => if exit_command l then Some ls else after_exit ls
  end.

(** The number of lines in front of the first exit command that make
    the shell fork. *)
Fixpoint launched (lines : list cstr) : nat :=
  match lines with
  | [] => 0
  | l :: ls =>
      if exit_command l then 0%nat
      else ((if launches (maximal_runs (c_str l)) then 1 else 0) + launched ls)%nat
  end.

(** A line short enough for the [int] counters of the tokenizer. *)
Definition line_fits (line : cstr) : Prop :=
  Z.of_nat (length line) + CHRISH_TOK_BUFSIZE ≤ INT_MAX.

(** An allocator that never refuses. *)
Definition grants (os : OS) : Prop := ∀ k, os_malloc os k = true.

(** The stop by [exit] with a status in [P], and the stop of a process
    whose image [execvp] has replaced. *)
Definition exits_with (P : Z → Prop) (s : stop) : Prop :=
  ∃ code, s = StopExit code ∧ P code.
Definition replaced (s : stop) : Prop := ∃ b, s = StopReplaced b.

(** ** A system and a world to run examples in *)

(** Allocation and [fork] always succeed; [/tmp] is the only directory
    one can change to; [ls] is the only program, and it is stopped once
    before it exits. *)
Definition demo_os : OS := {|
  os_malloc := λ _, true;
  os_chdir := λ _ path,
    if bool_decide (path = lit "/tmp") then inr path else inl 2;
  os_fork := λ _, inr 42%positive;
  os_execvp := λ _ file _,
    if bool_decide (file = Some (lit "ls"))
    then inr [W_STOPPED 19; W_EXITED 0] else inl 2;
  os_strerror := λ _, lit "No such file or directory"
|}.

(** The same system with an allocator that refuses every request. *)
Definition refusing_os : OS := {|
  os_malloc := λ _, false;
  os_chdir := os_chdir demo_os;
  os_fork := os_fork demo_os;
  os_execvp := os_execvp demo_os;
  os_strerror := os_strerror demo_os
|}.

(** The world at startup, with [input] waiting on standard input. *)
Definition demo_world (input : list cstr) : world :=
  World [] [] (lit "/") 0 input ∅ 0 0 0 [] builtin_str builtin_func.

(** * Proofs *)

(** ** Strings and tokens *)

Section Strings.

Lemma delim_strchr (c : ascii) : strchr CHRISH_TOK_DELIM c = delimiter c.
Proof. destruct c as [[] [] [] [] [] [] [] []]; reflexivity. Qed.

Lemma eqb_NUL_false (c : ascii) (s : cstr) : NUL ∉ c :: s → Ascii.eqb c NUL = false.
Proof.
  intros H. apply Ascii.eqb_neq. intros ->. apply H. left.
Qed.

Lemma fields_not_nil (s : cstr) : fields s ≠ [].
Proof.
  induction s as [|c s IH]; simpl; [done|].
  destruct (delimiter c); [done|]. by destruct (fields s).
Qed.

(** Leading delimiters do not start a run. *)
Lemma maximal_runs_skip (ds s : cstr) :
  Forall (λ c, delimiter c = true) ds → maximal_runs (ds ++ s) = maximal_runs s.
Proof.
  induction 1 as [|c ds Hc _ IH]; simpl; [done|].
  unfold maximal_runs in *. simpl. rewrite Hc.
  rewrite filter_cons_False by (intros H; by apply H). done.
Qed.

Lemma fields_run (t s : cstr) :
  Forall (λ c, delimiter c = false) t →
  fields (t ++ s) = (t ++ hd [] (fields s)) :: tl (fields s).
Proof.
  induction 1 as [|c t Hc _ IH]; simpl.
  - pose proof (fields_not_nil s). by destruct (fields s).
  - rewrite Hc, IH. done.
Qed.

(** A run that ends at a delimiter is the first token. *)
Lemma maximal_runs_run (t : cstr) (d : ascii) (s : cstr) :
  t ≠ [] → Forall (λ c, delimiter c = false) t → delimiter d = true →
  maximal_runs (t ++ d :: s) = t :: maximal_runs s.
Proof.
  intros Ht Hrun Hd. unfold maximal_runs. rewrite fields_run by done.
  simpl. rewrite Hd. simpl. rewrite app_nil_r.
  by rewrite filter_cons_True by done.
Qed.

(** A run that ends with the line is the only token. *)
Lemma maximal_runs_last (t : cstr) :
  t ≠ [] → Forall (λ c, delimiter c = false) t → maximal_runs t = [t].
Proof.
  intros Ht Hrun. unfold maximal_runs.
  rewrite <- (app_nil_r t) at 1. rewrite fields_run by done. simpl.
  rewrite app_nil_r. by rewrite filter_cons_True by done.
Qed.

Lemma maximal_runs_delims (ds : cstr) :
  Forall (λ c, delimiter c = true) ds → maximal_runs ds = [].
Proof.
  intros H. rewrite <- (app_nil_r ds). by rewrite maximal_runs_skip.
Qed.

(** [strspn] measures the leading delimiters of a NUL-free string. *)
Lemma strspn_delims_gen (D s : cstr) :
  (∀ c, strchr D c = delimiter c) → NUL ∉ s →
  Forall (λ c, delimiter c = true) (take (strspn s D) s) ∧
  hd_error (delimiter <$> drop (strspn s D) s) ≠ Some true.
Proof.
  intros HD. induction s as [|c s IH]; intros Hn; simpl; [done|].
  rewrite (eqb_NUL_false c s) by done. rewrite HD.
  apply not_elem_of_cons in Hn as [_ Hn].
  destruct (delimiter c) eqn:Hc; simpl.
  - destruct (IH Hn) as [H1 H2]. split; [by constructor|done].
  - split; [constructor|]. rewrite Hc. done.
Qed.

(** [strcspn] measures the leading run of a NUL-free string. *)
Lemma strcspn_run_gen (D s : cstr) :
  (∀ c, strchr D c = delimiter c) → NUL ∉ s →
  Forall (λ c, delimiter c = false) (take (strcspn s D) s) ∧
  hd_error (delimiter <$> drop (strcspn s D) s) ≠ Some false.
Proof.
  intros HD. induction s as [|c s IH]; intros Hn; simpl; [done|].
  rewrite (eqb_NUL_false c s) by done. rewrite HD.
  apply not_elem_of_cons in Hn as [_ Hn].
  destruct (delimiter c) eqn:Hc; simpl.
  - split; [constructor|]. rewrite Hc. done.
  - destruct (IH Hn) as [H1 H2]. split; [by constructor|done].
Qed.

Lemma at_end_nul_free (s : cstr) : NUL ∉ s → at_end s = bool_decide (s = []).
Proof.
  destruct s as [|c s]; intros Hn; simpl; [done|].
  by rewrite (eqb_NUL_false c s).
Qed.

Lemma not_elem_of_drop (n : nat) (s : cstr) : NUL ∉ s → NUL ∉ drop n s.
Proof.
  intros H Hin. apply H. rewrite <- (take_drop n s). apply elem_of_app. by right.
Qed.

(** One [strtok] step against the specification. *)
Lemma strtok_r_runs (s : cstr) :
  NUL ∉ s →
  match strtok_r s CHRISH_TOK_DELIM with
  | (None, s') => maximal_runs s = []
  | (Some t, s') =>
      maximal_runs s = t :: maximal_runs s' ∧
      (length s' < length s)%nat ∧ NUL ∉ s'
  end.
Proof.
  intros Hn. unfold strtok_r.
  rewrite at_end_nul_free by done. case_bool_decide as Hs.
  { subst. done. }
  destruct (strspn_delims_gen _ s delim_strchr Hn) as [Hds Hhd].
  set (k := strspn s CHRISH_TOK_DELIM) in *.
  assert (Hn1 : NUL ∉ drop k s) by by apply not_elem_of_drop.
  rewrite at_end_nul_free by done. case_bool_decide as Hs1.
  { rewrite <- (take_drop k s), Hs1, app_nil_r. by apply maximal_runs_delims. }
  destruct (strcspn_run_gen _ (drop k s) delim_strchr Hn1) as [Hrun Hhd'].
  set (s1 := drop k s) in *. set (n := strcspn s1 CHRISH_TOK_DELIM) in *.
  assert (Hn2 : NUL ∉ drop n s1) by by apply not_elem_of_drop.
  assert (Ht : take n s1 ≠ []).
  { destruct s1 as [|c s1'] eqn:E; [done|]. 
    subst n. cbn [strcspn]. rewrite (eqb_NUL_false c s1') by done.
    rewrite delim_strchr. simpl in Hhd.
    destruct (delimiter c); [by exfalso; apply Hhd|done]. }
  assert (Hlen : (length s = length (take k s) + length (take n s1) + length (drop n s1))%nat).
  { rewrite <- (take_drop k s) at 1. rewrite length_app. fold s1.
    rewrite <- (take_drop n s1) at 1. rewrite length_app. lia. }
  assert (Htl : (0 < length (take n s1))%nat).
  { destruct (take n s1); [done|simpl; lia]. }
  rewrite at_end_nul_free by done. case_bool_decide as He.
  - rewrite He. split; [|split; [simpl; lia | apply not_elem_of_nil]].
    rewrite <- (take_drop k s). fold s1. rewrite maximal_runs_skip by done.
    rewrite <- (take_drop n s1) at 1. rewrite He, app_nil_r.
    unfold maximal_runs at 2. simpl.
    by apply maximal_runs_last.
  - destruct (drop n s1) as [|d e] eqn:E; [done|]. simpl in *.
    rewrite drop_0.
    split; [|split; [lia | by apply not_elem_of_cons in Hn2 as [_ ?] ]].
    rewrite <- (take_drop k s). fold s1. rewrite maximal_runs_skip by done.
    rewrite <- (take_drop n s1) at 1. rewrite E.
    apply maximal_runs_run; [done..|].
    destruct (delimiter d); [done|by exfalso; apply Hhd'].
Qed.


Lemma fields_delimiter_free (s : cstr) :
  Forall (Forall (λ c, delimiter c = false)) (fields s).
Proof.
  induction s as [|c s IH]; simpl.
  - repeat constructor.
  - destruct (delimiter c) eqn:Hc.
    + constructor; [constructor|done].
    + destruct (fields s) as [|f fs]; inversion IH; subst; repeat constructor; done.
Qed.

Lemma maximal_runs_tokens (s : cstr) :
  Forall (λ t, t ≠ [] ∧ Forall (λ c, delimiter c = false) t) (maximal_runs s).
Proof.
  unfold maximal_runs. apply Forall_forall. intros t Ht.
  apply list_elem_of_filter in Ht as [Hne Hin]. split; [done|].
  pose proof (fields_delimiter_free s) as H.
  rewrite Forall_forall in H. by apply H.
Qed.

(** The words of a line are its tokens. *)
Lemma maximal_runs_interleave (ws : list (cstr * cstr)) : ∀ lead : cstr,
  Forall (λ c, delimiter c = true) lead →
  Forall (λ p, p.1 ≠ [] ∧ Forall (λ c, delimiter c = false) p.1
               ∧ Forall (λ c, delimiter c = true) p.2) ws →
  separated ws →
  maximal_runs (interleave lead ws) = ws.*1.
Proof.
  induction ws as [|[w sep] ws IH]; intros lead Hlead Hws Hsep; unfold interleave.
  - simpl. rewrite app_nil_r. by apply maximal_runs_delims.
  - rewrite maximal_runs_skip by done. simpl.
    inversion Hws as [|? ? (Hw & Hrun & Hd) Hws']; subst. simpl in *.
    destruct sep as [|d sep].
    + destruct ws as [|p ws]; [|by destruct Hsep].
      simpl. rewrite !app_nil_r. by apply maximal_runs_last.
    + inversion Hd; subst. rewrite <- !app_assoc. simpl.
      rewrite maximal_runs_run by done. f_equal.
      apply (IH sep); [done..|].
      destruct ws; [done|]. by destruct Hsep.
Qed.

(** Every line is an interleaving of words and separators. *)
Lemma line_interleaving (s : cstr) :
  ∃ lead ws,
    s = interleave lead ws ∧
    Forall (λ c, delimiter c = true) lead ∧
    Forall (λ p, p.1 ≠ [] ∧ Forall (λ c, delimiter c = false) p.1
                 ∧ Forall (λ c, delimiter c = true) p.2) ws ∧
    separated ws.
Proof.
  induction s as [|c s (lead & ws & -> & Hlead & Hws & Hsep)].
  - exists [], []. repeat split; constructor.
  - destruct (delimiter c) eqn:Hc.
    + exists (c :: lead), ws. repeat split; try done. by constructor.
    + destruct lead as [|d lead].
      * destruct ws as [|[w sep] ws].
        -- exists [], [([c], [])]. repeat split; repeat constructor; done.
        -- exists [], ((c :: w, sep) :: ws). inversion Hws as [|? ? (Hw & Hrun & Hd) Hws']; subst.
           repeat split; try done. constructor; [|done]. simpl in *.
           repeat split; try done. by constructor.
      * exists [], (([c], d :: lead) :: ws). repeat split; try done.
        -- constructor; [|done]. simpl. repeat split; try done. by repeat constructor.
        -- destruct ws; [done|]. split; done.
Qed.


(** ** Buffers and the strings they hold *)

Lemma c_str_nul_free (s : cstr) : NUL ∉ c_str s.
Proof.
  induction s as [|c s IH]; simpl; [apply not_elem_of_nil|].
  destruct (Ascii.eqb_spec c NUL); [apply not_elem_of_nil|].
  apply not_elem_of_cons. split; [congruence|done].
Qed.

Lemma c_str_id (s : cstr) : NUL ∉ s → c_str s = s.
Proof.
  induction s as [|c s IH]; intros Hn; simpl; [done|].
  rewrite (eqb_NUL_false c s) by done.
  apply not_elem_of_cons in Hn as [_ Hn]. by rewrite IH.
Qed.

(** A buffer is the string it holds followed by what lies behind its end. *)
Lemma c_str_split (s : cstr) :
  ∃ rest, s = c_str s ++ rest ∧ at_end rest = true.
Proof.
  induction s as [|c s (rest & IH & Hend)]; simpl.
  - by exists [].
  - destruct (Ascii.eqb_spec c NUL) as [->|Hc].
    + by exists (NUL :: s).
    + exists rest. split; [simpl; by f_equal|done].
Qed.

Lemma c_str_app (t rest : cstr) :
  NUL ∉ t → at_end rest = true → c_str (t ++ rest) = t.
Proof.
  intros Ht Hend. induction t as [|c t IH]; simpl.
  - destruct rest as [|d rest]; simpl in *; [done|by rewrite Hend].
  - rewrite (eqb_NUL_false c t) by done.
    apply not_elem_of_cons in Ht as [_ Ht]. by rewrite IH.
Qed.

Lemma at_end_app (t rest : cstr) :
  NUL ∉ t → at_end rest = true → at_end (t ++ rest) = bool_decide (t = []).
Proof.
  intros Ht Hend. destruct t as [|c t]; simpl; [done|].
  by rewrite (eqb_NUL_false c t).
Qed.

Lemma strspn_app (D t rest : cstr) :
  NUL ∉ t → at_end rest = true →
  strspn (t ++ rest) D = strspn t D ∧ (strspn t D ≤ length t)%nat.
Proof.
  intros Ht Hend. induction t as [|c t IH]; simpl.
  - destruct rest as [|d rest]; simpl in *; [done|by rewrite Hend].
  - rewrite (eqb_NUL_false c t) by done.
    apply not_elem_of_cons in Ht as [_ Ht]. destruct (IH Ht) as [-> ?].
    destruct (strchr D c); simpl; split; lia.
Qed.

Lemma strcspn_app (D t rest : cstr) :
  NUL ∉ t → at_end rest = true →
  strcspn (t ++ rest) D = strcspn t D ∧ (strcspn t D ≤ length t)%nat.
Proof.
  intros Ht Hend. induction t as [|c t IH]; simpl.
  - destruct rest as [|d rest]; simpl in *; [done|by rewrite Hend].
  - rewrite (eqb_NUL_false c t) by done.
    apply not_elem_of_cons in Ht as [_ Ht]. destruct (IH Ht) as [-> ?].
    destruct (strchr D c); simpl; split; lia.
Qed.

(** [strtok] sees of a buffer only the string it holds. *)
Lemma strtok_r_c_str (D s : cstr) :
  (strtok_r s D).1 = (strtok_r (c_str s) D).1 ∧
  c_str (strtok_r s D).2 = (strtok_r (c_str s) D).2 ∧
  (length (strtok_r (c_str s) D).2 < length (c_str s) →
   length (strtok_r s D).2 < length s)%nat.
Proof.
  destruct (c_str_split s) as (rest & Hs & Hend).
  pose proof (c_str_nul_free s) as Hn.
  remember (c_str s) as t eqn:Ht0. subst s. clear Ht0.
  unfold strtok_r.
  rewrite at_end_app, (at_end_nul_free t) by done.
  case_bool_decide as Ht.
  { subst t. simpl. split; [done|]. split; [|lia].
    destruct rest as [|d rest]; simpl in *; [done|by rewrite Hend]. }
  destruct (strspn_app D t rest Hn Hend) as [-> Hk].
  set (k := strspn t D) in *.
  rewrite drop_app_le by done.
  assert (Hn1 : NUL ∉ drop k t) by by apply not_elem_of_drop.
  rewrite at_end_app, (at_end_nul_free (drop k t)) by done.
  case_bool_decide as Ht1.
  { simpl. rewrite Ht1. simpl. split; [done|]. split; [|rewrite length_app; lia].
    destruct rest as [|d rest]; simpl in *; [done|by rewrite Hend]. }
  destruct (strcspn_app D (drop k t) rest Hn1 Hend) as [-> Hm].
  set (s1 := drop k t) in *. set (m := strcspn s1 D) in *.
  rewrite drop_app_le, take_app_le by done.
  assert (Hn2 : NUL ∉ drop m s1) by by apply not_elem_of_drop.
  rewrite at_end_app, (at_end_nul_free (drop m s1)) by done.
  assert (Hlen : (length t = k + length s1)%nat).
  { subst s1. rewrite length_drop. lia. }
  case_bool_decide as He; simpl.
  - rewrite He. simpl. split; [done|]. split.
    + destruct rest as [|d rest]; simpl in *; [done|by rewrite Hend].
    + rewrite !length_app. lia.
  - split; [done|]. 
    destruct (drop m s1) as [|d e] eqn:E; [done|]. simpl. rewrite !drop_0.
    split.
    + apply c_str_app; [|done]. by apply not_elem_of_cons in Hn2 as [_ ?].
    + rewrite !length_app. lia.
Qed.

End Strings.

(** ** Running the monad *)

Arguments alloc_error : simpl never.
Arguments cd_usage : simpl never.
Arguments help_banner : simpl never.
Arguments help_footer : simpl never.
Arguments lit : simpl never.
Arguments fmt_d : simpl never.
Arguments CHRISH_TOK_DELIM : simpl never.

(** Unfold the monad's operations in the goal. *)
Ltac munfold :=
  unfold mbind, M_bind, bind, mret, M_ret, ret, exit, undef, out_of_fuel,
    eprintf, printf, seterrno.

(** Unfold the world's setters and reduce the projections. *)
Ltac wsimpl :=
  unfold set_out, set_err, set_cwd, set_errno, set_stdin, set_heap,
    set_forks, set_waits, set_strtok; simpl.

Section Monad.

Lemma bind_Ret {A B} (m : M A) (k : A → M B) (w : world) (a : A) (w' : world) :
  m w = Ret a w' → (m ≫= k) w = k a w'.
Proof. intros H. unfold mbind, M_bind, bind. by rewrite H. Qed.

Lemma bind_Exit {A B} (m : M A) (k : A → M B) (w : world) (c : Z) (w' : world) :
  m w = Exit c w' → (m ≫= k) w = Exit c w'.
Proof. intros H. unfold mbind, M_bind, bind. by rewrite H. Qed.

Lemma int_add_ok (a b : Z) (w : world) :
  INT_MIN ≤ a + b ≤ INT_MAX → int_add a b w = Ret (a + b) w.
Proof.
  intros H. unfold int_add.
  destruct (Z.leb_spec INT_MIN (a + b)); [|lia].
  destruct (Z.leb_spec (a + b) INT_MAX); [|lia]. done.
Qed.

Lemma store_push (done : list cstr) (v : slot) (k : nat) (w : world) :
  store ((Tok <$> done) ++ replicate (S k) Uninit) (Z.of_nat (length done)) v w
  = Ret ((Tok <$> done) ++ v :: replicate k Uninit) w.
Proof.
  unfold store. rewrite length_app, length_fmap, length_replicate.
  destruct (Z.leb_spec 0 (Z.of_nat (length done))); [|lia].
  destruct (Z.ltb_spec (Z.of_nat (length done)) (Z.of_nat (length done + S k))); [|lia].
  simpl. rewrite Nat2Z.id. unfold ret. f_equal.
  rewrite insert_app_r_alt by (rewrite length_fmap; lia).
  by rewrite length_fmap, Nat.sub_diag.
Qed.

End Monad.

(** ** The tokenizer *)

Section Tok.
Context (os : OS).

Lemma malloc_ok (w : world) :
  os_malloc os (w_brk w) = true →
  malloc os w = Ret (PAddr (fresh (w_live w)))
                    (set_heap ({[fresh (w_live w)]} ∪ w_live w) (S (w_brk w)) w).
Proof. intros H. unfold malloc. by rewrite H. Qed.

Lemma malloc_fail (w : world) :
  os_malloc os (w_brk w) = false →
  malloc os w = Ret PNull (set_heap (w_live w) (S (w_brk w)) w).
Proof. intros H. unfold malloc. by rewrite H. Qed.

Lemma free_live (a : nat) (w : world) :
  a ∈ w_live w →
  free (PAddr a) w = Ret tt (set_heap (w_live w ∖ {[a]}) (w_brk w) w).
Proof. intros H. unfold free. by rewrite bool_decide_eq_true_2. Qed.

Lemma fresh_not_in_part (a : nat) (L S : gset nat) :
  S = {[a]} ∪ L → fresh S ∉ L.
Proof.
  intros -> Hin. apply (is_fresh ({[a]} ∪ L)). by apply elem_of_union_r.
Qed.

Lemma live_release (b : nat) (L : gset nat) :
  b ∉ L → ({[b]} ∪ L) ∖ {[b]} = L.
Proof.
  intros Hb. apply set_eq. intros x.
  rewrite elem_of_difference, elem_of_union, elem_of_singleton.
  split; [by intros [[->|?] ?]|]. intros Hx. split; [by right|]. by intros ->.
Qed.

Lemma live_replace (a b : nat) (L : gset nat) :
  a ∉ L → b ∉ {[a]} ∪ L → ({[b]} ∪ ({[a]} ∪ L)) ∖ {[a]} = {[b]} ∪ L.
Proof.
  intros Ha Hb. apply set_eq. intros x.
  rewrite elem_of_difference, !elem_of_union, !elem_of_singleton.
  rewrite elem_of_union, elem_of_singleton in Hb.
  split.
  - intros [[->|[->|?]] ?]; [by left|done|by right].
  - intros [->|Hx]; (split; [auto|]); intros ->; [apply Hb; by left|done].
Qed.

Lemma realloc_ok (a : nat) (L : gset nat) (w : world) :
  w_live w = {[a]} ∪ L → a ∉ L →
  os_malloc os (w_brk w) = true →
  realloc os (PAddr a) w
  = Ret (PAddr (fresh (w_live w)))
        (set_heap ({[fresh (w_live w)]} ∪ L) (S (w_brk w)) w).
Proof.
  intros Hlive HaL Hos. unfold realloc.
  pose proof (is_fresh (w_live w)) as Hfresh.
  rewrite (bind_Ret _ _ _ _ _ (malloc_ok w Hos)).
  rewrite (bind_Ret _ _ _ tt (set_heap ({[fresh (w_live w)]} ∪ L) (S (w_brk w)) w)).
  - done.
  - rewrite free_live
      by (simpl; rewrite Hlive; apply elem_of_union_r, elem_of_union_l;
          by apply elem_of_singleton).
    f_equal. unfold set_heap. simpl. f_equal.
    generalize dependent (fresh (w_live w)). intros b Hb. rewrite Hlive in *.
    by apply live_replace.
Qed.

Lemma realloc_fail (p : ptr) (w : world) :
  os_malloc os (w_brk w) = false →
  realloc os p w = Ret PNull (set_heap (w_live w) (S (w_brk w)) w).
Proof.
  intros Hos. unfold realloc.
  by rewrite (bind_Ret _ _ _ _ _ (malloc_fail w Hos)).
Qed.

Lemma strtok_next (w : world) :
  strtok None CHRISH_TOK_DELIM w
  = Ret (strtok_r (w_strtok w) CHRISH_TOK_DELIM).1
        (set_strtok (strtok_r (w_strtok w) CHRISH_TOK_DELIM).2 w).
Proof. unfold strtok. by destruct (strtok_r _ _). Qed.

Lemma token_array_push (done : list cstr) (t : cstr) (cap : Z) :
  Z.of_nat (length done) < cap →
  (Tok <$> done) ++ Tok t :: replicate (Z.to_nat cap - length done - 1) Uninit
  = token_array (done ++ [t]) cap.
Proof.
  intros H. unfold token_array. rewrite fmap_app, <- app_assoc, length_app. simpl.
  do 3 f_equal. lia.
Qed.

Lemma token_array_grow (toks : list cstr) (cap : Z) :
  Z.of_nat (length toks) ≤ cap →
  token_array toks cap
    ++ replicate (Z.to_nat (cap + CHRISH_TOK_BUFSIZE) - length (token_array toks cap)) Uninit
  = token_array toks (cap + CHRISH_TOK_BUFSIZE).
Proof.
  intros H. unfold token_array, CHRISH_TOK_BUFSIZE.
  rewrite <- app_assoc, <- replicate_add, length_app, length_fmap, length_replicate.
  do 2 f_equal. lia.
Qed.

Lemma capacity_for_next (pos : Z) :
  0 ≤ pos →
  pos < capacity_for pos ≤ pos + 64 ∧
  (capacity_for pos ≤ pos + 1 →
     capacity_for (pos + 1) = capacity_for pos + CHRISH_TOK_BUFSIZE
     ∧ (pos + 1) / 64 = pos / 64 + 1) ∧
  (pos + 1 < capacity_for pos →
     capacity_for (pos + 1) = capacity_for pos ∧ (pos + 1) / 64 = pos / 64).
Proof.
  intros H. unfold capacity_for, CHRISH_TOK_BUFSIZE.
  Z.div_mod_to_equations. lia.
Qed.

Lemma split_loop_done fuel bufsize position n_tokens tokens arr w :
  chrish_split_loop os fuel None bufsize position n_tokens tokens arr w
  = Ret (position, tokens, arr, n_tokens) w.
Proof. by destruct fuel. Qed.

(** One turn of the [while] loop: the token is stored; when that fills
    the array, the array grows or the process exits. *)
Lemma chrish_split_loop_step (fuel : nat) (t : cstr) (done : list cstr)
    (a : nat) (L : gset nat) (w : world) :
  let pos := Z.of_nat (length done) in
  let pos' := Z.of_nat (length (done ++ [t])) in
  let next := strtok_r (w_strtok w) CHRISH_TOK_DELIM in
  pos + 1 + 64 ≤ INT_MAX →
  w_live w = {[a]} ∪ L → a ∉ L →
  chrish_split_loop os (S fuel) (Some t) (capacity_for pos) pos pos (PAddr a)
    (token_array done (capacity_for pos)) w
  = if pos + 1 <? capacity_for pos then
      chrish_split_loop os fuel next.1 (capacity_for pos') pos' pos' (PAddr a)
        (token_array (done ++ [t]) (capacity_for pos')) (set_strtok next.2 w)
    else if os_malloc os (w_brk w) then
      chrish_split_loop os fuel next.1 (capacity_for pos') pos' pos'
        (PAddr (fresh (w_live w)))
        (token_array (done ++ [t]) (capacity_for pos'))
        (set_strtok next.2
           (set_heap ({[fresh (w_live w)]} ∪ L) (S (w_brk w)) w))
    else
      Exit EXIT_FAILURE
        (tok_world w (w_err w ++ alloc_error) L (S (w_brk w)) (w_strtok w)).
Proof.
  intros pos pos' next Hmax Hlive HaL.
  assert (Hlen : pos' = pos + 1).
  { subst pos pos'. rewrite length_app. simpl. lia. }
  destruct (capacity_for_next pos ltac:(lia)) as (Hcap & Hfull & Hroom).
  cbn [chrish_split_loop].
  rewrite (bind_Ret _ _ w (pos + 1) w) by (apply int_add_ok; unfold INT_MIN; lia).
  assert (Harr : token_array done (capacity_for pos)
                 = (Tok <$> done) ++ replicate (S (Z.to_nat (capacity_for pos) - length done - 1)) Uninit).
  { unfold token_array. f_equal. f_equal. lia. }
  rewrite Harr.
  rewrite (bind_Ret _ _ w _ w) by (apply store_push).
  rewrite token_array_push by lia.
  rewrite (bind_Ret _ _ w (pos + 1) w) by (apply int_add_ok; unfold INT_MIN; lia).
  unfold chrish_grow. rewrite Hlen. rewrite Z.geb_leb.
  destruct (Z.ltb_spec (pos + 1) (capacity_for pos)) as [Hlt|Hge].
  - (* there is room left *)
    destruct (Hroom Hlt) as [Hcap' _].
    destruct (Z.leb_spec (capacity_for pos) (pos + 1)); [lia|].
    rewrite (bind_Ret _ _ w (capacity_for (pos + 1), PAddr a,
                             token_array (done ++ [t]) (capacity_for (pos + 1))) w)
      by (by rewrite Hcap').
    cbn beta iota. by rewrite (bind_Ret _ _ w _ _ (strtok_next w)).
  - (* the array is full *)
    destruct (Hfull Hge) as [Hcap' _].
    destruct (Z.leb_spec (capacity_for pos) (pos + 1)); [|lia].
    destruct (os_malloc os (w_brk w)) eqn:Hos.
    + set (w1 := set_heap ({[fresh (w_live w)]} ∪ L) (S (w_brk w)) w).
      rewrite (bind_Ret _ _ w (capacity_for (pos + 1), PAddr (fresh (w_live w)),
                               token_array (done ++ [t]) (capacity_for (pos + 1))) w1).
      2:{ rewrite (bind_Ret _ _ w (capacity_for pos + CHRISH_TOK_BUFSIZE) w)
            by (apply int_add_ok; unfold INT_MIN, CHRISH_TOK_BUFSIZE; lia).
          rewrite (bind_Ret _ _ w _ _ (realloc_ok a L w Hlive HaL Hos)).
          unfold ret. rewrite token_array_grow by lia. by rewrite Hcap'. }
      cbn beta iota. by rewrite (bind_Ret _ _ w1 _ _ (strtok_next w1)).
    + apply bind_Exit.
      rewrite (bind_Ret _ _ w (capacity_for pos + CHRISH_TOK_BUFSIZE) w)
        by (apply int_add_ok; unfold INT_MIN, CHRISH_TOK_BUFSIZE; lia).
      rewrite (bind_Ret _ _ w _ _ (realloc_fail (PAddr a) w Hos)).
      rewrite (bind_Ret _ _ _ tt (set_heap L (S (w_brk w)) w)).
      * done.
      * rewrite free_live
          by (simpl; rewrite Hlive; apply elem_of_union_l;
              by apply elem_of_singleton).
        f_equal. unfold set_heap. simpl. f_equal. rewrite Hlive.
        by apply live_release.
Qed.

(** What one [strtok] step leaves for the turns to come. *)
Lemma strtok_r_rest (s : cstr) :
  let next := strtok_r s CHRISH_TOK_DELIM in
  maximal_runs (c_str s) = match next.1 with
                           | Some t => t :: maximal_runs (c_str next.2)
                           | None => []
                           end
  ∧ (is_Some next.1 → (length next.2 < length s)%nat).
Proof.
  intros next. subst next.
  pose proof (strtok_r_runs (c_str s) (c_str_nul_free s)) as H.
  destruct (strtok_r_c_str CHRISH_TOK_DELIM s) as (-> & -> & Hlen).
  destruct (strtok_r (c_str s) CHRISH_TOK_DELIM) as [[t|] s']; simpl in *.
  - destruct H as (-> & ? & _). split; [done|]. intros _. by apply Hlen.
  - split; [done|]. by intros [? ?].
Qed.

(** The loop as a whole: every token is stored, in an array that has grown
    once per 64 tokens; or a refused request ends the process. *)
Lemma chrish_split_loop_spec (fuel : nat) :
  ∀ (tok : option cstr) (done : list cstr) (a : nat) (L : gset nat) (w : world),
  let pos := Z.of_nat (length done) in
  let rest := match tok with
              | Some t => t :: maximal_runs (c_str (w_strtok w))
              | None => []
              end in
  let total := pos + Z.of_nat (length rest) in
  let r := Z.to_nat (total / 64 - pos / 64) in
  let run := chrish_split_loop os fuel tok (capacity_for pos) pos pos (PAddr a)
               (token_array done (capacity_for pos)) w in
  (is_Some tok → (length (w_strtok w) < fuel)%nat) →
  total + 64 ≤ INT_MAX →
  w_live w = {[a]} ∪ L → a ∉ L →
  ((∀ k, (k < r)%nat → os_malloc os (w_brk w + k) = true) →
   ∃ a' s',
     run = Ret (total, PAddr a',
                token_array (done ++ rest) (capacity_for total), total)
               (tok_world w (w_err w) ({[a']} ∪ L) (w_brk w + r) s')
     ∧ (a' ∉ L)) ∧
  (∀ j, (j < r)%nat → os_malloc os (w_brk w + j) = false →
        (∀ k, (k < j)%nat → os_malloc os (w_brk w + k) = true) →
   ∃ s',
     run = Exit EXIT_FAILURE
             (tok_world w (w_err w ++ alloc_error) L (w_brk w + S j) s')).
Proof.
  induction fuel as [|fuel IH]; intros tok done a L w pos rest total r run
    Hfuel Hmax Hlive HaL.
  { destruct tok as [t|].
    { exfalso. specialize (Hfuel (ltac:(eauto))). lia. }
    assert (Hr : r = 0%nat).
    { subst r total rest. simpl. rewrite Z.add_0_r. lia. }
    rewrite Hr. split; [|intros; lia]. intros _.
    exists a, (w_strtok w). subst rest total run. simpl.
    rewrite Z.add_0_r, app_nil_r, Nat.add_0_r.
    split; [|done]. unfold tok_world. rewrite <- Hlive. by destruct w. }
  destruct tok as [t|]; cycle 1.
  { assert (Hr : r = 0%nat).
    { subst r total rest. simpl. rewrite Z.add_0_r. lia. }
    rewrite Hr. split; [|intros; lia]. intros _.
    exists a, (w_strtok w). subst rest total run. rewrite split_loop_done. simpl.
    rewrite Z.add_0_r, app_nil_r, Nat.add_0_r.
    split; [|done]. unfold tok_world. rewrite <- Hlive. by destruct w. }
  specialize (Hfuel (ltac:(eauto))).
  destruct (strtok_r_rest (w_strtok w)) as (Hruns & Hshort).
  set (next := strtok_r (w_strtok w) CHRISH_TOK_DELIM) in *.
  set (rest1 := match next.1 with
                | Some t' => t' :: maximal_runs (c_str next.2)
                | None => []
                end) in *.
  assert (Hlen : Z.of_nat (length (done ++ [t])) = pos + 1).
  { rewrite length_app. simpl. lia. }
  assert (Hmid : done ++ rest = (done ++ [t]) ++ rest1).
  { subst rest. rewrite <- app_assoc. simpl. by rewrite Hruns. }
  assert (Htot : total = pos + 1 + Z.of_nat (length rest1)).
  { subst total rest. rewrite Hruns. simpl length. lia. }
  assert (Hfuel1 : is_Some next.1 → (length next.2 < fuel)%nat).
  { intros H. specialize (Hshort H). lia. }
  destruct (capacity_for_next pos ltac:(lia)) as (Hcap & Hfull & Hroom).
  assert (Hmono : (pos + 1) / 64 ≤ total / 64) by (apply Z.div_le_mono; lia).
  pose proof (chrish_split_loop_step fuel t done a L w) as Hstep.
  cbv zeta in Hstep. fold pos next in Hstep.
  subst run. rewrite Hstep by (done || lia). clear Hstep. rewrite !Hlen, Hmid.
  destruct (Z.ltb_spec (pos + 1) (capacity_for pos)) as [Hlt|Hge].
  - (* there is room left *)
    destruct (Hroom Hlt) as [_ Hdiv].
    destruct (IH next.1 (done ++ [t]) a L (set_strtok next.2 w)) as [Hok Hfail];
      try done.
    { cbn [w_strtok set_strtok]. fold rest1. lia. }
    cbn [w_strtok set_strtok w_brk] in Hok, Hfail. fold rest1 in Hok, Hfail.
    rewrite ?Hlen, <- ?Htot, ?Hdiv in Hok, Hfail. fold r in Hok, Hfail.
    split; [intros Hos; destruct (Hok Hos) as (a' & s' & -> & ?); by exists a', s'|].
    intros j Hj Hno Hyes. destruct (Hfail j Hj Hno Hyes) as (s' & ->). by exists s'.
  - (* the array is full *)
    destruct (Hfull Hge) as [_ Hdiv].
    assert (Hr : r = S (Z.to_nat (total / 64 - (pos + 1) / 64))).
    { subst r. rewrite Hdiv. lia. }
    destruct (os_malloc os (w_brk w)) eqn:Hos0.
    + destruct (IH next.1 (done ++ [t]) (fresh (w_live w)) L
                  (set_strtok next.2
                     (set_heap ({[fresh (w_live w)]} ∪ L) (S (w_brk w)) w)))
        as [Hok Hfail]; try done.
      { cbn [w_strtok set_strtok]. fold rest1. lia. }
      { by apply (fresh_not_in_part a). }
      cbn [w_strtok set_strtok set_heap w_brk] in Hok, Hfail. fold rest1 in Hok, Hfail.
      rewrite ?Hlen, <- ?Htot in Hok, Hfail.
      split.
      * intros Hos. destruct Hok as (a' & s' & -> & ?).
        { intros k Hk. replace (S (w_brk w) + k)%nat with (w_brk w + S k)%nat by lia.
          apply Hos. lia. }
        exists a', s'. split; [|done].
        f_equal. unfold tok_world. simpl. f_equal. lia.
      * intros j Hj Hno Hyes. destruct j as [|j].
        { rewrite Nat.add_0_r in Hno. congruence. }
        destruct (Hfail j) as (s' & ->).
        { lia. }
        { by replace (S (w_brk w) + j)%nat with (w_brk w + S j)%nat by lia. }
        { intros k Hk. replace (S (w_brk w) + k)%nat with (w_brk w + S k)%nat by lia.
          apply Hyes. lia. }
        exists s'. f_equal. unfold tok_world. simpl. f_equal. lia.
    + split.
      * intros Hos. specialize (Hos 0%nat ltac:(lia)).
        rewrite Nat.add_0_r in Hos. congruence.
      * intros j Hj Hno Hyes. destruct j as [|j].
        { exists (w_strtok w). f_equal. unfold tok_world. f_equal. lia. }
        specialize (Hyes 0%nat ltac:(lia)). rewrite Nat.add_0_r in Hyes. congruence.
Qed.

Lemma maximal_runs_cons_length (c : ascii) (s : cstr) :
  (length (maximal_runs (c :: s)) ≤ S (length (maximal_runs s)))%nat.
Proof.
  unfold maximal_runs. simpl. destruct (delimiter c).
  - rewrite filter_cons_False by (intros H; by apply H). lia.
  - pose proof (fields_not_nil s). destruct (fields s) as [|f fs]; [done|].
    rewrite filter_cons_True by done. simpl.
    destruct (decide (f = [])) as [->|Hf].
    + rewrite filter_cons_False by (intros H'; by apply H'). lia.
    + rewrite filter_cons_True by done. simpl. lia.
Qed.

Lemma maximal_runs_length (s : cstr) :
  (length (maximal_runs s) ≤ length s)%nat.
Proof.
  induction s as [|c s IH]; [done|].
  pose proof (maximal_runs_cons_length c s). simpl. lia.
Qed.

Lemma c_str_length (s : cstr) : (length (c_str s) ≤ length s)%nat.
Proof.
  induction s as [|c s IH]; simpl; [done|].
  destruct (Ascii.eqb c NUL); simpl; lia.
Qed.

Lemma strtok_first (line : cstr) (w : world) :
  strtok (Some line) CHRISH_TOK_DELIM w
  = Ret (strtok_r line CHRISH_TOK_DELIM).1
        (set_strtok (strtok_r line CHRISH_TOK_DELIM).2 w).
Proof. unfold strtok. by destruct (strtok_r _ _). Qed.

(** [chrish_split_line] on a line of text: the vector holds the maximal
    runs, in an allocation of [capacity_for n] slots, when the [1 + n / 64]
    requests it makes are granted; the first refusal ends the process. *)
Lemma chrish_split_line_spec (line : cstr) (w : world) :
  let toks := maximal_runs (c_str line) in
  let n := Z.of_nat (length toks) in
  let r := Z.to_nat (n / 64) in
  Z.of_nat (length line) + 64 ≤ INT_MAX →
  ((∀ k, (k ≤ r)%nat → os_malloc os (w_brk w + k) = true) →
   ∃ a junk s',
     chrish_split_line os line w
     = Ret (PAddr a, argv toks junk)
           (set_out (λ o, o ++ fmt_d n ++ [LF])
              (tok_world w (w_err w) ({[a]} ∪ w_live w) (w_brk w + S r) s'))
     ∧ (a ∉ w_live w)
     ∧ Z.of_nat (length (argv toks junk)) = capacity_for n) ∧
  (∀ j, (j ≤ r)%nat → os_malloc os (w_brk w + j) = false →
        (∀ k, (k < j)%nat → os_malloc os (w_brk w + k) = true) →
   ∃ s',
     chrish_split_line os line w
     = Exit EXIT_FAILURE
         (tok_world w (w_err w ++ alloc_error) (w_live w) (w_brk w + S j) s')).
Proof.
  intros toks n r Hmax.
  pose proof (maximal_runs_length (c_str line)) as Hlen. fold toks in Hlen.
  pose proof (c_str_length line) as Hlen'.
  unfold chrish_split_line.
  destruct (os_malloc os (w_brk w)) eqn:Hos0; cycle 1.
  { rewrite (bind_Ret _ _ _ _ _ (malloc_fail w Hos0)). split.
    - intros Hos. specialize (Hos 0%nat ltac:(lia)).
      rewrite Nat.add_0_r in Hos. congruence.
    - intros j Hj Hno Hyes. destruct j as [|j].
      + exists (w_strtok w). munfold. unfold tok_world. wsimpl. do 2 f_equal. lia.
      + specialize (Hyes 0%nat ltac:(lia)). rewrite Nat.add_0_r in Hyes. congruence. }
  rewrite (bind_Ret _ _ _ _ _ (malloc_ok w Hos0)).
  set (a := fresh (w_live w)).
  set (w1 := set_heap ({[a]} ∪ w_live w) (S (w_brk w)) w).
  rewrite (bind_Ret _ _ _ _ _ (strtok_first line w1)).
  destruct (strtok_r_rest line) as (Hruns & Hshort).
  set (next := strtok_r line CHRISH_TOK_DELIM) in *.
  set (w2 := set_strtok next.2 w1).
  destruct (chrish_split_loop_spec (length line) next.1 [] a (w_live w) w2)
    as [Hok Hfail].
  { done. }
  { cbn [w_strtok w2 set_strtok]. rewrite <- Hruns. fold toks. simpl length. lia. }
  { done. } { apply is_fresh. }
  cbn [w_strtok w2 set_strtok w_brk w1 set_heap w_err] in Hok, Hfail.
  rewrite <- Hruns in Hok, Hfail. fold toks in Hok, Hfail.
  simpl length in Hok, Hfail. rewrite Z.add_0_l in Hok, Hfail. fold n in Hok, Hfail.
  change (0 / 64) with 0 in Hok, Hfail. rewrite Z.sub_0_r in Hok, Hfail.
  fold r in Hok, Hfail. simpl app in Hok.
  change (capacity_for 0) with CHRISH_TOK_BUFSIZE in Hok, Hfail.
  change (token_array [] CHRISH_TOK_BUFSIZE)
    with (replicate (Z.to_nat CHRISH_TOK_BUFSIZE) Uninit) in Hok, Hfail.
  destruct (capacity_for_next n ltac:(lia)) as (Hcap & _ & _).
  split.
  - intros Hos. destruct Hok as (a' & s' & Heq & Ha').
    { intros k Hk. replace (S (w_brk w) + k)%nat with (w_brk w + S k)%nat by lia.
      apply Hos. lia. }
    rewrite (bind_Ret _ _ _ _ _ Heq). cbn beta iota.
    exists a', (replicate (Z.to_nat (capacity_for n) - length toks - 1) Uninit), s'.
    assert (Harr : token_array toks (capacity_for n)
                   = (Tok <$> toks)
                       ++ replicate (S (Z.to_nat (capacity_for n) - length toks - 1)) Uninit).
    { unfold token_array. do 2 f_equal. lia. }
    rewrite Harr. fold n.
    erewrite bind_Ret by (apply store_push).
    split; [|split; [done|]].
    + munfold. unfold tok_world, argv. wsimpl. do 2 f_equal. lia.
    + unfold argv. rewrite length_app, length_fmap. simpl.
      rewrite length_replicate. lia.
  - intros j Hj Hno Hyes. destruct j as [|j].
    { rewrite Nat.add_0_r in Hno. congruence. }
    destruct (Hfail j) as (s' & Heq).
    { lia. }
    { by replace (S (w_brk w) + j)%nat with (w_brk w + S j)%nat by lia. }
    { intros k Hk. replace (S (w_brk w) + k)%nat with (w_brk w + S k)%nat by lia.
      apply Hyes. lia. }
    rewrite (bind_Exit _ _ _ _ _ Heq). exists s'.
    unfold tok_world. wsimpl. do 2 f_equal. lia.
Qed.

End Tok.

(** ** Builtins, launch and dispatch *)

Section Cmp.

Lemma nat_of_ascii_NUL (c : ascii) : nat_of_ascii c = 0%nat ↔ c = NUL.
Proof.
  split; [|by intros ->].
  intros H. rewrite <- (ascii_nat_embedding c), H. done.
Qed.

Lemma nat_of_ascii_inj (c d : ascii) : nat_of_ascii c = nat_of_ascii d → c = d.
Proof.
  intros H. by rewrite <- (ascii_nat_embedding c), H, ascii_nat_embedding.
Qed.

(** [strcmp] is 0 exactly on equal strings. *)
Lemma strcmp_eq (a b : cstr) : strcmp a b = 0 ↔ c_str a = c_str b.
Proof.
  revert b. induction a as [|c a IH]; intros [|d b]; simpl.
  - done.
  - destruct (Ascii.eqb_spec d NUL) as [->|Hd]; [done|].
    split; [|done]. intros H. exfalso. apply Hd, nat_of_ascii_NUL. lia.
  - destruct (Ascii.eqb_spec c NUL) as [->|Hc]; [done|].
    split; [|done]. intros H. exfalso. apply Hc, nat_of_ascii_NUL. lia.
  - destruct (Ascii.eqb_spec c NUL) as [->|Hc].
    + destruct (Ascii.eqb_spec d NUL) as [->|Hd]; [done|].
      split; [|done]. intros H. exfalso. apply Hd, nat_of_ascii_NUL. lia.
    + destruct (Ascii.eqb_spec c d) as [<-|Hcd].
      * destruct (Ascii.eqb_spec c NUL); [done|]. rewrite IH.
        split; [by intros ->|by intros [=]].
      * split.
        -- intros H. exfalso. apply Hcd, nat_of_ascii_inj. lia.
        -- destruct (Ascii.eqb d NUL); intros [=]; done.
Qed.

Lemma c_str_lit (s : string) :
  NUL ∉ lit s → c_str (lit s) = lit s.
Proof. apply c_str_id. Qed.

Lemma strcmp_builtin (cmd name : cstr) :
  NUL ∉ name →
  (strcmp cmd name =? 0) = bool_decide (c_str cmd = name).
Proof.
  intros Hn. destruct (Z.eqb_spec (strcmp cmd name) 0) as [H|H].
  - apply strcmp_eq in H. rewrite (c_str_id name) in H by done.
    by rewrite bool_decide_eq_true_2.
  - rewrite bool_decide_eq_false_2; [done|]. intros Heq. apply H, strcmp_eq.
    by rewrite (c_str_id name).
Qed.

End Cmp.

Section Builtins.
Context (os : OS).

Lemma load_argv (toks : list cstr) (junk : list slot) (i : nat) (w : world) :
  (i ≤ length toks)%nat →
  load (argv toks junk) (Z.of_nat i) w = Ret (toks !! i) w.
Proof.
  intros Hi. unfold load, argv.
  destruct (Z.ltb_spec (Z.of_nat i) 0); [lia|]. rewrite Nat2Z.id.
  destruct (decide (i = length toks)) as [->|Hne].
  - rewrite lookup_app_r by (by rewrite length_fmap).
    rewrite length_fmap, Nat.sub_diag. simpl.
    by rewrite lookup_ge_None_2.
  - rewrite lookup_app_l by (rewrite length_fmap; lia).
    rewrite list_lookup_fmap.
    destruct (lookup_lt_is_Some_2 toks i ltac:(lia)) as [t Ht].
    by rewrite Ht.
Qed.

Lemma perror_eq (w : world) :
  perror os (lit "chrish") w
  = Ret tt (set_err (λ o, o ++ perror_text os (w_errno w)) w).
Proof. done. Qed.

(** [chrish_cd] on a vector that holds at least the command name. *)
Lemma chrish_cd_eq (cmd : cstr) (rest : list cstr) (junk : list slot) (w : world) :
  chrish_cd os (argv (cmd :: rest) junk) w
  = Ret 1
      match rest with
      | [] => set_err (λ o, o ++ cd_usage) w
      | dir :: _ =>
          match os_chdir os (w_cwd w) dir with
          | inr d => set_cwd d w
          | inl e => set_err (λ o, o ++ perror_text os e) (set_errno e w)
          end
      end.
Proof.
  unfold chrish_cd.
  rewrite (bind_Ret _ _ _ _ _ (load_argv (cmd :: rest) junk 1 w ltac:(simpl; lia))).
  destruct rest as [|dir rest]; simpl.
  - done.
  - munfold. unfold chdir. destruct (os_chdir os (w_cwd w) dir); done.
Qed.

Lemma read_builtin_str_intact (i : Z) (w : world) (name : cstr) :
  tables_intact w → 0 ≤ i → builtin_str !! Z.to_nat i = Some name →
  read_builtin_str i w = Ret name w.
Proof.
  intros [Hs _] H0 Hi. unfold read_builtin_str.
  destruct (Z.ltb_spec i 0); [lia|].
  by rewrite Hs, Hi.
Qed.

Lemma read_builtin_func_intact (i : Z) (w : world) (f : fnptr) :
  tables_intact w → 0 ≤ i → builtin_func !! Z.to_nat i = Some f →
  read_builtin_func i w = Ret f w.
Proof.
  intros [_ Hf] H0 Hi. unfold read_builtin_func.
  destruct (Z.ltb_spec i 0); [lia|].
  by rewrite Hf, Hi.
Qed.

Lemma tables_intact_set_out (f : cstr → cstr) (w : world) :
  tables_intact w → tables_intact (set_out f w).
Proof. done. Qed.

Lemma set_out_set_out (f g : cstr → cstr) (w : world) :
  set_out f (set_out g w) = set_out (f ∘ g) w.
Proof. done. Qed.

Lemma printf_eq (s : cstr) (w : world) :
  printf s w = Ret tt (set_out (λ o, o ++ s) w).
Proof. done. Qed.

Lemma chrish_help_loop_eq (w : world) :
  tables_intact w →
  chrish_help_loop 3 0 w
  = Ret tt (set_out (λ o, o ++ concat ((λ name, lit "  " ++ name ++ [LF])
                                        <$> builtin_str)) w).
Proof.
  intros Hw.
  assert (Hturn : ∀ fuel i name w,
    tables_intact w → 0 ≤ i < chrish_num_builtins →
    builtin_str !! Z.to_nat i = Some name →
    chrish_help_loop (S fuel) i w
    = chrish_help_loop fuel (i + 1)
        (set_out (λ o, o ++ lit "  " ++ fmt_s name ++ [LF]) w)).
  { intros fuel i name w' Hw' Hi Hname. cbn [chrish_help_loop].
    destruct (Z.ltb_spec i chrish_num_builtins); [|lia].
    rewrite (bind_Ret _ _ _ _ _ (read_builtin_str_intact i w' name Hw' ltac:(lia) Hname)).
    rewrite (bind_Ret _ _ _ _ _ (printf_eq _ _)).
    by rewrite (bind_Ret _ _ _ (i + 1) _ (int_add_ok i 1 _ ltac:(unfold INT_MIN, INT_MAX; change chrish_num_builtins with 3 in Hi; lia))). }
  rewrite (Hturn 2%nat 0 (lit "cd")) by done.
  rewrite (Hturn 1%nat (0 + 1) (lit "help")) by done.
  rewrite (Hturn 0%nat (0 + 1 + 1) (lit "exit")) by done.
  cbn [chrish_help_loop]. change (0 + 1 + 1 + 1 <? chrish_num_builtins) with false.
  cbn iota. unfold mret, M_ret, ret. f_equal. rewrite !set_out_set_out.
  unfold set_out. f_equal. unfold builtin_str. simpl. by rewrite <- !app_assoc.
Qed.

(** [chrish_help] prints the banner, the three names and the footer. *)
Lemma chrish_help_eq (args : list slot) (w : world) :
  tables_intact w →
  chrish_help args w = Ret 1 (set_out (λ o, o ++ help_text) w).
Proof.
  intros Hw. unfold chrish_help.
  change (Z.to_nat chrish_num_builtins) with 3%nat.
  rewrite (bind_Ret _ _ _ _ _ (printf_eq _ _)). cbn beta.
  rewrite (bind_Ret _ _ _ _ _ (chrish_help_loop_eq _ (tables_intact_set_out _ _ Hw))). cbn beta.
  rewrite (bind_Ret _ _ _ _ _ (printf_eq _ _)). cbn beta.
  unfold mret, M_ret, ret. f_equal. rewrite !set_out_set_out.
  unfold set_out. f_equal. unfold help_text. simpl. by rewrite <- !app_assoc.
Qed.

End Builtins.

Section Launch.
Context (os : OS).

Lemma set_waits_set_waits (n m : nat) (w : world) :
  set_waits n (set_waits m w) = set_waits n w.
Proof. done. Qed.

(** The wait ends at the first exit or signal death. *)
Lemma chrish_wait_ends (pid : Z) (stops : list wstatus) (st : wstatus)
    (rest : list wstatus) (w : world) :
  Forall (λ s, terminal s = false) stops → terminal st = true →
  chrish_wait pid (stops ++ st :: rest) w
  = Ret tt (set_waits (w_waits w + length stops + 1) w).
Proof.
  intros Hstops Hst. revert w.
  induction Hstops as [|s stops Hs _ IH]; intros w; simpl.
  - unfold terminal in Hst. apply orb_true_iff in Hst.
    destruct (WIFEXITED st), (WIFSIGNALED st); simpl; try (by destruct Hst);
      do 2 f_equal; lia.
  - unfold terminal in Hs. apply orb_false_iff in Hs as [-> ->]. simpl.
    rewrite IH, set_waits_set_waits. simpl. do 2 f_equal. lia.
Qed.

(** Without such an event it never ends. *)
Lemma chrish_wait_blocks (pid : Z) (stops : list wstatus) (w : world) :
  Forall (λ s, terminal s = false) stops →
  chrish_wait pid stops w = Blocked (set_waits (w_waits w + length stops) w).
Proof.
  intros Hstops. revert w.
  induction Hstops as [|s stops Hs _ IH]; intros w; simpl.
  - rewrite Nat.add_0_r. by destruct w.
  - unfold terminal in Hs. apply orb_false_iff in Hs as [-> ->]. simpl.
    rewrite IH, set_waits_set_waits. simpl. do 2 f_equal. lia.
Qed.

Lemma Exists_terminal_split (b : list wstatus) :
  Exists (λ st, terminal st = true) b →
  ∃ stops st rest, b = stops ++ st :: rest
    ∧ Forall (λ s, terminal s = false) stops ∧ terminal st = true.
Proof.
  induction b as [|s b IH]; intros H; [by inversion H|].
  destruct (terminal s) eqn:Hs.
  - exists [], s, b. by repeat split.
  - inversion H as [? ? Hs'|? ? Hb]; subst; [congruence|].
    destruct (IH Hb) as (stops & st & rest & -> & Hstops & Hst).
    exists (s :: stops), st, rest. repeat split; [|done]. by constructor.
Qed.

Lemma argv_strings_argv (toks : list cstr) (junk : list slot) (w : world) :
  argv_strings (argv toks junk) w = Ret toks w.
Proof.
  unfold argv. induction toks as [|t toks IH]; simpl; [done|].
  by rewrite (bind_Ret _ _ _ _ _ IH).
Qed.

(** The child: [execvp], and on its failure the message and [exit]. *)
Lemma chrish_launch_child_eq (toks : list cstr) (junk : list slot) (w : world) :
  chrish_launch_from os 0 [] (argv toks junk) w
  = match os_execvp os (w_forks w) (toks !! 0%nat) toks with
    | inl e =>
        Exit EXIT_FAILURE
          (set_err (λ o, o ++ perror_text os e) (set_errno e w))
    | inr behaviour => Replaced behaviour w
    end.
Proof.
  unfold chrish_launch_from. change (0 =? 0) with true. cbn iota.
  unfold mbind at 1, M_bind at 1, bind at 1.
  rewrite (bind_Ret _ _ _ _ _ (load_argv toks junk 0 w ltac:(lia))). cbn beta.
  unfold execvp.
  unfold mbind at 1, M_bind at 1, bind at 1.
  rewrite (bind_Ret _ _ _ _ _ (argv_strings_argv toks junk w)). cbn beta.
  unfold sys_execvp.
  destruct (os_execvp os (w_forks w) (toks !! 0%nat) toks) as [e|b]; [|done].
  change (-1 =? -1) with true. cbn iota.
  by rewrite (bind_Ret _ _ _ _ _ (perror_eq os _)).
Qed.

(** [chrish_launch], case by case on what the system decides. *)
Lemma chrish_launch_eq (toks : list cstr) (junk : list slot) (w : world) :
  chrish_launch os (argv toks junk) w
  = match os_fork os (w_forks w) with
    | inl e =>
        Ret 1 (set_err (λ o, o ++ perror_text os e)
                 (set_errno e (after_fork w)))
    | inr pid =>
        match os_execvp os (S (w_forks w)) (toks !! 0%nat) toks with
        | inl e =>
            (chrish_wait (Z.pos pid) [W_EXITED EXIT_FAILURE];; ret 1)
              (set_err (λ o, o ++ perror_text os e) (after_fork w))
        | inr behaviour =>
            (chrish_wait (Z.pos pid) behaviour;; ret 1) (after_fork w)
        end
    end.
Proof.
  unfold chrish_launch.
  unfold mbind at 1, M_bind at 1, bind at 1. unfold fork.
  destruct (os_fork os (w_forks w)) as [e|pid].
  - cbn iota beta. unfold chrish_launch_from at 1.
    change (-1 =? 0) with false. change (-1 <? 0) with true. cbn iota beta.
    by rewrite (bind_Ret _ _ _ _ _ (perror_eq os _)).
  - cbn iota beta. unfold chrish_launch_from at 1.
    change (Z.pos pid =? 0) with false.
    change (Z.pos pid <? 0) with false. cbn iota.
    rewrite chrish_launch_child_eq. fold (after_fork w). 
    change (w_forks (after_fork w)) with (S (w_forks w)).
    destruct (os_execvp os (S (w_forks w)) (toks !! 0%nat) toks) as [e|b]; simpl.
    + done.
    + by destruct w.
Qed.

End Launch.

Section Dispatch.
Context (os : OS).

(** One turn of the scan over the builtin table. *)
Lemma chrish_execute_loop_turn (fuel : nat) (i : Z) (name : cstr) (f : fnptr)
    (cmd : cstr) (args : list slot) (w : world) :
  tables_intact w → 0 ≤ i < chrish_num_builtins →
  builtin_str !! Z.to_nat i = Some name → NUL ∉ name →
  builtin_func !! Z.to_nat i = Some f →
  chrish_execute_loop os (S fuel) i cmd args w
  = if decide (c_str cmd = name) then call os f args w
    else chrish_execute_loop os fuel (i + 1) cmd args w.
Proof.
  intros Hw Hi Hname Hnul Hf. cbn [chrish_execute_loop].
  destruct (Z.ltb_spec i chrish_num_builtins); [|lia].
  rewrite (bind_Ret _ _ _ _ _ (read_builtin_str_intact i w name Hw ltac:(lia) Hname)).
  cbn beta. rewrite strcmp_builtin by done.
  destruct (decide (c_str cmd = name)) as [Heq|Hne].
  - rewrite bool_decide_eq_true_2 by done.
    by rewrite (bind_Ret _ _ _ _ _ (read_builtin_func_intact i w f Hw ltac:(lia) Hf)).
  - rewrite bool_decide_eq_false_2 by done.
    by rewrite (bind_Ret _ _ _ (i + 1) _ (int_add_ok i 1 _ ltac:(unfold INT_MIN, INT_MAX; change chrish_num_builtins with 3 in Hi; lia))).
Qed.

Lemma lit_nul_free_cd : NUL ∉ lit "cd".
Proof. apply (bool_decide_unpack _). by vm_compute. Qed.
Lemma lit_nul_free_help : NUL ∉ lit "help".
Proof. apply (bool_decide_unpack _). by vm_compute. Qed.
Lemma lit_nul_free_exit : NUL ∉ lit "exit".
Proof. apply (bool_decide_unpack _). by vm_compute. Qed.

(** Dispatch: the empty vector, the three builtins by name, or a launch. *)
Lemma chrish_execute_eq (toks : list cstr) (junk : list slot) (w : world) :
  tables_intact w →
  chrish_execute os (argv toks junk) w
  = match toks with
    | [] => Ret 1 w
    | cmd :: _ =>
        if decide (c_str cmd = lit "cd") then chrish_cd os (argv toks junk) w
        else if decide (c_str cmd = lit "help") then chrish_help (argv toks junk) w
        else if decide (c_str cmd = lit "exit") then chrish_exit (argv toks junk) w
        else chrish_launch os (argv toks junk) w
    end.
Proof.
  intros Hw. unfold chrish_execute.
  rewrite (bind_Ret _ _ _ _ _ (load_argv toks junk 0 w ltac:(lia))). cbn beta.
  destruct toks as [|cmd rest]; [done|]. cbn [lookup list_lookup].
  change (Z.to_nat chrish_num_builtins) with 3%nat.
  rewrite (chrish_execute_loop_turn 2 0 (lit "cd") fn_chrish_cd)
    by (done || apply lit_nul_free_cd).
  destruct (decide (c_str cmd = lit "cd")); [done|].
  rewrite (chrish_execute_loop_turn 1 (0 + 1) (lit "help") fn_chrish_help)
    by (done || apply lit_nul_free_help).
  destruct (decide (c_str cmd = lit "help")); [done|].
  rewrite (chrish_execute_loop_turn 0 (0 + 1 + 1) (lit "exit") fn_chrish_exit)
    by (done || apply lit_nul_free_exit).
  destruct (decide (c_str cmd = lit "exit")); [done|].
  cbn [chrish_execute_loop]. by change (0 + 1 + 1 + 1 <? chrish_num_builtins) with false.
Qed.

End Dispatch.

(** ** What a function leaves as it was *)

Create HintDb frame.

(** A part of the world is kept by a function when it is not among the
    fields the function writes.  The lemmas of this section are stated
    for a part [proj] that ignores the fields their function writes. *)
Section Frame.
Context (os : OS) {B : Type} (proj : world → B).

Hypothesis proj_out : ∀ f w, proj (set_out f w) = proj w.
Hypothesis proj_err : ∀ f w, proj (set_err f w) = proj w.
Hypothesis proj_cwd : ∀ d w, proj (set_cwd d w) = proj w.
Hypothesis proj_errno : ∀ e w, proj (set_errno e w) = proj w.
Hypothesis proj_stdin : ∀ l w, proj (set_stdin l w) = proj w.
Hypothesis proj_heap : ∀ live brk w, proj (set_heap live brk w) = proj w.
Hypothesis proj_forks : ∀ n w, proj (set_forks n w) = proj w.
Hypothesis proj_waits : ∀ n w, proj (set_waits n w) = proj w.
Hypothesis proj_strtok : ∀ s w, proj (set_strtok s w) = proj w.

Lemma keeps_bind {A C} (m : M A) (k : A → M C) :
  keeps proj m → (∀ a, keeps proj (k a)) → keeps proj (m ≫= k).
Proof.
  intros Hm Hk w. specialize (Hm w). unfold mbind, M_bind, bind.
  destruct (m w) as [a w'| | | | |]; simpl in *; try done.
  by rewrite Hk.
Qed.

Lemma keeps_ret {A} (a : A) : keeps proj (ret a).
Proof. by intros w. Qed.

(** What [m] keeps is the same in the world it returns in. *)
Lemma keeps_Ret {A} (m : M A) (w : world) (a : A) (w' : world) :
  m w = Ret a w' → keeps proj m → proj w' = proj w.
Proof. intros E H. specialize (H w). by rewrite E in H. Qed.
Lemma keeps_exit {A} (c : Z) : keeps proj (@exit A c).
Proof. by intros w. Qed.
Lemma keeps_undef {A} (u : undefined) : keeps proj (@undef A u).
Proof. by intros w. Qed.
Lemma keeps_out_of_fuel {A} : keeps proj (@out_of_fuel A).
Proof. by intros w. Qed.
Lemma keeps_printf (s : cstr) : keeps proj (printf s).
Proof. intros w. apply proj_out. Qed.
Lemma keeps_eprintf (s : cstr) : keeps proj (eprintf s).
Proof. intros w. apply proj_err. Qed.
Lemma keeps_seterrno (e : errno_t) : keeps proj (seterrno e).
Proof. intros w. apply proj_errno. Qed.
Lemma keeps_int_add (a b : Z) : keeps proj (int_add a b).
Proof. intros w. unfold int_add. by case_match. Qed.
Lemma keeps_store (a : list slot) (i : Z) (v : slot) : keeps proj (store a i v).
Proof. intros w. unfold store. by case_match. Qed.
Lemma keeps_load (a : list slot) (i : Z) : keeps proj (load a i).
Proof. intros w. unfold load. by repeat case_match. Qed.
Lemma keeps_perror (p : cstr) : keeps proj (perror os p).
Proof. intros w. apply proj_err. Qed.
Lemma keeps_malloc : keeps proj (malloc os).
Proof. intros w. unfold malloc. case_match; apply proj_heap. Qed.
Lemma keeps_free (p : ptr) : keeps proj (free p).
Proof.
  intros w. unfold free. repeat case_match; try done. apply proj_heap.
Qed.
Lemma keeps_chdir (p : cstr) : keeps proj (chdir os p).
Proof.
  intros w. unfold chdir. case_match; [apply proj_errno|apply proj_cwd].
Qed.
Lemma keeps_strtok (s : option cstr) (d : cstr) : keeps proj (strtok s d).
Proof. intros w. unfold strtok. case_match. apply proj_strtok. Qed.
Lemma keeps_read_builtin_str (i : Z) : keeps proj (read_builtin_str i).
Proof. intros w. unfold read_builtin_str. by repeat case_match. Qed.
Lemma keeps_read_builtin_func (i : Z) : keeps proj (read_builtin_func i).
Proof. intros w. unfold read_builtin_func. by repeat case_match. Qed.
Lemma keeps_sys_execvp (f : option cstr) (a : list cstr) :
  keeps proj (sys_execvp os f a).
Proof.
  intros w. unfold sys_execvp. case_match; [apply proj_errno|done].
Qed.
Lemma keeps_read_stdin (p : ptr) : keeps proj (read_stdin p).
Proof. intros w. unfold read_stdin. case_match; [done|apply proj_stdin]. Qed.

(** The child writes to the two streams only, as far as the parent's
    world is concerned. *)
Lemma keeps_fork (child : M Z) : keeps proj (fork os child).
Proof.
  intros w. unfold fork. case_match; simpl.
  - by rewrite proj_errno, proj_forks.
  - by rewrite proj_out, proj_err, proj_forks.
Qed.

Lemma keeps_chrish_wait (pid : Z) (pending : list wstatus) :
  keeps proj (chrish_wait pid pending).
Proof.
  induction pending as [|st pending IH]; intros w; simpl; [done|].
  case_match; simpl; [|apply proj_waits].
  by rewrite IH, proj_waits.
Qed.

#[local] Hint Resolve keeps_ret keeps_exit keeps_undef keeps_out_of_fuel keeps_printf
  keeps_eprintf keeps_seterrno keeps_int_add keeps_store keeps_load
  keeps_perror keeps_malloc keeps_free keeps_chdir keeps_strtok
  keeps_read_builtin_str keeps_read_builtin_func keeps_sys_execvp
  keeps_read_stdin keeps_fork keeps_chrish_wait : frame.

(** Walk through a computation built from [≫=], [match] and [if]. *)
Ltac frame :=
  repeat first
    [ solve [eauto with frame]
    | apply keeps_bind; [|intros ?]
    | match goal with
      | |- keeps _ (match ?x with _ => _ end) => destruct x
      | |- keeps _ (if ?b then _ else _) => destruct b
      end ].

Lemma keeps_realloc (p : ptr) : keeps proj (realloc os p).
Proof. unfold realloc. frame. Qed.

Lemma keeps_argv_strings (a : list slot) : keeps proj (argv_strings a).
Proof. induction a as [|[] a IH]; cbn [argv_strings]; frame. Qed.

#[local] Hint Resolve keeps_realloc keeps_argv_strings : frame.

Lemma keeps_chrish_cd (args : list slot) : keeps proj (chrish_cd os args).
Proof. unfold chrish_cd. frame. Qed.

Lemma keeps_chrish_help_loop (fuel : nat) (i : Z) :
  keeps proj (chrish_help_loop fuel i).
Proof. revert i. induction fuel; intros i; cbn [chrish_help_loop]; frame. Qed.

#[local] Hint Resolve keeps_chrish_cd keeps_chrish_help_loop : frame.

Lemma keeps_chrish_help (args : list slot) : keeps proj (chrish_help args).
Proof. unfold chrish_help. frame. Qed.

Lemma keeps_chrish_exit (args : list slot) : keeps proj (chrish_exit args).
Proof. unfold chrish_exit. frame. Qed.

#[local] Hint Resolve keeps_chrish_help keeps_chrish_exit : frame.

Lemma keeps_call (f : fnptr) (args : list slot) : keeps proj (call os f args).
Proof. unfold call. frame. Qed.

Lemma keeps_chrish_launch_from (pid : Z) (child : list wstatus)
    (args : list slot) :
  keeps proj (chrish_launch_from os pid child args).
Proof. unfold chrish_launch_from, execvp. frame. Qed.

#[local] Hint Resolve keeps_call keeps_chrish_launch_from : frame.

Lemma keeps_chrish_launch (args : list slot) :
  keeps proj (chrish_launch os args).
Proof. unfold chrish_launch. frame. Qed.

#[local] Hint Resolve keeps_chrish_launch : frame.

Lemma keeps_chrish_execute_loop (fuel : nat) (i : Z) (cmd : cstr)
    (args : list slot) :
  keeps proj (chrish_execute_loop os fuel i cmd args).
Proof.
  revert i. induction fuel; intros i; cbn [chrish_execute_loop]; frame.
Qed.

#[local] Hint Resolve keeps_chrish_execute_loop : frame.

Lemma keeps_chrish_execute (args : list slot) :
  keeps proj (chrish_execute os args).
Proof. unfold chrish_execute. frame. Qed.

Lemma keeps_chrish_read_line : keeps proj (chrish_read_line os).
Proof. unfold chrish_read_line. frame. Qed.

Lemma keeps_chrish_grow (bufsize position : Z) (tokens : ptr) (arr : list slot) :
  keeps proj (chrish_grow os bufsize position tokens arr).
Proof. unfold chrish_grow. frame. Qed.

#[local] Hint Resolve keeps_chrish_execute keeps_chrish_read_line keeps_chrish_grow : frame.

Lemma keeps_chrish_split_loop (fuel : nat) :
  ∀ token bufsize position n_tokens tokens arr,
  keeps proj
    (chrish_split_loop os fuel token bufsize position n_tokens tokens arr).
Proof. induction fuel; intros [t|] ?????; cbn [chrish_split_loop]; frame. Qed.

#[local] Hint Resolve keeps_chrish_split_loop : frame.

Lemma keeps_chrish_split_line (line : cstr) :
  keeps proj (chrish_split_line os line).
Proof. unfold chrish_split_line. frame. Qed.

#[local] Hint Resolve keeps_chrish_split_line : frame.

Lemma keeps_chrish_loop_body (args : ptr) :
  keeps proj (chrish_loop_body os args).
Proof. unfold chrish_loop_body. frame. Qed.

#[local] Hint Resolve keeps_chrish_loop_body : frame.

Lemma keeps_chrish_loop (fuel : nat) (args : ptr) :
  keeps proj (chrish_loop os fuel args).
Proof.
  revert args. induction fuel; intros args; cbn [chrish_loop]; frame.
Qed.

Lemma keeps_main : keeps proj (main os).
Proof.
  intros w. unfold main.
  apply (keeps_bind (chrish_loop os (S (length (w_stdin w))) PIndet)
           (λ _, ret EXIT_SUCCESS)).
  - apply keeps_chrish_loop.
  - intros _. apply keeps_ret.
Qed.

End Frame.

(** ** The loop *)

Section Loop.
Context (os : OS).

Lemma to_int_id (z : Z) : INT_MIN ≤ z ≤ INT_MAX → to_int z = z.
Proof.
  unfold to_int, INT_MIN, INT_MAX. intros H.
  rewrite Z.mod_small by lia. lia.
Qed.

(** [getline] always returns.  Its buffer, if any, is a block that was
    not live before, and no other block is touched; at the end of the
    input it returns -1; when it returns something else it has taken the
    first of the pending lines. *)
Lemma chrish_read_line_cases (w : world) :
  ∃ r line text w',
    chrish_read_line os w = Ret (r, line, text) w'
    ∧ (w_out w' = w_out w ∧ w_forks w' = w_forks w ∧ w_cwd w' = w_cwd w)
    ∧ ((line = PNull ∧ w_live w' = w_live w)
       ∨ (∃ b, line = PAddr b ∧ (b ∉ w_live w)
               ∧ w_live w' = {[b]} ∪ w_live w))
    ∧ (w_stdin w = [] → r = -1)
    ∧ (r ≠ -1 → w_stdin w = text :: w_stdin w').
Proof.
  unfold chrish_read_line.
  destruct (os_malloc os (w_brk w)) eqn:Hos.
  - rewrite (bind_Ret _ _ _ _ _ (malloc_ok os w Hos)). cbn beta iota.
    unfold read_stdin. simpl.
    destruct (w_stdin w) as [|l rest]; eexists _, _, _, _;
      (split; [done|]); (split; [done|]);
      (split; [right; eexists; split; [done|]; split; [apply is_fresh|done]|]);
      done.
  - rewrite (bind_Ret _ _ _ _ _ (malloc_fail os w Hos)). cbn beta iota.
    eexists _, _, _, _. split; [done|]. split; [done|].
    split; [by left|]. done.
Qed.

(** Releasing the line buffer brings the heap back to where it was
    before the read. *)
Lemma free_line (line : ptr) (w0 w : world) :
  (line = PNull ∧ w_live w = w_live w0)
  ∨ (∃ b, line = PAddr b ∧ (b ∉ w_live w0) ∧ w_live w = {[b]} ∪ w_live w0) →
  ∃ w', free line w = Ret tt w'
        ∧ (w_out w' = w_out w ∧ w_forks w' = w_forks w ∧ w_cwd w' = w_cwd w)
        ∧ w_live w' = w_live w0.
Proof.
  intros [[-> Hlive]|(b & -> & Hb & Hlive)].
  - by exists w.
  - rewrite free_live
      by (rewrite Hlive; apply elem_of_union_l; by apply elem_of_singleton).
    eexists. split; [done|]. split; [done|]. simpl. rewrite Hlive.
    by apply live_release.
Qed.

(** The pass that meets the end of the input: the prompt and the -1 are
    printed, the line buffer is released, and [free(args)] is applied to
    a stale pointer. *)
Lemma chrish_loop_body_eof (args : ptr) (w : world) :
  w_stdin w = [] → stale args w →
  ∃ w',
    chrish_loop_body os args w
    = Undef match args with
            | PIndet => UB_free_indeterminate
            | _ => UB_free_dead
            end w'
    ∧ w_out w' = w_out w ++ lit "> " ++ fmt_d (-1) ++ [LF]
    ∧ w_forks w' = w_forks w ∧ w_cwd w' = w_cwd w ∧ w_live w' = w_live w.
Proof.
  intros Hin Hargs. unfold chrish_loop_body.
  rewrite (bind_Ret _ _ _ _ _ (printf_eq _ _)). cbn beta.
  destruct (chrish_read_line_cases (set_out (λ o, o ++ lit "> ") w))
    as (r & line & text & w1 & Hread & (Hout & Hforks & Hcwd) & Hline & Heof & _).
  rewrite (Heof Hin) in *. clear Heof.
  rewrite (bind_Ret _ _ _ _ _ Hread). cbn beta iota.
  rewrite (bind_Ret _ _ _ _ _ (printf_eq _ _)). cbn beta.
  change (-1 =? -1) with true. cbn iota.
  destruct (free_line line _ (set_out (λ o, o ++ fmt_d (-1) ++ [LF]) w1) Hline)
    as (w3 & Hfree & (Hout3 & Hforks3 & Hcwd3) & Hlive3).
  rewrite (bind_Ret _ _ _ _ _ Hfree). cbn beta.
  exists w3. split.
  - destruct Hargs as [->|(a & -> & Ha)]; [done|].
    unfold mbind, M_bind, bind, free.
    by rewrite bool_decide_eq_false_2 by (by rewrite Hlive3).
  - simpl in *. rewrite Hout3, Hout, Hforks3, Hforks, Hcwd3, Hcwd, Hlive3.
    simpl. by rewrite <- app_assoc.
Qed.

Lemma bind_final_out {A B} (m : M A) (k : A → M B) (w : world) :
  (∀ a w', w_out (final (k a w')) = w_out w') →
  w_out (final ((m ≫= k) w)) = w_out (final (m w)).
Proof.
  intros Hk. unfold mbind, M_bind, bind. destruct (m w); simpl; auto.
Qed.

Lemma free_final_out (p : ptr) (w : world) : w_out (final (free p w)) = w_out w.
Proof. unfold free. repeat case_match; done. Qed.

(** Whatever [args] is, the pass that meets the end of the input writes
    the prompt and the -1. *)
Lemma chrish_loop_body_eof_out (args : ptr) (w : world) :
  w_stdin w = [] →
  w_out (final (chrish_loop_body os args w))
  = w_out w ++ lit "> " ++ fmt_d (-1) ++ [LF].
Proof.
  intros Hin. unfold chrish_loop_body.
  rewrite (bind_Ret _ _ _ _ _ (printf_eq _ _)). cbn beta.
  destruct (chrish_read_line_cases (set_out (λ o, o ++ lit "> ") w))
    as (r & line & text & w1 & Hread & (Hout & _) & _ & Heof & _).
  rewrite (Heof Hin) in *. clear Heof.
  rewrite (bind_Ret _ _ _ _ _ Hread). cbn beta iota.
  rewrite (bind_Ret _ _ _ _ _ (printf_eq _ _)). cbn beta.
  change (-1 =? -1) with true. cbn iota.
  rewrite bind_final_out.
  - rewrite free_final_out. simpl. rewrite Hout. simpl. by rewrite <- app_assoc.
  - intros _ w2. rewrite bind_final_out; [apply free_final_out|]. done.
Qed.

(** A pass that reads a line: before the dispatch, standard output has
    received the prompt, the length of the line and the number of tokens;
    after it, nothing more. *)
Lemma chrish_loop_body_turn (args : ptr) (w : world) (l : cstr)
    (rest : list cstr) :
  let toks := maximal_runs (c_str l) in
  w_stdin w = l :: rest →
  Z.of_nat (length l) + 64 ≤ INT_MAX →
  (∀ k, os_malloc os k = true) →
  ∃ junk w2,
    w_out w2 = w_out w ++ lit "> " ++ fmt_d (Z.of_nat (length l)) ++ [LF]
                 ++ fmt_d (Z.of_nat (length toks)) ++ [LF]
    ∧ w_err w2 = w_err w ∧ w_cwd w2 = w_cwd w
    ∧ w_out (final (chrish_loop_body os args w))
      = w_out (final (chrish_execute os (argv toks junk) w2)).
Proof.
  intros toks Hin Hmax Hos. unfold chrish_loop_body.
  rewrite (bind_Ret _ _ _ _ _ (printf_eq _ _)). cbn beta.
  set (w0 := set_out (λ o, o ++ lit "> ") w).
  assert (Hread : chrish_read_line os w0
                  = Ret (Z.of_nat (length l), PAddr (fresh (w_live w0)), l)
                        (set_stdin rest
                           (set_heap ({[fresh (w_live w0)]} ∪ w_live w0)
                              (S (w_brk w0)) w0))).
  { unfold chrish_read_line.
    rewrite (bind_Ret _ _ _ _ _ (malloc_ok os w0 (Hos _))). cbn beta iota.
    unfold read_stdin. simpl. rewrite Hin.
    rewrite to_int_id by (unfold INT_MIN; lia). done. }
  rewrite (bind_Ret _ _ _ _ _ Hread). cbn beta iota.
  rewrite (bind_Ret _ _ _ _ _ (printf_eq _ _)). cbn beta.
  destruct (Z.eqb_spec (Z.of_nat (length l)) (-1)) as [|_]; [lia|].
  match goal with |- context [(_ ≫= _) ?w] => set (w1 := w) end.
  destruct (chrish_split_line_spec os l w1 Hmax) as [Hok _].
  destruct Hok as (a & junk & s' & Hsplit & _); [by intros; apply Hos|].
  fold toks in Hsplit.
  rewrite (bind_Ret _ _ _ _ _ Hsplit). cbn beta iota.
  eexists junk, _. split; [|split; [|split]]; cycle 3.
  - rewrite bind_final_out; [done|]. intros status w3.
    rewrite bind_final_out; [apply free_final_out|]. intros _ w4.
    rewrite bind_final_out; [apply free_final_out|]. done.
  - simpl. by rewrite <- !app_assoc.
  - done.
  - done.
Qed.

(** A pass that reads a line releases what it has acquired.  When the
    dispatch returns, the pass returns the same status, the line buffer
    and the vector are both freed, each once and while live, and the
    heap is as it was when the pass began; [args] is left holding the
    address of the freed vector. *)
Lemma chrish_loop_body_releases (args : ptr) (w : world) (l : cstr)
    (rest : list cstr) :
  let toks := maximal_runs (c_str l) in
  w_stdin w = l :: rest →
  Z.of_nat (length l) + 64 ≤ INT_MAX →
  (∀ k, os_malloc os k = true) →
  ∃ a b junk w2,
    a ≠ b ∧ (a ∉ w_live w) ∧ (b ∉ w_live w)
    ∧ w_live w2 = {[a]} ∪ ({[b]} ∪ w_live w)
    ∧ ∀ status w3,
        chrish_execute os (argv toks junk) w2 = Ret status w3 →
        chrish_loop_body os args w
        = Ret (status, PAddr a) (set_heap (w_live w) (w_brk w3) w3).
Proof.
  intros toks Hin Hmax Hos. unfold chrish_loop_body.
  rewrite (bind_Ret _ _ _ _ _ (printf_eq _ _)). cbn beta.
  set (w0 := set_out (λ o, o ++ lit "> ") w).
  set (b := fresh (w_live w0)).
  assert (Hb : b ∉ w_live w) by apply is_fresh.
  assert (Hread : chrish_read_line os w0
                  = Ret (Z.of_nat (length l), PAddr b, l)
                        (set_stdin rest
                           (set_heap ({[b]} ∪ w_live w0) (S (w_brk w0)) w0))).
  { unfold chrish_read_line.
    rewrite (bind_Ret _ _ _ _ _ (malloc_ok os w0 (Hos _))). cbn beta iota.
    unfold read_stdin. simpl. rewrite Hin.
    rewrite to_int_id by (unfold INT_MIN; lia). done. }
  rewrite (bind_Ret _ _ _ _ _ Hread). cbn beta iota.
  rewrite (bind_Ret _ _ _ _ _ (printf_eq _ _)). cbn beta.
  destruct (Z.eqb_spec (Z.of_nat (length l)) (-1)) as [|_]; [lia|].
  match goal with |- context [(_ ≫= _) ?w] => set (w1 := w) end.
  destruct (chrish_split_line_spec os l w1 Hmax) as [Hok _].
  destruct Hok as (a & junk & s' & Hsplit & Ha & _); [by intros; apply Hos|].
  fold toks in Hsplit.
  rewrite (bind_Ret _ _ _ _ _ Hsplit). cbn beta iota.
  change (w_live w1) with ({[b]} ∪ w_live w) in Ha.
  assert (Hab : a ≠ b).
  { intros ->. apply Ha, elem_of_union_l. by apply elem_of_singleton. }
  assert (Ha' : a ∉ w_live w).
  { intros Hin'. by apply Ha, elem_of_union_r. }
  match type of Hsplit with _ = Ret _ ?w' => exists a, b, junk, w' end.
  split; [done|]. split; [done|]. split; [done|]. split; [done|].
  intros status w3 Hexec.
  rewrite (bind_Ret _ _ _ _ _ Hexec). cbn beta.
  assert (Hlive : w_live w3 = {[a]} ∪ ({[b]} ∪ w_live w)).
  { apply (keeps_Ret w_live) in Hexec; [done|].
    by apply keeps_chrish_execute. }
  assert (Hb3 : b ∈ w_live w3).
  { rewrite Hlive. apply elem_of_union_r, elem_of_union_l.
    by apply elem_of_singleton. }
  rewrite (bind_Ret _ _ _ tt _ (free_live b w3 Hb3)). cbn beta.
  match goal with |- context [(_ ≫= _) ?w] => set (w4 := w) end.
  assert (Ha4 : a ∈ w_live w4).
  { simpl. rewrite Hlive. apply elem_of_difference. split.
    - apply elem_of_union_l. by apply elem_of_singleton.
    - by intros ?%elem_of_singleton. }
  rewrite (bind_Ret _ _ _ tt _ (free_live a w4 Ha4)).
  cbn beta. unfold ret. f_equal. unfold set_heap. simpl. f_equal.
  rewrite Hlive. apply set_eq. intros x.
  rewrite !elem_of_difference, !elem_of_union, !elem_of_singleton.
  split; [by intros [[[->|[->|?]] ?] ?]|].
  intros Hx. split; [split; [auto|]|]; by intros ->.
Qed.

End Loop.

(** ** How a function can stop *)

Create HintDb never.

(** The lemmas of this section are stated for a set [bad] of stops that
    holds none of the stops their function can make. *)
Section Never.
Context (os : OS) (bad : stop → Prop).

Hypothesis ok_undef : ∀ u, ¬ bad (StopUndef u).
Hypothesis ok_failure : ¬ bad (StopExit EXIT_FAILURE).
Hypothesis ok_blocked : ¬ bad StopBlocked.
Hypothesis ok_replaced : ∀ b, ¬ bad (StopReplaced b).
Hypothesis ok_fuel : ¬ bad StopFuel.

Lemma never_bind {A C} (m : M A) (k : A → M C) :
  never bad m → (∀ a, never bad (k a)) → never bad (m ≫= k).
Proof.
  intros Hm Hk w s. specialize (Hm w s). unfold mbind, M_bind, bind.
  destruct (m w) as [a w1| | | | |]; simpl in *; try done.
  apply Hk.
Qed.

(** The same, for a continuation that is safe on what [m] returns. *)
Lemma never_bind_returns {A C} (Q : A → Prop) (m : M A) (k : A → M C) :
  never bad m → returns Q m → (∀ a, Q a → never bad (k a)) →
  never bad (m ≫= k).
Proof.
  intros Hm HQ Hk w s. specialize (Hm w s). unfold mbind, M_bind, bind.
  destruct (m w) as [a w1| | | | |] eqn:E; simpl in *; try done.
  by apply Hk, (HQ w a w1).
Qed.

Ltac prim :=
  let w := fresh "w" in let s := fresh "s" in
  intros w s; simpl; repeat case_match; simpl; try done;
  intros [= <-]; auto.

Lemma never_ret {A} (a : A) : never bad (ret a).
Proof. prim. Qed.
Lemma never_exit_failure {A} : never bad (@exit A EXIT_FAILURE).
Proof. prim. Qed.
Lemma never_undef {A} (u : undefined) : never bad (@undef A u).
Proof. prim. Qed.
Lemma never_out_of_fuel {A} : never bad (@out_of_fuel A).
Proof. prim. Qed.
Lemma never_printf (s : cstr) : never bad (printf s).
Proof. prim. Qed.
Lemma never_eprintf (s : cstr) : never bad (eprintf s).
Proof. prim. Qed.
Lemma never_seterrno (e : errno_t) : never bad (seterrno e).
Proof. prim. Qed.
Lemma never_int_add (a b : Z) : never bad (int_add a b).
Proof. unfold int_add. prim. Qed.
Lemma never_store (a : list slot) (i : Z) (v : slot) : never bad (store a i v).
Proof. unfold store. prim. Qed.
Lemma never_load (a : list slot) (i : Z) : never bad (load a i).
Proof. unfold load. prim. Qed.
Lemma never_perror (p : cstr) : never bad (perror os p).
Proof. prim. Qed.
Lemma never_malloc : never bad (malloc os).
Proof. unfold malloc. prim. Qed.
Lemma never_free (p : ptr) : never bad (free p).
Proof. unfold free. prim. Qed.
Lemma never_chdir (p : cstr) : never bad (chdir os p).
Proof. unfold chdir. prim. Qed.
Lemma never_strtok (s : option cstr) (d : cstr) : never bad (strtok s d).
Proof. unfold strtok. prim. Qed.
Lemma never_read_builtin_str (i : Z) : never bad (read_builtin_str i).
Proof. unfold read_builtin_str. prim. Qed.
Lemma never_read_builtin_func (i : Z) : never bad (read_builtin_func i).
Proof. unfold read_builtin_func. prim. Qed.
Lemma never_sys_execvp (f : option cstr) (a : list cstr) :
  never bad (sys_execvp os f a).
Proof. unfold sys_execvp. prim. Qed.
Lemma never_read_stdin (p : ptr) : never bad (read_stdin p).
Proof. unfold read_stdin. prim. Qed.
(** Whatever the child does, [fork] returns in the parent. *)
Lemma never_fork (child : M Z) : never bad (fork os child).
Proof. unfold fork. prim. Qed.

Lemma never_chrish_wait (pid : Z) (pending : list wstatus) :
  never bad (chrish_wait pid pending).
Proof.
  induction pending as [|st pending IH]; intros w s; simpl.
  - intros [= <-]. apply ok_blocked.
  - case_match; [apply IH|done].
Qed.

#[local] Hint Resolve never_ret never_exit_failure never_undef never_out_of_fuel
  never_printf never_eprintf never_seterrno never_int_add never_store
  never_load never_perror never_malloc never_free never_chdir never_strtok
  never_read_builtin_str never_read_builtin_func never_sys_execvp
  never_read_stdin never_fork never_chrish_wait : never.

Ltac nev :=
  repeat first
    [ solve [eauto with never]
    | apply never_bind; [|intros ?]
    | match goal with
      | |- never _ (match ?x with _ => _ end) => destruct x
      | |- never _ (if ?b then _ else _) => destruct b
      end ].

Lemma never_realloc (p : ptr) : never bad (realloc os p).
Proof. unfold realloc. nev. Qed.

Lemma never_argv_strings (a : list slot) : never bad (argv_strings a).
Proof. induction a as [|[] a IH]; cbn [argv_strings]; nev. Qed.

#[local] Hint Resolve never_realloc never_argv_strings : never.

Lemma never_chrish_cd (args : list slot) : never bad (chrish_cd os args).
Proof. unfold chrish_cd. nev. Qed.

Lemma never_chrish_exit (args : list slot) : never bad (chrish_exit args).
Proof. unfold chrish_exit. nev. Qed.

(** In the parent, that is with a [pid] other than 0. *)
Lemma never_chrish_launch_from (pid : Z) (child : list wstatus)
    (args : list slot) :
  pid ≠ 0 → never bad (chrish_launch_from os pid child args).
Proof.
  intros Hpid. unfold chrish_launch_from.
  destruct (Z.eqb_spec pid 0); [done|]. nev.
Qed.

Lemma never_chrish_launch (args : list slot) :
  never bad (chrish_launch os args).
Proof.
  unfold chrish_launch. intros w s.
  unfold mbind at 1, M_bind at 1, bind at 1. unfold fork.
  destruct (os_fork os (w_forks w)); by apply never_chrish_launch_from.
Qed.

Lemma never_chrish_grow (bufsize position : Z) (tokens : ptr) (arr : list slot) :
  never bad (chrish_grow os bufsize position tokens arr).
Proof. unfold chrish_grow. nev. Qed.

Lemma never_chrish_read_line : never bad (chrish_read_line os).
Proof. unfold chrish_read_line. nev. Qed.

#[local] Hint Resolve never_chrish_cd never_chrish_exit never_chrish_launch
  never_chrish_grow never_chrish_read_line : never.

(** The loops, for a [bad] that does not hold the stop for want of fuel. *)
Lemma never_chrish_help_loop (fuel : nat) (i : Z) :
  never bad (chrish_help_loop fuel i).
Proof. revert i. induction fuel; intros i; cbn [chrish_help_loop]; nev. Qed.

#[local] Hint Resolve never_chrish_help_loop : never.

Lemma never_chrish_help (args : list slot) : never bad (chrish_help args).
Proof. unfold chrish_help. nev. Qed.

#[local] Hint Resolve never_chrish_help : never.

Lemma never_call (f : fnptr) (args : list slot) : never bad (call os f args).
Proof. unfold call. nev. Qed.

#[local] Hint Resolve never_call : never.

Lemma never_chrish_execute_loop (fuel : nat) (i : Z) (cmd : cstr)
    (args : list slot) :
  never bad (chrish_execute_loop os fuel i cmd args).
Proof.
  revert i. induction fuel; intros i; cbn [chrish_execute_loop]; nev.
Qed.

#[local] Hint Resolve never_chrish_execute_loop : never.

Lemma never_chrish_execute (args : list slot) :
  never bad (chrish_execute os args).
Proof. unfold chrish_execute. nev. Qed.

Lemma never_chrish_split_loop (fuel : nat) :
  ∀ token bufsize position n_tokens tokens arr,
  never bad
    (chrish_split_loop os fuel token bufsize position n_tokens tokens arr).
Proof.
  induction fuel; intros [t|] ?????; cbn [chrish_split_loop]; nev.
Qed.

#[local] Hint Resolve never_chrish_execute never_chrish_split_loop : never.

Lemma never_chrish_split_line (line : cstr) :
  never bad (chrish_split_line os line).
Proof. unfold chrish_split_line. nev. Qed.

End Never.

#[local] Hint Resolve never_ret never_exit_failure never_undef never_out_of_fuel
  never_printf never_eprintf never_seterrno never_int_add never_store
  never_load never_perror never_malloc never_free never_chdir never_strtok
  never_read_builtin_str never_read_builtin_func never_sys_execvp
  never_read_stdin never_fork never_chrish_wait never_realloc
  never_argv_strings never_chrish_cd never_chrish_exit never_chrish_launch
  never_chrish_grow never_chrish_read_line never_chrish_help
  never_call never_chrish_execute never_chrish_split_line : never.

#[local] Hint Extern 0 (¬ exits_success _) => (intros ?; discriminate) : never.
#[local] Hint Extern 0 (¬ out_of_turns _) => (intros ?; discriminate) : never.

Ltac nev :=
  repeat first
    [ solve [eauto with never]
    | apply never_bind; [|intros ?]
    | match goal with
      | |- never _ (match ?x with _ => _ end) => destruct x
      | |- never _ (if ?b then _ else _) => destruct b
      end ].

(** ** What the tokenizer returns is an allocated array *)

Section Returns.
Context (os : OS).

Lemma returns_bind {A B} (Q : A → Prop) (P : B → Prop) (m : M A) (k : A → M B) :
  returns Q m → (∀ a, Q a → returns P (k a)) → returns P (m ≫= k).
Proof.
  intros Hm Hk w b w'. unfold mbind, M_bind, bind.
  destruct (m w) as [a w1| | | | |] eqn:E; try done.
  intros H. by apply (Hk a (Hm _ _ _ E) w1 b w').
Qed.

Lemma returns_ret {A} (P : A → Prop) (a : A) : P a → returns P (ret a).
Proof. intros H w b w' [= <- _]. done. Qed.

Lemma returns_never {A} (P : A → Prop) (m : M A) :
  (∀ w a w', m w ≠ Ret a w') → returns P m.
Proof. intros H w a w' E. by destruct (H w a w'). Qed.

Lemma returns_int_add (a b : Z) : returns (λ r, r = a + b) (int_add a b).
Proof.
  intros w r w'. unfold int_add. case_match; [|done]. by intros [= <- _].
Qed.

Lemma returns_chrish_grow (bufsize position : Z) (tokens : ptr) (arr : list slot) :
  is_addr tokens →
  returns (λ r, is_addr r.1.2) (chrish_grow os bufsize position tokens arr).
Proof.
  intros Ht. unfold chrish_grow.
  destruct (position >=? bufsize); [|by apply returns_ret].
  apply (returns_bind (λ _, True)); [done|intros bufsize' _].
  apply (returns_bind (λ _, True)); [done|intros [| |a] _].
  - apply returns_never. intros w a w'. unfold mbind, M_bind, bind.
    by destruct (free tokens w).
  - apply returns_never. intros w a w'. unfold mbind, M_bind, bind.
    by destruct (free tokens w).
  - apply returns_ret. by exists a.
Qed.

Lemma returns_chrish_split_loop (fuel : nat) :
  ∀ token bufsize position n_tokens tokens arr,
  is_addr tokens →
  returns (λ r, is_addr r.1.1.2)
    (chrish_split_loop os fuel token bufsize position n_tokens tokens arr).
Proof.
  induction fuel as [|fuel IH]; intros [t|] bufsize position n tokens arr Ht;
    cbn [chrish_split_loop]; try (by apply returns_ret);
    [by apply returns_never|].
  apply (returns_bind (λ _, True)); [done|intros n' _].
  apply (returns_bind (λ _, True)); [done|intros arr' _].
  apply (returns_bind (λ _, True)); [done|intros position' _].
  apply (returns_bind (λ r, is_addr r.1.2)).
  - by apply returns_chrish_grow.
  - intros [[bufsize' tokens'] arr'']. simpl. intros Ht'.
    apply (returns_bind (λ _, True)); [done|intros token' _].
    by apply IH.
Qed.

Lemma returns_chrish_split_line (line : cstr) :
  returns (λ r, is_addr r.1) (chrish_split_line os line).
Proof.
  unfold chrish_split_line.
  apply (returns_bind (λ _, True)); [done|intros [| |a] _].
  - apply returns_never. by intros w a w'.
  - apply returns_never. by intros w a w'.
  - apply (returns_bind (λ _, True)); [done|intros token _].
    apply (returns_bind (λ r, is_addr r.1.1.2)).
    { apply returns_chrish_split_loop. by exists a. }
    intros [[[position tokens] arr] n]. simpl. intros Ht.
    apply (returns_bind (λ _, True)); [done|intros arr' _].
    apply (returns_bind (λ _, True)); [done|intros _ _].
    by apply returns_ret.
Qed.

End Returns.

(** ** The end of the input never leads to [exit(EXIT_SUCCESS)] *)

Section Exits.
Context (os : OS).

Lemma free_returned (p : ptr) (w w' : world) :
  free p w = Ret tt w' → ∀ a, p = PAddr a → a ∉ w_live w'.
Proof.
  intros H a ->. unfold free in H. case_bool_decide; [|done].
  injection H as <-. simpl. apply not_elem_of_difference. right.
  by apply elem_of_singleton.
Qed.

(** A pass through the body: when [args] is stale on entry, the pass does
    not end in [exit(EXIT_SUCCESS)], and when it returns, the [args] it
    hands to the next pass is stale again. *)
Lemma chrish_loop_body_stale (args : ptr) (w : world) :
  stale args w →
  match chrish_loop_body os args w with
  | Ret r w' => stale r.2 w'
  | o => ∀ s, stop_of o = Some s → ¬ exits_success s
  end.
Proof.
  intros Hargs. unfold chrish_loop_body.
  rewrite (bind_Ret _ _ _ _ _ (printf_eq _ _)). cbn beta.
  set (w0 := set_out (λ o, o ++ lit "> ") w).
  destruct (chrish_read_line_cases os w0)
    as (r & line & text & w1 & Hread & _ & Hline & _).
  rewrite (bind_Ret _ _ _ _ _ Hread). cbn beta iota.
  rewrite (bind_Ret _ _ _ _ _ (printf_eq _ _)). cbn beta.
  set (w2 := set_out (λ o, o ++ fmt_d r ++ [LF]) w1).
  destruct (r =? -1).
  - (* the branch for the end of the input *)
    destruct (free_line line w0 w2 Hline) as (w3 & Hfree & _ & Hlive3).
    rewrite (bind_Ret _ _ _ _ _ Hfree). cbn beta.
    unfold mbind, M_bind, bind, free.
    destruct Hargs as [->|(a & -> & Ha)]; [by intros s [= <-]|].
    rewrite bool_decide_eq_false_2 by (by rewrite Hlive3).
    by intros s [= <-].
  - (* a line was read *)
    assert (Hsplit : never exits_success (chrish_split_line os text))
      by (apply never_chrish_split_line; by intros ?).
    assert (Hexec : ∀ arr, never exits_success (chrish_execute os arr))
      by (intros arr; apply never_chrish_execute; by intros ?).
    assert (Hfree : ∀ p, never exits_success (free p))
      by (intros p; apply never_free; by intros ?).
    unfold mbind at 1, M_bind at 1, bind at 1.
    specialize (Hsplit w2).
    pose proof (returns_chrish_split_line os text w2) as Haddr.
    destruct (chrish_split_line os text w2) as [[args' arr] w3| | | | |];
      try (intros s Hs; by apply (Hsplit s)).
    destruct (Haddr _ _ eq_refl) as [a' Ha']. simpl in Ha'. subst args'.
    unfold mbind at 1, M_bind at 1, bind at 1.
    specialize (Hexec arr w3).
    destruct (chrish_execute os arr w3) as [status w4| | | | |];
      try (intros s Hs; by apply (Hexec s)).
    unfold mbind at 1, M_bind at 1, bind at 1.
    pose proof (Hfree line w4) as Hf1.
    destruct (free line w4) as [[] w5| | | | |];
      try (intros s Hs; by apply (Hf1 s)).
    unfold mbind at 1, M_bind at 1, bind at 1.
    pose proof (Hfree (PAddr a') w5) as Hf2.
    destruct (free (PAddr a') w5) as [[] w6| | | | |] eqn:E2;
      try (intros s Hs; by apply (Hf2 s)).
    right. exists a'. split; [done|]. by apply (free_returned _ _ _ E2).
Qed.

(** At the top of every pass [args] is stale, and so the loop never ends
    in [exit(EXIT_SUCCESS)]. *)
Lemma chrish_loop_never_exits_success (fuel : nat) :
  ∀ args w s, stale args w →
  stop_of (chrish_loop os fuel args w) = Some s → ¬ exits_success s.
Proof.
  induction fuel as [|fuel IH]; intros args w s Hargs; cbn [chrish_loop].
  { by intros [= <-]. }
  pose proof (chrish_loop_body_stale args w Hargs) as Hbody.
  unfold mbind, M_bind, bind.
  destruct (chrish_loop_body os args w) as [[status args'] w1| | | | |];
    try (by apply Hbody).
  destruct (status =? 0); [done|]. by apply IH.
Qed.

(** [main] never ends the process by [exit(EXIT_SUCCESS)]: with status 0 it
    can only return, after the exit builtin. *)
Lemma main_never_exits_success (w w' : world) :
  main os w ≠ Exit EXIT_SUCCESS w'.
Proof.
  unfold main, mbind, M_bind, bind.
  pose proof (chrish_loop_never_exits_success (S (length (w_stdin w))) PIndet w)
    as Hloop.
  destruct (chrish_loop os _ PIndet w) as [? w1|c w1| | | |]; try done.
  intros [= -> ->]. by apply (Hloop _ (or_introl eq_refl) eq_refl).
Qed.

End Exits.

(** ** The loops of the model have turns enough *)

Section Turns.
Context (os : OS).

Lemma stop_bind_cases {A C} (m : M A) (k : A → M C) (w : world) (s : stop) :
  stop_of ((m ≫= k) w) = Some s →
  stop_of (m w) = Some s ∨ ∃ a w1, m w = Ret a w1 ∧ stop_of (k a w1) = Some s.
Proof.
  unfold mbind, M_bind, bind. destruct (m w) as [a w1| | | | |]; eauto.
Qed.

Lemma turns_chrish_help_loop (fuel : nat) :
  ∀ i, 0 ≤ i → chrish_num_builtins - i ≤ Z.of_nat fuel →
  never out_of_turns (chrish_help_loop fuel i).
Proof.
  induction fuel as [|fuel IH]; intros i Hi Hfuel; cbn [chrish_help_loop];
    destruct (Z.ltb_spec i chrish_num_builtins); try lia; [nev| |nev].
  apply never_bind; [nev|intros name].
  apply never_bind; [nev|intros _].
  apply (never_bind_returns _ (λ r, r = i + 1));
    [nev|apply returns_int_add|intros i' ->].
  apply IH; lia.
Qed.

Lemma turns_chrish_help (args : list slot) :
  never out_of_turns (chrish_help args).
Proof.
  unfold chrish_help.
  apply never_bind; [nev|intros _].
  apply never_bind; [by apply turns_chrish_help_loop|intros _]. nev.
Qed.

Lemma turns_call (f : fnptr) (args : list slot) :
  never out_of_turns (call os f args).
Proof. destruct f; simpl; [nev|apply turns_chrish_help|nev]. Qed.

Lemma turns_chrish_execute_loop (fuel : nat) :
  ∀ i cmd args, 0 ≤ i → chrish_num_builtins - i ≤ Z.of_nat fuel →
  never out_of_turns (chrish_execute_loop os fuel i cmd args).
Proof.
  induction fuel as [|fuel IH]; intros i cmd args Hi Hfuel;
    cbn [chrish_execute_loop];
    destruct (Z.ltb_spec i chrish_num_builtins); try lia; [nev| |nev].
  apply never_bind; [nev|intros name].
  destruct (strcmp cmd name =? 0).
  - apply never_bind; [nev|intros f]. apply turns_call.
  - apply (never_bind_returns _ (λ r, r = i + 1));
      [nev|apply returns_int_add|intros i' ->].
    apply IH; lia.
Qed.

Lemma turns_chrish_execute (args : list slot) :
  never out_of_turns (chrish_execute os args).
Proof.
  unfold chrish_execute. apply never_bind; [nev|intros [cmd|]]; [|nev].
  by apply turns_chrish_execute_loop.
Qed.

(** The tokenizer's loop: every token taken shortens what [strtok] has
    left of the line. *)
Lemma turns_chrish_split_loop (fuel : nat) :
  ∀ token bufsize position n_tokens tokens arr w s,
  (is_Some token → (length (w_strtok w) < fuel)%nat) →
  stop_of (chrish_split_loop os fuel token bufsize position n_tokens
             tokens arr w) = Some s →
  ¬ out_of_turns s.
Proof.
  induction fuel as [|fuel IH];
    intros [t|] bufsize position n tokens arr w s Hlen;
    cbn [chrish_split_loop]; try done.
  { specialize (Hlen (mk_is_Some _ _ eq_refl)). lia. }
  specialize (Hlen (mk_is_Some _ _ eq_refl)).
  intros Hs.
  apply stop_bind_cases in Hs as [Hs|(n' & w1 & E1 & Hs)];
    [revert Hs; apply never_int_add; by intros ?|].
  apply (keeps_Ret w_strtok) in E1; [|apply keeps_int_add].
  apply stop_bind_cases in Hs as [Hs|(arr' & w2 & E2 & Hs)];
    [revert Hs; apply never_store; by intros ?|].
  apply (keeps_Ret w_strtok) in E2; [|apply keeps_store].
  apply stop_bind_cases in Hs as [Hs|(position' & w3 & E3 & Hs)];
    [revert Hs; apply never_int_add; by intros ?|].
  apply (keeps_Ret w_strtok) in E3; [|apply keeps_int_add].
  apply stop_bind_cases in Hs as [Hs|([[bufsize' tokens'] arr''] & w4 & E4 & Hs)];
    [revert Hs; apply never_chrish_grow; by intros ?|].
  apply (keeps_Ret w_strtok) in E4; [|by apply keeps_chrish_grow].
  cbn beta iota in Hs. rewrite (bind_Ret _ _ _ _ _ (strtok_next w4)) in Hs.
  revert Hs. apply IH. simpl.
  destruct (strtok_r_rest (w_strtok w4)) as [_ Hshort]. simpl in Hshort.
  intros Htok. specialize (Hshort Htok).
  rewrite E4, E3, E2, E1 in Hshort |- *. lia.
Qed.

Lemma turns_chrish_split_line (line : cstr) :
  never out_of_turns (chrish_split_line os line).
Proof.
  intros w s. unfold chrish_split_line. intros Hs.
  apply stop_bind_cases in Hs as [Hs|(tokens & w1 & E1 & Hs)];
    [revert Hs; apply never_malloc; by intros ?|].
  destruct tokens as [| |a];
    [revert Hs; apply never_bind; [nev|intros _; nev] ..|].
  apply stop_bind_cases in Hs as [Hs|(token & w2 & E2 & Hs)];
    [revert Hs; apply never_strtok; by intros ?|].
  apply stop_bind_cases in Hs as [Hs|([[[position tokens] arr] n] & w3 & E3 & Hs)].
  - revert Hs. apply turns_chrish_split_loop.
    unfold strtok in E2.
    destruct (strtok_r_rest line) as [_ Hshort]. simpl in Hshort.
    destruct (strtok_r line CHRISH_TOK_DELIM) as [token' save].
    injection E2 as <- <-. simpl in *. done.
  - revert Hs. cbn beta iota. nev.
Qed.

#[local] Hint Resolve turns_chrish_split_line turns_chrish_execute : never.

Lemma turns_chrish_loop_body (args : ptr) :
  never out_of_turns (chrish_loop_body os args).
Proof.
  unfold chrish_loop_body.
  apply never_bind; [nev|intros _].
  apply never_bind; [nev|intros [[r line] text]].
  apply never_bind; [nev|intros _].
  destruct (r =? -1).
  - apply never_bind; [nev|intros _]. apply never_bind; [nev|intros _].
    by intros w s [= <-].
  - nev.
Qed.

(** A pass that returns has taken a line off the input. *)
Lemma chrish_loop_body_consumes (args : ptr) (w : world) (r : Z * ptr)
    (w' : world) :
  chrish_loop_body os args w = Ret r w' →
  (length (w_stdin w') < length (w_stdin w))%nat.
Proof.
  unfold chrish_loop_body.
  rewrite (bind_Ret _ _ _ _ _ (printf_eq _ _)). cbn beta.
  set (w0 := set_out (λ o, o ++ lit "> ") w).
  destruct (chrish_read_line_cases os w0)
    as (n & line & text & w1 & Hread & _ & _ & _ & Hin).
  rewrite (bind_Ret _ _ _ _ _ Hread). cbn beta iota.
  rewrite (bind_Ret _ _ _ _ _ (printf_eq _ _)). cbn beta.
  set (w2 := set_out (λ o, o ++ fmt_d n ++ [LF]) w1).
  destruct (Z.eqb_spec n (-1)) as [|Hn].
  - unfold mbind, M_bind, bind.
    destruct (free line w2); try done. by destruct (free args _).
  - intros E. apply (keeps_Ret w_stdin) in E.
    + rewrite E. change (w_stdin w) with (w_stdin w0).
      rewrite (Hin Hn). simpl. lia.
    + apply keeps_bind; [by apply keeps_chrish_split_line|intros [a argv]].
      apply keeps_bind; [by apply keeps_chrish_execute|intros status].
      apply keeps_bind; [by apply keeps_free|intros _].
      apply keeps_bind; [by apply keeps_free|intros _].
      apply keeps_ret.
Qed.

Lemma turns_chrish_loop (fuel : nat) :
  ∀ args w s, (length (w_stdin w) < fuel)%nat →
  stop_of (chrish_loop os fuel args w) = Some s → ¬ out_of_turns s.
Proof.
  induction fuel as [|fuel IH]; intros args w s Hlen; [lia|].
  cbn [chrish_loop]. intros Hs.
  apply stop_bind_cases in Hs as [Hs|([status args'] & w1 & E & Hs)];
    [revert Hs; apply turns_chrish_loop_body|].
  apply chrish_loop_body_consumes in E. cbn beta iota in Hs.
  destruct (status =? 0); [done|].
  revert Hs. apply IH. lia.
Qed.

(** [main] gives its loop one turn more than there are lines of input:
    the loop never runs out of turns, the fuel of the model decides no
    outcome. *)
Lemma main_never_out_of_fuel (w w' : world) : main os w ≠ Fuel w'.
Proof.
  intros E.
  assert (Hs : stop_of (main os w) = Some StopFuel) by (by rewrite E).
  unfold main in Hs.
  apply stop_bind_cases in Hs as [Hs|(? & w1 & _ & Hs)]; [|done].
  by eapply turns_chrish_loop; [|exact Hs|]; [lia|].
Qed.

End Turns.

(** ** Words, whole runs and the ends of the process *)

Section Words.

Lemma fields_cons (s : cstr) : ∃ f fs, fields s = f :: fs.
Proof.
  pose proof (fields_not_nil s). destruct (fields s) as [|f fs]; [done|].
  by exists f, fs.
Qed.

(** Cutting at a delimiter cuts the list of fields. *)
Lemma fields_app (a : cstr) (d : ascii) (b : cstr) :
  delimiter d = true → fields (a ++ d :: b) = fields a ++ fields b.
Proof.
  intros Hd. induction a as [|c a IH]; simpl.
  - by rewrite Hd.
  - rewrite IH. destruct (delimiter c); [done|].
    by destruct (fields_cons a) as (f & fs & ->).
Qed.

Lemma maximal_runs_app (a : cstr) (d : ascii) (b : cstr) :
  delimiter d = true →
  maximal_runs (a ++ d :: b) = maximal_runs a ++ maximal_runs b.
Proof.
  intros Hd. unfold maximal_runs. by rewrite fields_app, filter_app.
Qed.

(** The fields hold the characters that are not delimiters, in order. *)
Lemma concat_fields (s : cstr) :
  concat (fields s) = filter (λ c, delimiter c = false) s.
Proof.
  induction s as [|c s IH]; [done|]. simpl.
  destruct (delimiter c) eqn:Hc.
  - rewrite filter_cons_False by (by rewrite Hc). done.
  - rewrite filter_cons_True by done. rewrite <- IH.
    by destruct (fields_cons s) as (f & fs & ->).
Qed.

Lemma concat_nonempty (l : list cstr) :
  concat (filter (λ f, f ≠ []) l) = concat l.
Proof.
  induction l as [|[|c f] l IH]; [done| |].
  - by rewrite filter_cons_False by (by intros ?).
  - rewrite filter_cons_True by done. simpl. by rewrite IH.
Qed.

Lemma concat_maximal_runs (s : cstr) :
  concat (maximal_runs s) = filter (λ c, delimiter c = false) s.
Proof. unfold maximal_runs. by rewrite concat_nonempty, concat_fields. Qed.

(** A token holds characters of the string only. *)
Lemma maximal_runs_chars (s t : cstr) (c : ascii) :
  t ∈ maximal_runs s → c ∈ t → c ∈ s.
Proof.
  intros Ht Hc.
  assert (c ∈ concat (maximal_runs s)) as Hin.
  { apply list_elem_of_In, in_concat. exists t.
    split; by apply list_elem_of_In. }
  rewrite concat_maximal_runs in Hin.
  by apply list_elem_of_filter in Hin as [_ ?].
Qed.

Lemma maximal_runs_nul_free (s t : cstr) :
  t ∈ maximal_runs (c_str s) → c_str t = t.
Proof.
  intros Ht. apply c_str_id. intros Hnul.
  apply (c_str_nul_free s). by apply (maximal_runs_chars _ t).
Qed.

(** One field more than there are delimiters. *)
Lemma fields_length (s : cstr) :
  length (fields s) = S (length (filter (λ c, delimiter c = true) s)).
Proof.
  induction s as [|c s IH]; [done|]. simpl.
  destruct (delimiter c) eqn:Hc.
  - rewrite filter_cons_True by done. simpl. by rewrite IH.
  - rewrite filter_cons_False by (by rewrite Hc).
    destruct (fields_cons s) as (f & fs & Hf). rewrite Hf in *. done.
Qed.

Lemma unwords_length (toks : list cstr) :
  (length (unwords toks) + 1 ≤ length (concat toks) + length toks + 1)%nat
  ∧ (toks ≠ [] → length (unwords toks) + 1 = length (concat toks) + length toks)%nat.
Proof.
  induction toks as [|t [|t' ts] IH].
  - simpl. split; [lia|done].
  - simpl. rewrite app_nil_r. split; [lia|]. intros _. lia.
  - destruct IH as [_ IH]. specialize (IH ltac:(done)).
    change (unwords (t :: t' :: ts)) with (t ++ " "%char :: unwords (t' :: ts)).
    change (concat (t :: t' :: ts)) with (t ++ concat (t' :: ts)).
    rewrite !length_app. simpl length in *. split; [lia|]. intros _. lia.
Qed.

(** Written out with single spaces, the tokens of a string take no more
    room than the string. *)
Lemma unwords_maximal_runs_length (s : cstr) :
  (length (unwords (maximal_runs s)) ≤ length s)%nat.
Proof.
  pose proof (unwords_length (maximal_runs s)) as [Hle Heq].
  rewrite concat_maximal_runs in *.
  assert (Hruns : (length (maximal_runs s) ≤ length (fields s))%nat)
    by apply length_filter.
  rewrite fields_length in Hruns.
  assert (Hsplit : (length (filter (λ c, delimiter c = false) s)
                    + length (filter (λ c, delimiter c = true) s)
                    = length s)%nat).
  { clear. induction s as [|c s IH]; [done|].
    destruct (delimiter c) eqn:Hc.
    - rewrite filter_cons_False by (by rewrite Hc).
      rewrite (filter_cons_True (λ c, delimiter c = true)) by done.
      simpl. lia.
    - rewrite filter_cons_True by done.
      rewrite (filter_cons_False (λ c, delimiter c = true)) by (by rewrite Hc).
      simpl. lia. }
  destruct (maximal_runs s) as [|t ts] eqn:E; [simpl; lia|].
  specialize (Heq ltac:(done)). lia.
Qed.

(** Tokens written out with single spaces and cut again are the same
    tokens. *)
Lemma maximal_runs_unwords (toks : list cstr) :
  Forall (λ t, t ≠ [] ∧ Forall (λ c, delimiter c = false) t) toks →
  maximal_runs (unwords toks) = toks.
Proof.
  induction toks as [|t [|t' ts] IH]; intros Htoks.
  - done.
  - apply Forall_cons_1 in Htoks as [[Hne Ht] _]. simpl.
    by apply maximal_runs_last.
  - apply Forall_cons_1 in Htoks as [[Hne Ht] Hrest].
    change (unwords (t :: t' :: ts)) with (t ++ " "%char :: unwords (t' :: ts)).
    rewrite maximal_runs_run by done. by rewrite IH.
Qed.

Lemma unwords_nul_free (toks : list cstr) :
  Forall (λ t, NUL ∉ t) toks → NUL ∉ unwords toks.
Proof.
  induction toks as [|t [|t' ts] IH]; intros Htoks.
  - by intros ?%elem_of_nil.
  - by apply Forall_cons_1 in Htoks as [? _].
  - apply Forall_cons_1 in Htoks as [Ht Hrest].
    change (unwords (t :: t' :: ts)) with (t ++ " "%char :: unwords (t' :: ts)).
    intros [?|[?|?]%elem_of_cons]%elem_of_app; [done|done|by apply IH].
Qed.

(** What a vector holds before its NULL. *)
Lemma argv_inj (t1 t2 : list cstr) (j1 j2 : list slot) :
  argv t1 j1 = argv t2 j2 → t1 = t2.
Proof.
  revert t2. induction t1 as [|a t1 IH]; intros [|b t2]; simpl; try done.
  intros [= -> H]. f_equal. by apply IH.
Qed.

Lemma strings_of_argv (toks : list cstr) (junk : list slot) :
  strings_of (argv toks junk) = toks.
Proof.
  induction toks as [|t toks IH]; [done|].
  change (argv (t :: toks) junk) with (Tok t :: argv toks junk).
  simpl. by rewrite IH.
Qed.

Lemma c_str_prefix (a b : cstr) : NUL ∉ a → c_str (a ++ b) = a ++ c_str b.
Proof.
  induction a as [|c a IH]; intros Ha; [done|].
  apply not_elem_of_cons in Ha as [Hc Ha]. simpl.
  destruct (Ascii.eqb c NUL) eqn:E.
  - apply Ascii.eqb_eq in E. by subst.
  - by rewrite IH.
Qed.

Lemma delimiter_not_NUL (d : ascii) : delimiter d = true → d ≠ NUL.
Proof. by intros H ->. Qed.

End Words.

Section Tokens.
Context (os : OS).

(** What the tokenizer returns on a line that fits, when the allocator
    grants its requests. *)
Lemma chrish_split_line_returned (line : cstr) (w : world) :
  line_fits line → grants os →
  tokens_returned (chrish_split_line os line w)
  = Some (maximal_runs (c_str line)).
Proof.
  intros Hmax Hos.
  destruct (chrish_split_line_spec os line w Hmax) as [Hok _].
  destruct Hok as (a & junk & s' & -> & _); [by intros; apply Hos|].
  simpl. by rewrite strings_of_argv.
Qed.

End Tokens.

Section Runs.
Context (os : OS).

(** The wait ends at the first state change that is an exit or a death
    by signal, and blocks when there is none. *)
Lemma chrish_wait_cases (pid : Z) (pending : list wstatus) (w : world) :
  ∃ n, (chrish_wait pid pending w = Ret tt (set_waits n w)
        ∧ Exists (λ st, terminal st = true) pending)
       ∨ (chrish_wait pid pending w = Blocked (set_waits n w)
          ∧ Forall (λ st, terminal st = false) pending).
Proof.
  revert w. induction pending as [|st pending IH]; intros w.
  - exists (w_waits w). right. split; [by destruct w|done].
  - simpl. unfold terminal in *.
    destruct (WIFEXITED st) eqn:He; simpl.
    { eexists. left. split; [done|]. left. by rewrite He. }
    destruct (WIFSIGNALED st) eqn:Hs; simpl.
    { eexists. left. split; [done|]. left. by rewrite He, Hs. }
    destruct (IH (set_waits (S (w_waits w)) w)) as (n & [[-> Hex]|[-> Hall]]);
      exists n.
    + left. split; [done|]. by right.
    + right. split; [done|]. constructor; [by rewrite He, Hs|done].
Qed.

Lemma is_builtin_cases (cmd : cstr) :
  is_builtin cmd
  = bool_decide (c_str cmd = lit "cd") || bool_decide (c_str cmd = lit "help")
    || bool_decide (c_str cmd = lit "exit").
Proof.
  unfold is_builtin, builtin_str. rewrite <- !bool_decide_or.
  apply bool_decide_ext. rewrite !elem_of_cons, elem_of_nil. tauto.
Qed.

Lemma lit_builtin_distinct :
  lit "cd" ≠ lit "help" ∧ lit "cd" ≠ lit "exit" ∧ lit "help" ≠ lit "exit".
Proof. by vm_compute. Qed.

(** The dispatch on a well-formed vector: it returns the status of the
    command line, or it blocks in the wait for a program that never ends;
    it forks once when the first token is no builtin name and not at all
    otherwise. *)
Lemma chrish_execute_cases (toks : list cstr) (junk : list slot) (w : world) :
  tables_intact w →
  let n := if launches toks then S (w_forks w) else w_forks w in
  (∃ w', chrish_execute os (argv toks junk) w = Ret (status_of toks) w'
         ∧ w_forks w' = n)
  ∨ (∃ w', chrish_execute os (argv toks junk) w = Blocked w'
           ∧ w_forks w' = n ∧ launches toks = true ∧ ¬ programs_end os).
Proof.
  intros Hw n. subst n. rewrite chrish_execute_eq by done.
  destruct toks as [|cmd rest]; [left; by eexists|].
  unfold launches, status_of. rewrite is_builtin_cases.
  destruct lit_builtin_distinct as (Hch & Hce & Hhe).
  destruct (decide (c_str cmd = lit "cd")) as [Hcd|Hcd].
  { rewrite chrish_cd_eq, (bool_decide_eq_true_2 _ Hcd).
    rewrite (bool_decide_eq_false_2 (c_str cmd = lit "exit")) by congruence.
    left. eexists. split; [done|]. simpl.
    destruct rest as [|dir ?]; [done|]. by destruct (os_chdir _ _ _). }
  destruct (decide (c_str cmd = lit "help")) as [Hhelp|Hhelp].
  { rewrite chrish_help_eq by done.
    rewrite (bool_decide_eq_true_2 _ Hhelp), orb_true_r.
    rewrite (bool_decide_eq_false_2 (c_str cmd = lit "exit")) by congruence.
    left. by eexists. }
  destruct (decide (c_str cmd = lit "exit")) as [Hexit|Hexit].
  { rewrite (bool_decide_eq_true_2 _ Hexit), orb_true_r.
    left. by eexists. }
  rewrite !bool_decide_eq_false_2 by done. simpl.
  rewrite chrish_launch_eq.
  destruct (os_fork os (w_forks w)) as [e|pid]; [left; by eexists|].
  destruct (os_execvp os (S (w_forks w)) ((cmd :: rest) !! 0%nat) (cmd :: rest))
    as [e|b] eqn:Hexec; [left; by eexists|].
  destruct (chrish_wait_cases (Z.pos pid) b (after_fork w))
    as (k & [[Hr _]|[Hb Hall]]).
  - rewrite (bind_Ret _ _ _ _ _ Hr). left. by eexists.
  - unfold mbind, M_bind, bind. rewrite Hb. right. eexists.
    split; [done|]. split; [done|]. split; [done|].
    intros Hend. specialize (Hend _ _ _ _ Hexec).
    apply Exists_exists in Hend as (st & Hin & Hst).
    rewrite Forall_forall in Hall. specialize (Hall st Hin). congruence.
Qed.

(** A pass through the loop that reads a line, up to the dispatch and
    from the dispatch on. *)
Lemma chrish_loop_body_pass (args : ptr) (w : world) (l : cstr)
    (rest : list cstr) :
  w_stdin w = l :: rest → line_fits l → grants os →
  ∃ a junk w2,
    (a ∉ w_live w)
    ∧ w_stdin w2 = rest ∧ tables w2 = tables w
    ∧ w_forks w2 = w_forks w ∧ w_cwd w2 = w_cwd w ∧ w_err w2 = w_err w
    ∧ w_waits w2 = w_waits w
    ∧ w_out w2 = w_out w ++ lit "> " ++ fmt_d (Z.of_nat (length l)) ++ [LF]
                   ++ fmt_d (Z.of_nat (length (maximal_runs (c_str l)))) ++ [LF]
    ∧ (∀ status w3,
         chrish_execute os (argv (maximal_runs (c_str l)) junk) w2
         = Ret status w3 →
         chrish_loop_body os args w
         = Ret (status, PAddr a) (set_heap (w_live w) (w_brk w3) w3))
    ∧ (∀ w3,
         chrish_execute os (argv (maximal_runs (c_str l)) junk) w2
         = Blocked w3 →
         chrish_loop_body os args w = Blocked w3).
Proof.
  intros Hin Hmax Hos. unfold chrish_loop_body.
  rewrite (bind_Ret _ _ _ _ _ (printf_eq _ _)). cbn beta.
  set (w0 := set_out (λ o, o ++ lit "> ") w).
  set (b := fresh (w_live w0)).
  assert (Hb : b ∉ w_live w) by apply is_fresh.
  assert (Hread : chrish_read_line os w0
                  = Ret (Z.of_nat (length l), PAddr b, l)
                        (set_stdin rest
                           (set_heap ({[b]} ∪ w_live w0) (S (w_brk w0)) w0))).
  { unfold chrish_read_line.
    rewrite (bind_Ret _ _ _ _ _ (malloc_ok os w0 (Hos _))). cbn beta iota.
    unfold read_stdin. simpl. rewrite Hin.
    unfold line_fits, CHRISH_TOK_BUFSIZE in Hmax.
    rewrite to_int_id by (unfold INT_MIN; lia). done. }
  rewrite (bind_Ret _ _ _ _ _ Hread). cbn beta iota.
  rewrite (bind_Ret _ _ _ _ _ (printf_eq _ _)). cbn beta.
  destruct (Z.eqb_spec (Z.of_nat (length l)) (-1)) as [|_]; [lia|].
  match goal with |- context [(_ ≫= _) ?w] => set (w1 := w) end.
  destruct (chrish_split_line_spec os l w1 Hmax) as [Hok _].
  destruct Hok as (a & junk & s' & Hsplit & Ha & _); [by intros; apply Hos|].
  rewrite (bind_Ret _ _ _ _ _ Hsplit). cbn beta iota.
  change (w_live w1) with ({[b]} ∪ w_live w) in Ha.
  assert (Hab : a ≠ b).
  { intros ->. apply Ha, elem_of_union_l. by apply elem_of_singleton. }
  assert (Ha' : a ∉ w_live w).
  { intros Hin'. by apply Ha, elem_of_union_r. }
  match type of Hsplit with _ = Ret _ ?w' => exists a, junk, w' end.
  do 7 (split; [done|]). split; [simpl; by rewrite <- !app_assoc|]. split.
  - intros status w3 Hexec.
    rewrite (bind_Ret _ _ _ _ _ Hexec). cbn beta.
    assert (Hlive : w_live w3 = {[a]} ∪ ({[b]} ∪ w_live w)).
    { apply (keeps_Ret w_live) in Hexec; [done|].
      by apply keeps_chrish_execute. }
    assert (Hb3 : b ∈ w_live w3).
    { rewrite Hlive. apply elem_of_union_r, elem_of_union_l.
      by apply elem_of_singleton. }
    rewrite (bind_Ret _ _ _ tt _ (free_live b w3 Hb3)). cbn beta.
    match goal with |- context [(_ ≫= _) ?w] => set (w4 := w) end.
    assert (Ha4 : a ∈ w_live w4).
    { simpl. rewrite Hlive. apply elem_of_difference. split.
      - apply elem_of_union_l. by apply elem_of_singleton.
      - by intros ?%elem_of_singleton. }
    rewrite (bind_Ret _ _ _ tt _ (free_live a w4 Ha4)).
    cbn beta. unfold ret. f_equal. unfold set_heap. simpl. f_equal.
    rewrite Hlive. apply set_eq. intros x.
    rewrite !elem_of_difference, !elem_of_union, !elem_of_singleton.
    split; [by intros [[[->|[->|?]] ?] ?]|].
    intros Hx. split; [split; [auto|]|]; by intros ->.
  - intros w3 Hexec. unfold mbind at 1, M_bind at 1, bind at 1.
    by rewrite Hexec.
Qed.

Lemma exit_command_status (l : cstr) :
  status_of (maximal_runs (c_str l)) = if exit_command l then 0 else 1.
Proof.
  unfold status_of, exit_command.
  destruct (maximal_runs (c_str l)) as [|cmd r] eqn:E; [done|].
  rewrite (maximal_runs_nul_free l cmd) by (rewrite E; by left). done.
Qed.

Lemma tables_intact_eq (w w' : world) :
  tables w' = tables w → tables_intact w → tables_intact w'.
Proof.
  unfold tables, tables_intact. intros [= H1 H2] [? ?]. split; congruence.
Qed.

(** The loop on the lines that are pending, from a pass that finds [args]
    stale: it leaves at the first exit command, with the lines behind it
    unread, or it reads every line and stops in the free of [args] at the
    end of the input.  Either way the heap is what it was.  Every
    program that is launched must end; none is launched when the lines in
    front of the first exit command hold builtins only. *)
Lemma chrish_loop_run :
  grants os →
  ∀ lines fuel args w,
  programs_end os ∨ launched lines = 0%nat →
  w_stdin w = lines → tables_intact w → stale args w →
  Forall line_fits lines → (length lines < fuel)%nat →
  match after_exit lines with
  | Some rest =>
      ∃ w', chrish_loop os fuel args w = Ret tt w'
            ∧ w_stdin w' = rest ∧ w_live w' = w_live w
            ∧ w_forks w' = (w_forks w + launched lines)%nat
  | None =>
      ∃ u w', chrish_loop os fuel args w = Undef u w'
              ∧ w_live w' = w_live w
              ∧ w_forks w' = (w_forks w + launched lines)%nat
              ∧ (lines = [] → args = PIndet → u = UB_free_indeterminate)
              ∧ (lines ≠ [] ∨ args ≠ PIndet → u = UB_free_dead)
  end.
Proof.
  intros Hos lines.
  induction lines as [|l rest IH];
    intros [|fuel] args w Hend Hin Hw Hargs Hfit Hlen;
    try (simpl in Hlen; lia).
  - simpl after_exit.
    destruct (chrish_loop_body_eof os args w Hin Hargs)
      as (w' & Heq & _ & Hforks & _ & Hlive).
    eexists _, w'. cbn [chrish_loop]. unfold mbind, M_bind, bind. rewrite Heq.
    split; [done|]. split; [done|]. split; [simpl; lia|].
    split; [by intros _ ->|].
    intros [?|?]; [done|]. by destruct args.
  - apply Forall_cons_1 in Hfit as [Hl Hrest].
    destruct (chrish_loop_body_pass args w l rest Hin Hl Hos)
      as (a & junk & w2 & Ha & Hin2 & Htab2 & Hforks2 & _ & _ & _ & _ & Hret & _).
    assert (Hw2 : tables_intact w2) by (by apply (tables_intact_eq w)).
    assert (Hnone : exit_command l = true →
                    launches (maximal_runs (c_str l)) = false).
    { intros Hex. pose proof (exit_command_status l) as Hst.
      rewrite Hex in Hst. unfold status_of, launches in *.
      destruct (maximal_runs (c_str l)) as [|cmd r]; [done|].
      rewrite is_builtin_cases. case_bool_decide; [|done].
      by rewrite orb_true_r. }
    destruct (chrish_execute_cases (maximal_runs (c_str l)) junk w2 Hw2)
      as [(w3 & Hexec & Hforks3)|(w3 & _ & _ & Hlaunch & Hno)].
    2:{ destruct Hend as [Hend|Hend]; [by destruct Hno|].
        cbn [launched] in Hend. rewrite Hlaunch in Hend.
        destruct (exit_command l); [by rewrite Hnone in Hlaunch|lia]. }
    specialize (Hret _ _ Hexec).
    assert (Hin3 : w_stdin w3 = rest).
    { rewrite <- Hin2. apply (keeps_Ret w_stdin _ _ _ _ Hexec).
      by apply keeps_chrish_execute. }
    assert (Htab3 : tables w3 = tables w2).
    { apply (keeps_Ret tables _ _ _ _ Hexec). by apply keeps_chrish_execute. }
    cbn [chrish_loop]. rewrite (bind_Ret _ _ _ _ _ Hret). cbn beta iota.
    rewrite exit_command_status. simpl after_exit.
    cbn [launched] in *.
    destruct (exit_command l).
    + rewrite (Hnone eq_refl) in Hforks3.
      eexists. split; [done|]. simpl. split; [done|]. split; [done|]. lia.
    + change (1 =? 0) with false. cbn iota.
      set (w4 := set_heap (w_live w) (w_brk w3) w3).
      assert (Hw4 : tables_intact w4) by (by apply (tables_intact_eq w2)).
      assert (Hstale : stale (PAddr a) w4) by (right; by exists a).
      assert (Hend' : programs_end os ∨ launched rest = 0%nat).
      { destruct Hend as [?|Hend]; [by left|right]. lia. }
      specialize (IH fuel (PAddr a) w4 Hend' Hin3 Hw4 Hstale Hrest
                    ltac:(simpl in Hlen; lia)).
      assert (Hforks4 : w_forks w4
                        = (w_forks w
                           + (if launches (maximal_runs (c_str l)) then 1 else 0))%nat).
      { change (w_forks w4) with (w_forks w3). rewrite Hforks3, Hforks2.
        destruct (launches _); lia. }
      destruct (after_exit rest) as [behind|].
      * destruct IH as (w' & Heq & Hs & Hlive & Hforks).
        exists w'. split; [done|]. split; [done|]. split; [done|]. lia.
      * destruct IH as (u & w' & Heq & Hlive & Hforks & _ & Hu). exists u, w'.
        split; [done|]. split; [done|]. split; [lia|]. split; [done|].
        intros _. apply Hu. by right.
Qed.

Lemma main_run (w : world) :
  programs_end os ∨ launched (w_stdin w) = 0%nat →
  grants os → tables_intact w →
  Forall line_fits (w_stdin w) →
  match after_exit (w_stdin w) with
  | Some rest =>
      ∃ w', main os w = Ret EXIT_SUCCESS w'
            ∧ w_stdin w' = rest ∧ w_live w' = w_live w
            ∧ w_forks w' = (w_forks w + launched (w_stdin w))%nat
  | None =>
      ∃ u w', main os w = Undef u w'
              ∧ w_live w' = w_live w
              ∧ w_forks w' = (w_forks w + launched (w_stdin w))%nat
              ∧ (w_stdin w = [] → u = UB_free_indeterminate)
              ∧ (w_stdin w ≠ [] → u = UB_free_dead)
  end.
Proof.
  intros Hend Hos Hw Hfit.
  pose proof (chrish_loop_run Hos (w_stdin w) (S (length (w_stdin w)))
                PIndet w Hend eq_refl Hw (or_introl eq_refl) Hfit ltac:(lia))
    as Hrun.
  unfold main, mbind, M_bind, bind.
  destruct (after_exit (w_stdin w)) as [rest|].
  - destruct Hrun as (w' & -> & ? & ? & ?). by exists w'.
  - destruct Hrun as (u & w' & -> & ? & ? & Hi & Hd). exists u, w'.
    split; [done|]. split; [done|]. split; [done|].
    split; [by intros ?; apply Hi|].
    intros ?. apply Hd. by left.
Qed.

End Runs.

(** ** The ways the shell process can end *)

(** A pass through the loop, the loop and [main], for a set [bad] of stops
    that holds none of the stops they can make; what the tokenizer can do
    is left to the instance. *)
Section Codes.
Context (os : OS) (bad : stop → Prop).

Hypothesis ok_undef : ∀ u, ¬ bad (StopUndef u).
Hypothesis ok_blocked : ¬ bad StopBlocked.
Hypothesis ok_fuel : ¬ bad StopFuel.
Hypothesis ok_success : ¬ bad (StopExit EXIT_SUCCESS).
Hypothesis ok_split : ∀ line, never bad (chrish_split_line os line).

Lemma never_chrish_loop_body (args : ptr) :
  never bad (chrish_loop_body os args).
Proof.
  unfold chrish_loop_body.
  apply never_bind; [nev|intros _].
  apply never_bind; [nev|intros [[r line] text]].
  apply never_bind; [nev|intros _].
  destruct (r =? -1).
  - apply never_bind; [nev|intros _]. apply never_bind; [nev|intros _].
    by intros w s [= <-].
  - apply never_bind; [apply ok_split|intros [a argv]]. nev.
Qed.

Lemma never_chrish_loop (fuel : nat) (args : ptr) :
  never bad (chrish_loop os fuel args).
Proof.
  revert args. induction fuel as [|fuel IH]; intros args; cbn [chrish_loop].
  - by intros w s [= <-].
  - apply never_bind; [apply never_chrish_loop_body|intros [status args']].
    destruct (status =? 0); [nev|apply IH].
Qed.

Lemma never_main : never bad (main os).
Proof.
  intros w s. unfold main. revert s.
  apply never_bind; [apply never_chrish_loop|intros _; nev].
Qed.

End Codes.

(** With an allocator that never refuses the tokenizer has no reason to
    call [exit]. *)
Section Granted.
Context (os : OS) (bad : stop → Prop).

Hypothesis granted : grants os.
Hypothesis ok_undef : ∀ u, ¬ bad (StopUndef u).
Hypothesis ok_fuel : ¬ bad StopFuel.

Lemma returns_malloc_granted : returns is_addr (malloc os).
Proof.
  intros w p w'. unfold malloc. rewrite granted. intros [= <- _]. by eexists.
Qed.

Lemma returns_realloc_granted (p : ptr) : returns is_addr (realloc os p).
Proof.
  unfold realloc.
  apply (returns_bind _ _ _ _ returns_malloc_granted). intros q [a ->].
  apply (returns_bind (λ _, True)); [done|intros _ _].
  apply returns_ret. by exists a.
Qed.

Lemma never_chrish_grow_granted (bufsize position : Z) (tokens : ptr)
    (arr : list slot) :
  never bad (chrish_grow os bufsize position tokens arr).
Proof.
  unfold chrish_grow. destruct (position >=? bufsize); [|nev].
  apply never_bind; [nev|intros bufsize'].
  apply (never_bind_returns _ is_addr);
    [nev|apply returns_realloc_granted|intros q [a ->]].
  nev.
Qed.

Lemma never_chrish_split_loop_granted (fuel : nat) :
  ∀ token bufsize position n_tokens tokens arr,
  never bad (chrish_split_loop os fuel token bufsize position n_tokens
               tokens arr).
Proof.
  induction fuel as [|fuel IH]; intros [t|] ?????; cbn [chrish_split_loop];
    try solve [nev].
  apply never_bind; [nev|intros ?]. apply never_bind; [nev|intros ?].
  apply never_bind; [nev|intros ?].
  apply never_bind; [apply never_chrish_grow_granted|intros [[??]?]].
  apply never_bind; [nev|intros ?]. apply IH.
Qed.

Lemma never_chrish_split_line_granted (line : cstr) :
  never bad (chrish_split_line os line).
Proof.
  unfold chrish_split_line.
  apply (never_bind_returns _ is_addr);
    [nev|apply returns_malloc_granted|intros q [a ->]].
  apply never_bind; [nev|intros ?].
  apply never_bind; [apply never_chrish_split_loop_granted|intros [[[??]?]?]].
  nev.
Qed.

End Granted.

(** The code behind [pid == 0]. *)
Section Child.
Context (os : OS) (bad : stop → Prop).

Hypothesis ok_undef : ∀ u, ¬ bad (StopUndef u).
Hypothesis ok_failure : ¬ bad (StopExit EXIT_FAILURE).
Hypothesis ok_replaced : ∀ b, ¬ bad (StopReplaced b).

Lemma never_chrish_launch_child (child : list wstatus) (args : list slot) :
  never bad (chrish_launch_from os 0 child args).
Proof. unfold chrish_launch_from. simpl (0 =? 0). cbn iota. nev. Qed.

Lemma returns_chrish_launch_child (child : list wstatus) (args : list slot) :
  returns (λ _, False) (chrish_launch_from os 0 child args).
Proof.
  unfold chrish_launch_from. simpl (0 =? 0). cbn iota.
  apply (returns_bind (λ _, False)); [|done].
  apply (returns_bind (λ _, True)); [done|intros file _].
  apply (returns_bind (λ _, True)); [done|intros r _].
  apply (returns_bind (λ _, True)); [done|intros _ _].
  by apply returns_never.
Qed.

End Child.

Section ChildFrame.
Context (os : OS) {B : Type} (proj : world → B).

Hypothesis proj_err : ∀ f w, proj (set_err f w) = proj w.
Hypothesis proj_errno : ∀ e w, proj (set_errno e w) = proj w.

Lemma keeps_chrish_launch_child (child : list wstatus) (args : list slot) :
  keeps proj (chrish_launch_from os 0 child args).
Proof.
  unfold chrish_launch_from. simpl (0 =? 0). cbn iota.
  apply keeps_bind; [|intros; apply keeps_ret].
  apply keeps_bind; [apply keeps_load|intros file].
  apply keeps_bind; [|intros r].
  { unfold execvp. apply keeps_bind; [apply keeps_argv_strings|intros].
    by apply keeps_sys_execvp. }
  apply keeps_bind; [|intros; apply keeps_exit].
  destruct (r =? -1); [by apply keeps_perror|apply keeps_ret].
Qed.

End ChildFrame.

(** ** What goes to standard output outside of the handlers *)

Section Output.
Context (os : OS).

Lemma writes_count_bind {A C} (m : M A) (k : A → M C) :
  keeps w_out m → (∀ a, writes_count (k a)) → writes_count (m ≫= k).
Proof.
  intros Hm Hk w. specialize (Hm w). unfold mbind, M_bind, bind.
  destruct (m w) as [a w1| | | | |]; simpl in *; try (by left).
  destruct (Hk a w1) as [[Hstop Hout]|(r & n & w' & Heq & Hout)].
  - left. split; [done|]. by rewrite Hout.
  - right. exists r, n, w'. split; [done|]. by rewrite Hout, Hm.
Qed.

Lemma writes_count_stops {A} (m : M A) :
  keeps w_out m → (∀ w, stop_of (m w) ≠ None) → writes_count m.
Proof. intros Hm Hstop w. left. split; [apply Hstop|apply Hm]. Qed.

(** Whatever the line and the allocator, the tokenizer writes to
    standard output its count when it returns and nothing when it does
    not. *)
Lemma chrish_split_line_writes_count (line : cstr) :
  writes_count (chrish_split_line os line).
Proof.
  unfold chrish_split_line.
  apply writes_count_bind; [by apply keeps_malloc|intros [| |a]].
  - apply writes_count_stops; [|done].
    apply keeps_bind; [by apply keeps_eprintf|intros; apply keeps_exit].
  - apply writes_count_stops; [|done].
    apply keeps_bind; [by apply keeps_eprintf|intros; apply keeps_exit].
  - apply writes_count_bind; [by apply keeps_strtok|intros token].
    apply writes_count_bind;
      [by apply keeps_chrish_split_loop|intros [[[position tokens] arr] n]].
    apply writes_count_bind; [apply keeps_store|intros arr'].
    intros w. right. by eexists _, n, _.
Qed.

(** A pass through the loop, whatever the input and the allocator: the
    prompt, the value the read returned and, when the tokenizer returns,
    its count; what follows is written by the dispatch. *)
Lemma chrish_loop_body_writes (args : ptr) (w : world) :
  ∃ r, let pre := w_out w ++ lit "> " ++ fmt_d r ++ [LF] in
    w_out (final (chrish_loop_body os args w)) = pre
    ∨ ∃ n argv w2,
        w_out w2 = pre ++ fmt_d n ++ [LF]
        ∧ w_out (final (chrish_loop_body os args w))
          = w_out (final (chrish_execute os argv w2)).
Proof.
  unfold chrish_loop_body.
  rewrite (bind_Ret _ _ _ _ _ (printf_eq _ _)). cbn beta.
  destruct (chrish_read_line_cases os (set_out (λ o, o ++ lit "> ") w))
    as (r & line & text & w1 & Hread & (Hout & _) & _).
  rewrite (bind_Ret _ _ _ _ _ Hread). cbn beta iota.
  rewrite (bind_Ret _ _ _ _ _ (printf_eq _ _)). cbn beta.
  exists r. cbv zeta.
  set (w2 := set_out (λ o, o ++ fmt_d r ++ [LF]) w1).
  assert (Hpre : w_out w2 = w_out w ++ lit "> " ++ fmt_d r ++ [LF]).
  { simpl. rewrite Hout. simpl. by rewrite <- app_assoc. }
  destruct (r =? -1).
  - left. rewrite <- Hpre.
    rewrite bind_final_out; [apply free_final_out|]. intros _ w3.
    rewrite bind_final_out; [apply free_final_out|]. done.
  - destruct (chrish_split_line_writes_count text w2)
      as [[Hstop Hsame]|([p arr] & n & w3 & Heq & Hcount)].
    + left. rewrite <- Hpre, <- Hsame.
      unfold mbind, M_bind, bind.
      by destruct (chrish_split_line os text w2).
    + right. exists n, arr, w3. split; [by rewrite Hcount, Hpre|].
      rewrite (bind_Ret _ _ _ _ _ Heq). cbn beta iota.
      rewrite bind_final_out; [done|]. intros status w4.
      rewrite bind_final_out; [apply free_final_out|]. intros _ w5.
      rewrite bind_final_out; [apply free_final_out|]. done.
Qed.

End Output.

Lemma launched_le (lines : list cstr) : (launched lines ≤ length lines)%nat.
Proof.
  induction lines as [|l lines IH]; [done|]. simpl.
  destruct (exit_command l); [lia|]. destruct (launches _); lia.
Qed.

(** * The claims *)

Section Claims.
Context (os : OS).

(** C1.  On every argument vector [chrish_execute] returns one status,
    provided every launched program ends.  The status stands for
    Terminate exactly when the vector is not empty and its first string
    is exit; otherwise it stands for Continue.  On the empty vector it
    returns at once and the world is unchanged. *)
Theorem chrish_execute_signal (toks : list cstr) (junk : list slot) (w : world) :
  tables_intact w → programs_end os →
  ∃ status w',
    chrish_execute os (argv toks junk) w = Ret status w'
    ∧ (signal_of status = Terminate
       ↔ ∃ cmd rest, toks = cmd :: rest ∧ c_str cmd = lit "exit")
    ∧ (signal_of status = Continue
       ↔ toks = [] ∨ ∃ cmd rest, toks = cmd :: rest ∧ c_str cmd ≠ lit "exit")
    ∧ (toks = [] → status = 1 ∧ w' = w).
Proof.
  intros Hw Hend. rewrite chrish_execute_eq by done.
  destruct toks as [|cmd rest].
  { exists 1, w. split; [done|]. split; [|split; [|done]].
    - split; [done|]. by intros (? & ? & ? & _).
    - split; [by left|done]. }
  assert (Hcont : ∀ w', c_str cmd ≠ lit "exit" →
    (signal_of 1 = Terminate ↔ ∃ c r, cmd :: rest = c :: r ∧ c_str c = lit "exit")
    ∧ (signal_of 1 = Continue
       ↔ cmd :: rest = [] ∨ ∃ c r, cmd :: rest = c :: r ∧ c_str c ≠ lit "exit")
    ∧ (cmd :: rest = [] → 1 = 1 ∧ w' = w)).
  { intros w' Hne. split; [|split; [|done]].
    - split; [done|]. intros (c & r & [= <- <-] & ?). done.
    - split; [|done]. intros _. right. by exists cmd, rest. }
  destruct (decide (c_str cmd = lit "cd")) as [Hcd|_].
  { rewrite chrish_cd_eq. eexists 1, _. split; [done|].
    apply Hcont. by rewrite Hcd. }
  destruct (decide (c_str cmd = lit "help")) as [Hhelp|_].
  { rewrite chrish_help_eq by done. eexists 1, _. split; [done|].
    apply Hcont. by rewrite Hhelp. }
  destruct (decide (c_str cmd = lit "exit")) as [Hexit|Hne].
  { exists 0, w. split; [done|]. split; [|split; [|done]].
    - split; [|done]. intros _. by exists cmd, rest.
    - split; [done|]. intros [|(c & r & [= <- <-] & ?)]; done. }
  rewrite chrish_launch_eq.
  destruct (os_fork os (w_forks w)) as [e|pid].
  { eexists 1, _. split; [done|]. by apply Hcont. }
  destruct (os_execvp os (S (w_forks w)) ((cmd :: rest) !! 0%nat) (cmd :: rest))
    as [e|b] eqn:Hexec.
  - rewrite (bind_Ret _ _ _ tt _ (chrish_wait_ends _ [] (W_EXITED EXIT_FAILURE) [] _
               ltac:(constructor) eq_refl)).
    eexists 1, _. split; [done|]. by apply Hcont.
  - destruct (Exists_terminal_split b (Hend _ _ _ _ Hexec))
      as (stops & st & more & -> & Hstops & Hst).
    rewrite (bind_Ret _ _ _ tt _ (chrish_wait_ends _ stops st more _ Hstops Hst)).
    eexists 1, _. split; [done|]. by apply Hcont.
Qed.

(** C2.  Tokenization cuts the string a line holds at the characters of
    the delimiter set and returns its maximal runs of other characters,
    in order.  No token is empty and none holds a delimiter; a line
    written as N words with delimiters around them yields those N words;
    a line of delimiters yields the empty vector.  This holds when the
    allocator grants every request and the line is short enough for the
    [int] counters. *)
Theorem chrish_split_line_tokens (line : cstr) (w : world) :
  Z.of_nat (length line) + CHRISH_TOK_BUFSIZE ≤ INT_MAX →
  (∀ k, os_malloc os k = true) →
  let toks := maximal_runs (c_str line) in
  (∃ a junk w', chrish_split_line os line w = Ret (PAddr a, argv toks junk) w')
  ∧ Forall (λ t, t ≠ [] ∧ Forall (λ c, delimiter c = false) t) toks
  ∧ (∀ lead ws,
       c_str line = interleave lead ws →
       Forall (λ c, delimiter c = true) lead →
       Forall (λ p, p.1 ≠ [] ∧ Forall (λ c, delimiter c = false) p.1
                    ∧ Forall (λ c, delimiter c = true) p.2) ws →
       separated ws →
       toks = ws.*1 ∧ length toks = length ws)
  ∧ (Forall (λ c, delimiter c = true) (c_str line) → toks = [])
  ∧ (NUL ∉ line → c_str line = line).
Proof.
  intros Hmax Hos toks.
  destruct (chrish_split_line_spec os line w Hmax) as [Hok _].
  destruct Hok as (a & junk & s' & Heq & _); [by intros; apply Hos|].
  split; [by eexists a, junk, _|].
  split; [apply maximal_runs_tokens|].
  split; [|split; [apply maximal_runs_delims|apply c_str_id]].
  intros lead ws Hline Hlead Hws Hsep. subst toks. rewrite Hline.
  rewrite maximal_runs_interleave by done.
  split; [done|]. by rewrite length_fmap.
Qed.

(** C3.  [chrish_cd] with no argument behind the command name writes the
    usage message to standard error and leaves the working directory
    alone.  With an argument it calls [chdir] on it: on success the
    working directory is the new one, on failure the system's error is
    written to standard error and the working directory is unchanged.
    It returns 1, Continue, in each case. *)
Theorem chrish_cd_contract (cmd : cstr) (rest : list cstr) (junk : list slot)
    (w : world) :
  let args := argv (cmd :: rest) junk in
  (∃ w', chrish_cd os args w = Ret 1 w') ∧ signal_of 1 = Continue
  ∧ (rest = [] →
     ∃ w', chrish_cd os args w = Ret 1 w'
           ∧ w_err w' = w_err w ++ cd_usage ∧ w_cwd w' = w_cwd w
           ∧ w_out w' = w_out w)
  ∧ (∀ dir more d,
       rest = dir :: more → os_chdir os (w_cwd w) dir = inr d →
       chrish_cd os args w = Ret 1 (set_cwd d w))
  ∧ (∀ dir more e,
       rest = dir :: more → os_chdir os (w_cwd w) dir = inl e →
       ∃ w', chrish_cd os args w = Ret 1 w'
             ∧ w_err w' = w_err w ++ perror_text os e ∧ w_cwd w' = w_cwd w
             ∧ w_out w' = w_out w).
Proof.
  intros args. subst args. rewrite chrish_cd_eq.
  split; [by eexists|]. split; [done|].
  split; [intros ->; by eexists|].
  split.
  - intros dir more d -> Hd. by rewrite Hd.
  - intros dir more e -> He. rewrite He. by eexists.
Qed.

(** C4.  [chrish_launch] returns 1, Continue, and nothing else.  When
    [fork] fails it reports the error and does not wait.  When [execvp]
    fails the child reports the error and exits with a failure status,
    and the parent's wait ends on that exit.  Otherwise the parent waits
    through every stop of the child and ends the wait at its first exit
    or death by signal; if there is no such event it waits for ever. *)
Theorem chrish_launch_continue (toks : list cstr) (junk : list slot) (w : world) :
  let args := argv toks junk in
  let n := w_forks w in
  (programs_end os → ∃ w', chrish_launch os args w = Ret 1 w')
  ∧ (∀ r w', chrish_launch os args w = Ret r w' →
             r = 1 ∧ signal_of r = Continue)
  ∧ (∀ e, os_fork os n = inl e →
       ∃ w', chrish_launch os args w = Ret 1 w'
             ∧ w_err w' = w_err w ++ perror_text os e
             ∧ w_waits w' = w_waits w)
  ∧ (∀ pid e,
       os_fork os n = inr pid →
       os_execvp os (S n) (toks !! 0%nat) toks = inl e →
       (∃ wc, chrish_launch_from os 0 [] args (after_fork w)
              = Exit EXIT_FAILURE wc
              ∧ w_err wc = w_err w ++ perror_text os e)
       ∧ ∃ w', chrish_launch os args w = Ret 1 w'
               ∧ w_err w' = w_err w ++ perror_text os e
               ∧ w_waits w' = S (w_waits w))
  ∧ (∀ pid stops st rest,
       os_fork os n = inr pid →
       os_execvp os (S n) (toks !! 0%nat) toks = inr (stops ++ st :: rest) →
       Forall (λ s, terminal s = false) stops → terminal st = true →
       ∃ w', chrish_launch os args w = Ret 1 w'
             ∧ w_waits w' = (w_waits w + length stops + 1)%nat)
  ∧ (∀ pid stops,
       os_fork os n = inr pid →
       os_execvp os (S n) (toks !! 0%nat) toks = inr stops →
       Forall (λ s, terminal s = false) stops →
       ∃ w', chrish_launch os args w = Blocked w').
Proof.
  intros args n. subst args n.
  assert (Hexit : ∀ pid w0,
    (chrish_wait pid [W_EXITED EXIT_FAILURE];; ret 1) w0
    = Ret 1 (set_waits (w_waits w0 + 0 + 1) w0)).
  { intros pid w0.
    by rewrite (bind_Ret _ _ _ tt _ (chrish_wait_ends pid [] (W_EXITED EXIT_FAILURE)
                  [] w0 ltac:(constructor) eq_refl)). }
  split; [|split; [|split; [|split; [|split]]]].
  - intros Hend. rewrite chrish_launch_eq.
    destruct (os_fork os (w_forks w)) as [e|pid]; [by eexists|].
    destruct (os_execvp os (S (w_forks w)) (toks !! 0%nat) toks) as [e|b] eqn:Hexec.
    + rewrite Hexit. by eexists.
    + destruct (Exists_terminal_split b (Hend _ _ _ _ Hexec))
        as (stops & st & more & -> & Hstops & Hst).
      rewrite (bind_Ret _ _ _ tt _ (chrish_wait_ends _ stops st more _ Hstops Hst)).
      by eexists.
  - intros r w'. unfold chrish_launch.
    unfold mbind at 1, M_bind at 1, bind at 1.
    destruct (fork os _ w) as [[pid child] w1| | | | |]; try done.
    unfold chrish_launch_from, mbind, M_bind, bind.
    match goal with
    | |- match ?m w1 with _ => _ end = _ → _ => destruct (m w1); try done
    end.
    by intros [= <- _].
  - intros e He. rewrite chrish_launch_eq, He. by eexists.
  - intros pid e Hpid He. split.
    + rewrite chrish_launch_child_eq.
      change (w_forks (after_fork w)) with (S (w_forks w)). rewrite He.
      by eexists.
    + rewrite chrish_launch_eq, Hpid, He, Hexit. eexists. split; [done|].
      split; [done|]. simpl. lia.
  - intros pid stops st rest Hpid Hb Hstops Hst.
    rewrite chrish_launch_eq, Hpid, Hb.
    rewrite (bind_Ret _ _ _ tt _ (chrish_wait_ends _ stops st rest _ Hstops Hst)).
    by eexists.
  - intros pid stops Hpid Hb Hstops.
    rewrite chrish_launch_eq, Hpid, Hb.
    unfold mbind, M_bind, bind. rewrite chrish_wait_blocks by done. by eexists.
Qed.

(** C5, where the code departs from the claim.  At the end of the input
    the pass through the loop prints the prompt and -1 and dispatches
    nothing, but it does not reach [exit(EXIT_SUCCESS)]: [args] is then
    stale, never assigned in the first pass and freed by the pass before
    in the others, and [free(args)] is undefined; the loop stops there.
    No run of [main] ends by an exit with the success status, and none is
    cut short by the turns the model gives the loop.  The handlers of cd
    and help never call [exit]. *)
Theorem chrish_loop_eof_undefined (w : world) :
  (∀ w', main os w ≠ Exit EXIT_SUCCESS w')
  ∧ (∀ w', main os w ≠ Fuel w')
  ∧ (∀ args, never exits (chrish_cd os args) ∧ never exits (chrish_help args))
  ∧ (∀ fuel args,
       w_stdin w = [] → stale args w →
       ∃ u w', chrish_loop_body os args w = Undef u w'
               ∧ chrish_loop os (S fuel) args w = Undef u w'
               ∧ w_out w' = w_out w ++ lit "> " ++ fmt_d (-1) ++ [LF]
               ∧ w_forks w' = w_forks w ∧ w_cwd w' = w_cwd w).
Proof.
  split; [intros w'; apply main_never_exits_success|].
  split; [intros w'; apply main_never_out_of_fuel|].
  split.
  { intros args. split.
    - apply never_chrish_cd. by intros u [c ?].
    - apply never_chrish_help; [by intros u [c ?]|by intros [c ?]]. }
  intros fuel args Hin Hargs.
  destruct (chrish_loop_body_eof os args w Hin Hargs)
    as (w' & Heq & Hout & Hforks & Hcwd & _).
  eexists _, w'. split; [exact Heq|]. split; [|done].
  cbn [chrish_loop]. unfold mbind, M_bind, bind. by rewrite Heq.
Qed.


(** C7.  [chrish_help] does not look at its arguments.  It prints the
    banner, one line per entry of [builtin_str] in the order of the table,
    and the footer, so that cd, help and exit appear in that order; and it
    returns 1, Continue. *)
Theorem chrish_help_prints_builtins (args : list slot) (w : world) :
  tables_intact w →
  chrish_help args w = Ret 1 (set_out (λ o, o ++ help_text) w)
  ∧ signal_of 1 = Continue
  ∧ help_text
    = help_banner
        ++ (lit "  " ++ lit "cd" ++ [LF])
        ++ (lit "  " ++ lit "help" ++ [LF])
        ++ (lit "  " ++ lit "exit" ++ [LF])
        ++ help_footer
  ∧ ∃ pre mid1 mid2 post,
      help_text = pre ++ lit "cd" ++ mid1 ++ lit "help" ++ mid2
                      ++ lit "exit" ++ post.
Proof.
  intros Hw. split; [by apply chrish_help_eq|]. split; [done|].
  split; [done|].
  by exists (help_banner ++ lit "  "), ([LF] ++ lit "  "), ([LF] ++ lit "  "),
            ([LF] ++ help_footer).
Qed.

(** C8.  The token array starts with room for 64 slots and grows by 64
    whenever it is full, so that a line of [n] tokens, whatever [n], ends
    in an array of [64 * (n / 64 + 1)] slots after [1 + n / 64] requests
    to the allocator.  The first request that is refused, the initial one
    or a growth, ends the process: the allocation error is written to
    standard error, nothing to standard output, the array is released,
    no further request is made, and the exit status is that of failure. *)
Theorem chrish_split_line_storage (line : cstr) (w : world) :
  Z.of_nat (length line) + CHRISH_TOK_BUFSIZE ≤ INT_MAX →
  let toks := maximal_runs (c_str line) in
  let n := Z.of_nat (length toks) in
  let r := Z.to_nat (n / CHRISH_TOK_BUFSIZE) in
  ((∀ k, (k ≤ r)%nat → os_malloc os (w_brk w + k) = true) →
   ∃ a junk w',
     chrish_split_line os line w = Ret (PAddr a, argv toks junk) w'
     ∧ Z.of_nat (length (argv toks junk)) = capacity_for n
     ∧ n < capacity_for n
     ∧ w_brk w' = (w_brk w + S r)%nat
     ∧ w_err w' = w_err w)
  ∧ (∀ j, (j ≤ r)%nat → os_malloc os (w_brk w + j) = false →
          (∀ k, (k < j)%nat → os_malloc os (w_brk w + k) = true) →
     ∃ w',
       chrish_split_line os line w = Exit EXIT_FAILURE w'
       ∧ EXIT_FAILURE ≠ EXIT_SUCCESS
       ∧ w_err w' = w_err w ++ alloc_error
       ∧ w_out w' = w_out w
       ∧ w_live w' = w_live w
       ∧ w_brk w' = (w_brk w + S j)%nat).
Proof.
  intros Hmax toks n r.
  destruct (chrish_split_line_spec os line w Hmax) as [Hok Hfail].
  fold toks n in Hok, Hfail. split.
  - intros Hos. destruct (Hok Hos) as (a & junk & s' & Heq & _ & Hcap).
    eexists a, junk, _. split; [done|]. split; [done|].
    split; [|done].
    destruct (capacity_for_next n ltac:(lia)) as (? & _). lia.
  - intros j Hj Hno Hyes. destruct (Hfail j Hj Hno Hyes) as (s' & Heq).
    eexists. split; [done|]. by repeat split.
Qed.

(** C9, where the code departs from the claim.  With no input at all the
    first pass meets the end of the input; the line buffer is released,
    and then [free] is applied to [args], which has never been assigned:
    the release is not a valid one.  It is the same in a later pass, where
    [args] still holds the address freed by the pass before.  A pass that
    reads a line does release what it acquired: when the dispatch returns,
    the buffer and the vector, two distinct blocks that were not live
    before, have both been freed and the heap is what it was. *)
Theorem main_eof_invalid_free (w : world) :
  (w_stdin w = [] →
   ∃ w', main os w = Undef UB_free_indeterminate w' ∧ w_live w' = w_live w)
  ∧ (∀ args, w_stdin w = [] → stale args w →
       ∃ u w', chrish_loop_body os args w = Undef u w'
               ∧ (u = UB_free_indeterminate ∨ u = UB_free_dead)
               ∧ w_live w' = w_live w)
  ∧ (∀ args line rest,
       w_stdin w = line :: rest →
       Z.of_nat (length line) + CHRISH_TOK_BUFSIZE ≤ INT_MAX →
       (∀ k, os_malloc os k = true) →
       ∃ a b junk w2,
         a ≠ b ∧ (a ∉ w_live w) ∧ (b ∉ w_live w)
         ∧ w_live w2 = {[a]} ∪ ({[b]} ∪ w_live w)
         ∧ ∀ status w3,
             chrish_execute os (argv (maximal_runs (c_str line)) junk) w2
             = Ret status w3 →
             ∃ w', chrish_loop_body os args w = Ret (status, PAddr a) w'
                   ∧ w_live w' = w_live w ∧ stale (PAddr a) w').
Proof.
  split; [|split].
  - intros Hin. unfold main. rewrite Hin. simpl length.
    assert (Hstale : stale PIndet w) by (by left).
    destruct (chrish_loop_body_eof os PIndet w Hin Hstale)
      as (w' & Heq & _ & _ & _ & Hlive).
    exists w'. cbn [chrish_loop]. unfold mbind, M_bind, bind. by rewrite Heq.
  - intros args Hin Hargs.
    destruct (chrish_loop_body_eof os args w Hin Hargs)
      as (w' & Heq & _ & _ & _ & Hlive).
    eexists _, w'. split; [exact Heq|]. split; [|done].
    destruct args; auto.
  - intros args line rest Hin Hmax Hos.
    destruct (chrish_loop_body_releases os args w line rest Hin Hmax Hos)
      as (a & b & junk & w2 & Hab & Ha & Hb & Hlive & Hret).
    exists a, b, junk, w2. do 4 (split; [done|]).
    intros status w3 Hexec. eexists. split; [by apply Hret|].
    split; [done|]. right. by exists a.
Qed.


End Claims.

(** * The claims at concrete inputs *)

(** C1 on the vector of the line exit now. *)
Lemma chrish_execute_signal_witness :
  tables_intact (demo_world []) ∧ programs_end demo_os ∧
  ∃ status w',
    chrish_execute demo_os (argv [lit "exit"; lit "now"] []) (demo_world [])
    = Ret status w'
    ∧ signal_of status = Terminate.
Proof.
  assert (Ht : tables_intact (demo_world [])) by (split; reflexivity).
  assert (Hp : programs_end demo_os).
  { intros n file args b H. simpl in H.
    destruct (bool_decide (file = Some (lit "ls"))); inversion H.
    apply Exists_cons_tl, Exists_cons_hd. reflexivity. }
  split; [exact Ht|]. split; [exact Hp|].
  destruct (chrish_execute_signal demo_os [lit "exit"; lit "now"] []
              (demo_world []) Ht Hp) as (status & w' & Heq & Hterm & _).
  exists status, w'. split; [exact Heq|].
  apply Hterm. exists (lit "exit"), [lit "now"]. split; reflexivity.
Defined.

(** C2 on a line with two words and repeated blanks. *)
Lemma chrish_split_line_tokens_witness :
  Z.of_nat (length (lit "  ls   -l ")) + CHRISH_TOK_BUFSIZE ≤ INT_MAX ∧
  (∀ k, os_malloc demo_os k = true) ∧
  ∃ a junk w',
    chrish_split_line demo_os (lit "  ls   -l ") (demo_world [])
    = Ret (PAddr a, argv [lit "ls"; lit "-l"] junk) w'.
Proof.
  assert (Hmax : Z.of_nat (length (lit "  ls   -l ")) + CHRISH_TOK_BUFSIZE
                 ≤ INT_MAX) by (vm_compute; discriminate).
  assert (Hos : ∀ k, os_malloc demo_os k = true) by reflexivity.
  split; [exact Hmax|]. split; [exact Hos|].
  destruct (chrish_split_line_tokens demo_os (lit "  ls   -l ") (demo_world [])
              Hmax Hos) as [H _].
  exact H.
Defined.

(** C4 on the launch of a program that is stopped once and then exits. *)
Lemma chrish_launch_continue_witness :
  programs_end demo_os ∧
  ∃ w', chrish_launch demo_os (argv [lit "ls"] []) (demo_world []) = Ret 1 w'.
Proof.
  assert (Hp : programs_end demo_os).
  { intros n file args b H. simpl in H.
    destruct (bool_decide (file = Some (lit "ls"))); inversion H.
    apply Exists_cons_tl, Exists_cons_hd. reflexivity. }
  split; [exact Hp|].
  exact (proj1 (chrish_launch_continue demo_os [lit "ls"] [] (demo_world [])) Hp).
Defined.

(** C5 at the end of the input, with [args] freed by an earlier pass. *)
Lemma chrish_loop_eof_undefined_witness :
  w_stdin (demo_world []) = [] ∧ stale (PAddr 0) (demo_world []) ∧
  ∃ u w', chrish_loop demo_os 1 (PAddr 0) (demo_world []) = Undef u w'.
Proof.
  assert (Hin : w_stdin (demo_world []) = []) by reflexivity.
  assert (Hargs : stale (PAddr 0) (demo_world [])).
  { right. exists 0%nat. split; [reflexivity|]. apply not_elem_of_empty. }
  split; [exact Hin|]. split; [exact Hargs|].
  destruct (proj2 (proj2 (proj2
              (chrish_loop_eof_undefined demo_os (demo_world []))))
              0%nat (PAddr 0) Hin Hargs) as (u & w' & _ & Heq & _).
  exists u, w'. exact Heq.
Defined.



(** C7 in the world at startup. *)
Lemma chrish_help_prints_builtins_witness :
  tables_intact (demo_world []) ∧
  chrish_help (argv [lit "help"; lit "me"] []) (demo_world [])
  = Ret 1 (set_out (λ o, o ++ help_text) (demo_world [])).
Proof.
  assert (Ht : tables_intact (demo_world [])) by (split; reflexivity).
  split; [exact Ht|].
  exact (proj1 (chrish_help_prints_builtins (argv [lit "help"; lit "me"] [])
                  (demo_world []) Ht)).
Defined.

(** C8 on a line of 65 tokens: the array has grown once, to 128 slots. *)
Lemma chrish_split_line_storage_witness :
  Z.of_nat (length (concat (replicate 65 (lit "a ")))) + CHRISH_TOK_BUFSIZE
    ≤ INT_MAX ∧
  ∃ a junk w',
    chrish_split_line demo_os (concat (replicate 65 (lit "a "))) (demo_world [])
    = Ret (PAddr a, argv (replicate 65 (lit "a")) junk) w'
    ∧ Z.of_nat (length (argv (replicate 65 (lit "a")) junk)) = 128.
Proof.
  assert (Hmax : Z.of_nat (length (concat (replicate 65 (lit "a "))))
                   + CHRISH_TOK_BUFSIZE ≤ INT_MAX) by (vm_compute; discriminate).
  split; [exact Hmax|].
  destruct (proj1 (chrish_split_line_storage demo_os
                     (concat (replicate 65 (lit "a "))) (demo_world []) Hmax))
    as (a & junk & w' & Heq & Hlen & _).
  { intros k _. reflexivity. }
  exists a, junk, w'. split; [exact Heq|exact Hlen].
Defined.

(** C9 on the empty input. *)
Lemma main_eof_invalid_free_witness :
  w_stdin (demo_world []) = [] ∧
  ∃ w', main demo_os (demo_world []) = Undef UB_free_indeterminate w'.
Proof.
  assert (Hin : w_stdin (demo_world []) = []) by reflexivity.
  split; [exact Hin|].
  destruct (proj1 (main_eof_invalid_free demo_os (demo_world [])) Hin)
    as (w' & Heq & _).
  exists w'. exact Heq.
Defined.

(** * Whole runs *)

(** The line exit ends the loop, and [main] returns success. *)
Example run_exit :
  ∃ w', main demo_os (demo_world [lit "exit" ++ [LF]]) = Ret EXIT_SUCCESS w'.
Proof. eexists. by vm_compute. Qed.

(** A command and then the end of the input: [args] was freed at the end
    of the first pass and is freed again in the second. *)
Example run_help_then_eof :
  ∃ w', main demo_os (demo_world [lit "help" ++ [LF]]) = Undef UB_free_dead w'.
Proof. eexists. by vm_compute. Qed.

(** cd with and without a usable argument, an unknown program, a program
    that runs, an empty line, and exit. *)
Example run_session :
  let o := main demo_os
             (demo_world [lit "cd" ++ [LF]; lit "cd /tmp" ++ [LF];
                          lit "cd /nope" ++ [LF]; lit "nosuch" ++ [LF];
                          lit "ls -l" ++ [LF]; [LF]; lit "exit" ++ [LF]]) in
  (∃ w', o = Ret EXIT_SUCCESS w')
  ∧ w_cwd (final o) = lit "/tmp"
  ∧ w_err (final o)
    = cd_usage ++ perror_text demo_os 2 ++ perror_text demo_os 2
  ∧ w_live (final o) = ∅
  ∧ w_waits (final o) = 3%nat.
Proof.
  split; [eexists; by vm_compute|]. repeat split; by vm_compute.
Qed.

(** * Further properties *)

(** The system of the examples. *)
Lemma demo_programs_end : programs_end demo_os.
Proof.
  intros n file args b H. simpl in H.
  destruct (bool_decide (file = Some (lit "ls"))); inversion H.
  apply Exists_cons_tl, Exists_cons_hd. reflexivity.
Defined.

Lemma demo_grants : grants demo_os.
Proof. intros k. reflexivity. Defined.

Lemma demo_tables_intact (input : list cstr) : tables_intact (demo_world input).
Proof. split; reflexivity. Defined.

(** ** The tokenizer *)

(** X2.  The tokens, one behind the other, are the characters of the
    line that are not delimiters, in the order of the line: tokenization
    drops delimiters and nothing else, and it keeps quotes, backslashes
    and every other character as they are. *)
Theorem chrish_split_line_characters (os : OS) (line : cstr) (w : world) :
  line_fits line → grants os →
  ∃ toks,
    tokens_returned (chrish_split_line os line w) = Some toks
    ∧ concat toks = filter (λ c, delimiter c = false) (c_str line).
Proof.
  intros Hmax Hos. exists (maximal_runs (c_str line)).
  split; [by apply chrish_split_line_returned|apply concat_maximal_runs].
Qed.

Lemma chrish_split_line_characters_witness :
  line_fits (lit "echo 'a  b'") ∧ grants demo_os ∧
  ∃ toks,
    tokens_returned
      (chrish_split_line demo_os (lit "echo 'a  b'") (demo_world []))
    = Some toks
    ∧ concat toks = lit "echo'ab'".
Proof.
  assert (Hmax : line_fits (lit "echo 'a  b'")) by (vm_compute; discriminate).
  split; [exact Hmax|]. split; [exact demo_grants|].
  exact (chrish_split_line_characters demo_os (lit "echo 'a  b'")
           (demo_world []) Hmax demo_grants).
Defined.

(** X3.  Tokenization goes through a delimiter: the tokens of a line,
    a delimiter and another line are the tokens of the first line and
    then those of the second.  The first line must end where it seems
    to, that is hold no NUL. *)
Theorem chrish_split_line_join (os : OS) (l1 l2 : cstr) (d : ascii)
    (t1 t2 : list cstr) (w1 w2 w : world) :
  NUL ∉ l1 → delimiter d = true →
  line_fits (l1 ++ d :: l2) → grants os →
  tokens_returned (chrish_split_line os l1 w1) = Some t1 →
  tokens_returned (chrish_split_line os l2 w2) = Some t2 →
  tokens_returned (chrish_split_line os (l1 ++ d :: l2) w) = Some (t1 ++ t2).
Proof.
  intros Hnul Hd Hmax Hos H1 H2.
  assert (Hlen : length (l1 ++ d :: l2) = (length l1 + S (length l2))%nat)
    by (by rewrite length_app).
  unfold line_fits in Hmax.
  rewrite chrish_split_line_returned in H1 by (unfold line_fits; lia || done).
  rewrite chrish_split_line_returned in H2 by (unfold line_fits; lia || done).
  injection H1 as <-. injection H2 as <-.
  rewrite chrish_split_line_returned by done.
  rewrite c_str_prefix by done. simpl.
  destruct (Ascii.eqb_spec d NUL) as [->|_]; [done|].
  by rewrite maximal_runs_app, (c_str_id l1).
Qed.

Lemma chrish_split_line_join_witness :
  (NUL ∉ lit "ls -l") ∧ delimiter "009" = true
  ∧ line_fits (lit "ls -l" ++ "009"%char :: lit "/tmp ") ∧ grants demo_os
  ∧ tokens_returned (chrish_split_line demo_os (lit "ls -l") (demo_world []))
    = Some [lit "ls"; lit "-l"]
  ∧ tokens_returned (chrish_split_line demo_os (lit "/tmp ") (demo_world []))
    = Some [lit "/tmp"]
  ∧ tokens_returned
      (chrish_split_line demo_os (lit "ls -l" ++ "009"%char :: lit "/tmp ")
         (demo_world []))
    = Some ([lit "ls"; lit "-l"] ++ [lit "/tmp"]).
Proof.
  assert (Hnul : NUL ∉ lit "ls -l").
  { apply (bool_decide_unpack _). vm_compute. reflexivity. }
  assert (Hd : delimiter "009" = true) by reflexivity.
  assert (Hmax : line_fits (lit "ls -l" ++ "009"%char :: lit "/tmp "))
    by (vm_compute; discriminate).
  assert (H1 : tokens_returned
                 (chrish_split_line demo_os (lit "ls -l") (demo_world []))
               = Some [lit "ls"; lit "-l"]) by (vm_compute; reflexivity).
  assert (H2 : tokens_returned
                 (chrish_split_line demo_os (lit "/tmp ") (demo_world []))
               = Some [lit "/tmp"]) by (vm_compute; reflexivity).
  split; [exact Hnul|]. split; [exact Hd|]. split; [exact Hmax|].
  split; [exact demo_grants|]. split; [exact H1|]. split; [exact H2|].
  exact (chrish_split_line_join demo_os (lit "ls -l") (lit "/tmp ") "009"%char
           [lit "ls"; lit "-l"] [lit "/tmp"] (demo_world []) (demo_world [])
           (demo_world []) Hnul Hd Hmax demo_grants H1 H2).
Defined.

(** X4.  A round trip: the tokens a line gave, written out with one
    space between two and tokenized again, are the same tokens. *)
Theorem chrish_split_line_unwords (os : OS) (line : cstr) (toks : list cstr)
    (w w' : world) :
  line_fits line → grants os →
  tokens_returned (chrish_split_line os line w) = Some toks →
  tokens_returned (chrish_split_line os (unwords toks) w') = Some toks.
Proof.
  intros Hmax Hos Htoks.
  rewrite chrish_split_line_returned in Htoks by done. injection Htoks as <-.
  assert (Hnul : NUL ∉ unwords (maximal_runs (c_str line))).
  { apply unwords_nul_free, Forall_forall. intros t Ht Hin.
    apply (c_str_nul_free line). by apply (maximal_runs_chars _ t). }
  rewrite chrish_split_line_returned; [|unfold line_fits in *|done].
  - rewrite c_str_id by done.
    by rewrite maximal_runs_unwords by apply maximal_runs_tokens.
  - pose proof (unwords_maximal_runs_length (c_str line)).
    pose proof (c_str_length line). lia.
Qed.

Lemma chrish_split_line_unwords_witness :
  line_fits (lit "  cd   /tmp ") ∧ grants demo_os
  ∧ tokens_returned
      (chrish_split_line demo_os (lit "  cd   /tmp ") (demo_world []))
    = Some [lit "cd"; lit "/tmp"]
  ∧ tokens_returned
      (chrish_split_line demo_os (lit "cd /tmp") (demo_world []))
    = Some [lit "cd"; lit "/tmp"].
Proof.
  assert (Hmax : line_fits (lit "  cd   /tmp ")) by (vm_compute; discriminate).
  assert (H1 : tokens_returned
                 (chrish_split_line demo_os (lit "  cd   /tmp ") (demo_world []))
               = Some [lit "cd"; lit "/tmp"]) by (vm_compute; reflexivity).
  split; [exact Hmax|]. split; [exact demo_grants|]. split; [exact H1|].
  exact (chrish_split_line_unwords demo_os (lit "  cd   /tmp ")
           [lit "cd"; lit "/tmp"] (demo_world []) (demo_world [])
           Hmax demo_grants H1).
Defined.

(** X5.  [chrish_split_line] never returns NULL: whenever it returns,
    whatever the line and the allocator, it returns the address of a
    block, so that its caller needs no check.  When the line fits and the
    allocator grants, that block was not live before and is the only one
    the call has added to the heap, however often the vector has been
    moved by [realloc]. *)
Theorem chrish_split_line_block (os : OS) (line : cstr) (w : world) :
  (∀ p arr w', chrish_split_line os line w = Ret (p, arr) w' → is_addr p)
  ∧ (line_fits line → grants os →
     ∃ a arr w',
       chrish_split_line os line w = Ret (PAddr a, arr) w'
       ∧ (a ∉ w_live w) ∧ w_live w' = {[a]} ∪ w_live w).
Proof.
  split.
  - intros p arr w' Heq.
    by apply (returns_chrish_split_line os line w (p, arr) w').
  - intros Hmax Hos.
    destruct (chrish_split_line_spec os line w Hmax) as [Hok _].
    destruct Hok as (a & junk & s' & Heq & Ha & _); [by intros; apply Hos|].
    by eexists a, _, _.
Qed.

Lemma chrish_split_line_block_witness :
  line_fits (concat (replicate 130 (lit "a "))) ∧ grants demo_os ∧
  ∃ a arr w',
    chrish_split_line demo_os (concat (replicate 130 (lit "a ")))
      (demo_world [])
    = Ret (PAddr a, arr) w'
    ∧ w_live w' = {[a]} ∪ ∅.
Proof.
  assert (Hmax : line_fits (concat (replicate 130 (lit "a "))))
    by (vm_compute; discriminate).
  split; [exact Hmax|]. split; [exact demo_grants|].
  destruct (proj2 (chrish_split_line_block demo_os
                     (concat (replicate 130 (lit "a "))) (demo_world []))
              Hmax demo_grants) as (a & arr & w' & Heq & _ & Hlive).
  exists a, arr, w'. split; [exact Heq|exact Hlive].
Defined.

(** ** The dispatch *)

(** X6.  On a well-formed vector [chrish_execute] returns 0 for the exit
    builtin and 1 for everything else, or it blocks, and it blocks only
    in the wait for a program that never ends.  It makes one call of
    [fork] when the first token is none of the builtin names, and none
    for a builtin and for the empty vector. *)
Theorem chrish_execute_outcomes (os : OS) (toks : list cstr)
    (junk : list slot) (w : world) :
  tables_intact w →
  let n := if launches toks then S (w_forks w) else w_forks w in
  (∃ w', chrish_execute os (argv toks junk) w = Ret (status_of toks) w'
         ∧ w_forks w' = n)
  ∨ (∃ w', chrish_execute os (argv toks junk) w = Blocked w'
           ∧ w_forks w' = n ∧ launches toks = true ∧ ¬ programs_end os).
Proof. apply chrish_execute_cases. Qed.

Lemma chrish_execute_outcomes_witness :
  tables_intact (demo_world []) ∧
  ∃ w', chrish_execute demo_os (argv [lit "cdx"; lit "/tmp"] []) (demo_world [])
        = Ret 1 w'
        ∧ w_forks w' = 1%nat.
Proof.
  split; [exact (demo_tables_intact [])|].
  destruct (chrish_execute_outcomes demo_os [lit "cdx"; lit "/tmp"] []
              (demo_world []) (demo_tables_intact []))
    as [H|(w' & _ & _ & _ & Hno)].
  - exact H.
  - destruct (Hno demo_programs_end).
Defined.

(** X7.  Whatever the vector and however it ends, [chrish_execute]
    leaves the heap of the shell and the position of [strtok] as they
    are: no builtin and no launch allocates or frees in the shell
    process.  A launch, moreover, leaves the working directory of the
    shell as it is, whatever the program does: only the builtin cd can
    change it. *)
Theorem chrish_execute_frame (os : OS) (args : list slot) :
  keeps (λ w, (w_live w, w_brk w, w_strtok w)) (chrish_execute os args)
  ∧ keeps w_cwd (chrish_launch os args).
Proof.
  split; [by apply keeps_chrish_execute|by apply keeps_chrish_launch].
Qed.

(** X8.  Whatever the line and however it ends, also on the path of a
    refused allocation, [chrish_split_line] leaves the working
    directory, the pending input, the builtin tables and the counts of
    forks and waits as they are; [chrish_read_line] leaves both output
    streams, the working directory, the position of [strtok], the tables
    and the two counts as they are. *)
Theorem chrish_split_line_frame (os : OS) (line : cstr) :
  keeps (λ w, (w_cwd w, w_stdin w, w_forks w, w_waits w, tables w))
    (chrish_split_line os line)
  ∧ keeps (λ w, (w_out w, w_err w, w_cwd w, w_forks w, w_waits w,
                 w_strtok w, tables w))
      (chrish_read_line os).
Proof.
  split; [by apply keeps_chrish_split_line|by apply keeps_chrish_read_line].
Qed.

(** X9.  The builtins, whatever their arguments.  [chrish_cd] writes
    nothing to standard output and touches neither the heap nor the
    input, forks nothing and waits for nothing; [chrish_help] changes
    nothing but standard output; [chrish_exit] changes nothing at all
    and returns 0, also when it is given arguments. *)
Theorem builtins_frame (os : OS) (args : list slot) :
  keeps (λ w, (w_out w, w_live w, w_brk w, w_stdin w, w_forks w, w_waits w,
               w_strtok w, tables w))
    (chrish_cd os args)
  ∧ keeps (λ w, (w_err w, w_cwd w, w_stdin w, w_live w, w_brk w,
                 w_forks w, w_waits w, w_strtok w, tables w))
      (chrish_help args)
  ∧ ∀ w, chrish_exit args w = Ret 0 w.
Proof.
  split; [by apply keeps_chrish_cd|]. split; [by apply keeps_chrish_help|done].
Qed.

(** X10.  The child that [chrish_launch] forks never comes back into
    the loop of the shell: whatever the vector, the code behind
    [pid == 0] does not return, does not wait and forks nothing; if it
    calls [exit], the status is that of failure.  On a well-formed vector
    it is replaced by the program when [execvp] succeeds, and exits with
    [perror]'s line on standard error when [execvp] fails. *)
Theorem chrish_launch_child (os : OS) (child : list wstatus)
    (args : list slot) (w : world) :
  let o := chrish_launch_from os 0 child args w in
  (∀ r w', o ≠ Ret r w')
  ∧ (∀ w', o ≠ Blocked w')
  ∧ (∀ c w', o = Exit c w' → c = EXIT_FAILURE)
  ∧ w_forks (final o) = w_forks w ∧ w_waits (final o) = w_waits w
  ∧ (∀ toks junk, args = argv toks junk →
       match os_execvp os (w_forks w) (toks !! 0%nat) toks with
       | inr behaviour => o = Replaced behaviour w
       | inl e => ∃ w', o = Exit EXIT_FAILURE w'
                        ∧ w_err w' = w_err w ++ perror_text os e
       end).
Proof.
  intros o. subst o.
  split; [intros r w' Heq; by apply (returns_chrish_launch_child _ _ _ _ _ _ Heq)|].
  assert (Hnever : never (λ s, s = StopBlocked
                               ∨ exits_with (λ c, c ≠ EXIT_FAILURE) s)
                     (chrish_launch_from os 0 child args)).
  { apply never_chrish_launch_child.
    - by intros u [?|(c & ? & ?)].
    - by intros [?|(c & [= <-] & ?)].
    - by intros b [?|(c & ? & ?)]. }
  split; [|split; [|split; [|split]]].
  - intros w' Heq. apply (Hnever w StopBlocked); [by rewrite Heq|by left].
  - intros c w' Heq. destruct (decide (c = EXIT_FAILURE)) as [|Hc]; [done|].
    destruct (Hnever w (StopExit c)); [by rewrite Heq|].
    right. by exists c.
  - by apply (keeps_chrish_launch_child os w_forks).
  - by apply (keeps_chrish_launch_child os w_waits).
  - intros toks junk ->.
    change (chrish_launch_from os 0 child (argv toks junk) w)
      with (chrish_launch_from os 0 [] (argv toks junk) w).
    rewrite chrish_launch_child_eq.
    destruct (os_execvp os (w_forks w) (toks !! 0%nat) toks); [|done].
    by eexists.
Qed.

(** ** The shell process *)

(** X11.  The calls of [exit] in the shell process.  If [main] ends by
    a call of [exit], the status is that of failure or that of success,
    and the status of failure is that of a refused allocation: with an
    allocator that never refuses, [main] does not end by
    [exit(EXIT_FAILURE)].  The image of the shell process is never
    replaced by a program: [execvp] runs in the child only. *)
Theorem main_exit_codes (os : OS) (w : world) :
  (∀ c w', main os w = Exit c w' → c = EXIT_FAILURE ∨ c = EXIT_SUCCESS)
  ∧ (∀ b w', main os w ≠ Replaced b w')
  ∧ (grants os → ∀ w', main os w ≠ Exit EXIT_FAILURE w').
Proof.
  split; [|split].
  - intros c w' Heq.
    destruct (decide (c = EXIT_FAILURE)) as [|Hf]; [by left|].
    destruct (decide (c = EXIT_SUCCESS)) as [|Hs]; [by right|].
    exfalso.
    apply (never_main os (exits_with (λ c, c ≠ EXIT_FAILURE ∧ c ≠ EXIT_SUCCESS)))
      with (w := w) (s := StopExit c).
    + by intros u (? & ? & ?).
    + by intros (? & ? & ?).
    + by intros (? & ? & ?).
    + by intros (? & [= <-] & ? & ?).
    + intros line. apply never_chrish_split_line.
      * by intros u (? & ? & ?).
      * by intros (? & [= <-] & ? & ?).
      * by intros (? & ? & ?).
    + by rewrite Heq.
    + by exists c.
  - intros b w' Heq.
    apply (never_main os replaced) with (w := w) (s := StopReplaced b).
    + by intros u (? & ?).
    + by intros (? & ?).
    + by intros (? & ?).
    + by intros (? & ?).
    + intros line. apply never_chrish_split_line.
      * by intros u (? & ?).
      * by intros (? & ?).
      * by intros (? & ?).
    + by rewrite Heq.
    + by exists b.
  - intros Hos w' Heq.
    apply (never_main os (exits_with (λ c, c ≠ EXIT_SUCCESS)))
      with (w := w) (s := StopExit EXIT_FAILURE).
    + by intros u (? & ? & ?).
    + by intros (? & ? & ?).
    + by intros (? & ? & ?).
    + by intros (? & [= <-] & ?).
    + intros line. apply never_chrish_split_line_granted; [done| |].
      * by intros u (? & ? & ?).
      * by intros (? & ? & ?).
    + by rewrite Heq.
    + by exists EXIT_FAILURE.
Qed.

Lemma main_exit_codes_witness :
  grants demo_os
  ∧ ∀ w', main demo_os (demo_world [lit "ls" ++ [LF]]) ≠ Exit EXIT_FAILURE w'.
Proof.
  split; [exact demo_grants|].
  exact (proj2 (proj2 (main_exit_codes demo_os (demo_world [lit "ls" ++ [LF]])))
           demo_grants).
Defined.

(** X12.  What [main] does with a session of builtins: the tables are
    as initialised, the allocator grants, the lines fit, and no line in
    front of the first exit command launches a program, so that the shell
    is the only reader of its input.  If some line has exit as its first
    token, [main] returns EXIT_SUCCESS at the first such line and the
    lines behind it are left unread.  With no such line every line is
    read and the run reaches, at the end of the input, the free of a
    pointer that is uninitialised when there was no line at all and
    already freed otherwise. *)
Theorem main_outcome (os : OS) (w : world) :
  launched (w_stdin w) = 0%nat → grants os → tables_intact w →
  Forall line_fits (w_stdin w) →
  (∀ rest, after_exit (w_stdin w) = Some rest →
     ∃ w', main os w = Ret EXIT_SUCCESS w' ∧ w_stdin w' = rest)
  ∧ (after_exit (w_stdin w) = None →
     ∃ u w', main os w = Undef u w'
             ∧ (w_stdin w = [] → u = UB_free_indeterminate)
             ∧ (w_stdin w ≠ [] → u = UB_free_dead)).
Proof.
  intros Hquiet Hos Hw Hfit.
  pose proof (main_run os w (or_intror Hquiet) Hos Hw Hfit) as Hrun.
  destruct (after_exit (w_stdin w)) as [rest|].
  - destruct Hrun as (w' & Heq & Hin & _).
    split; [intros ? [= <-]; by exists w'|done].
  - destruct Hrun as (u & w' & Heq & _ & _ & Hi & Hd).
    split; [done|]. intros _. by exists u, w'.
Qed.

Lemma main_outcome_witness :
  launched [lit "help" ++ [LF]; lit " exit 3" ++ [LF]; lit "ls" ++ [LF]]
  = 0%nat
  ∧ grants demo_os
  ∧ tables_intact (demo_world [lit "help" ++ [LF]; lit " exit 3" ++ [LF];
                               lit "ls" ++ [LF]])
  ∧ Forall line_fits [lit "help" ++ [LF]; lit " exit 3" ++ [LF];
                      lit "ls" ++ [LF]]
  ∧ ∃ w', main demo_os (demo_world [lit "help" ++ [LF]; lit " exit 3" ++ [LF];
                                    lit "ls" ++ [LF]])
          = Ret EXIT_SUCCESS w'
          ∧ w_stdin w' = [lit "ls" ++ [LF]].
Proof.
  assert (Hquiet : launched [lit "help" ++ [LF]; lit " exit 3" ++ [LF];
                             lit "ls" ++ [LF]] = 0%nat)
    by (vm_compute; reflexivity).
  assert (Hfit : Forall line_fits [lit "help" ++ [LF]; lit " exit 3" ++ [LF];
                                   lit "ls" ++ [LF]]).
  { repeat constructor; vm_compute; discriminate. }
  split; [exact Hquiet|]. split; [exact demo_grants|].
  split; [exact (demo_tables_intact _)|]. split; [exact Hfit|].
  exact (proj1 (main_outcome demo_os
                  (demo_world [lit "help" ++ [LF]; lit " exit 3" ++ [LF];
                               lit "ls" ++ [LF]])
                  Hquiet demo_grants (demo_tables_intact _) Hfit)
           [lit "ls" ++ [LF]] eq_refl).
Defined.

(** X13.  When the tables are as initialised, every program ends, the
    allocator grants and the lines fit, [main] ends with the heap it began
    with: every line buffer and every vector the loop has allocated has
    been freed by the pass that allocated it, at the return behind an
    exit command and at the end of the input alike. *)
Theorem main_heap_restored (os : OS) (w : world) :
  programs_end os → grants os → tables_intact w →
  Forall line_fits (w_stdin w) →
  w_live (final (main os w)) = w_live w.
Proof.
  intros Hend Hos Hw Hfit.
  pose proof (main_run os w (or_introl Hend) Hos Hw Hfit) as Hrun.
  destruct (after_exit (w_stdin w)) as [rest|].
  - by destruct Hrun as (w' & -> & _ & ? & _).
  - by destruct Hrun as (u & w' & -> & ? & _).
Qed.

Lemma main_heap_restored_witness :
  programs_end demo_os ∧ grants demo_os
  ∧ tables_intact (demo_world [lit "ls -l" ++ [LF]; lit "exit" ++ [LF]])
  ∧ Forall line_fits [lit "ls -l" ++ [LF]; lit "exit" ++ [LF]]
  ∧ w_live (final (main demo_os
                     (demo_world [lit "ls -l" ++ [LF]; lit "exit" ++ [LF]])))
    = ∅.
Proof.
  assert (Hfit : Forall line_fits [lit "ls -l" ++ [LF]; lit "exit" ++ [LF]]).
  { repeat constructor; vm_compute; discriminate. }
  split; [exact demo_programs_end|]. split; [exact demo_grants|].
  split; [exact (demo_tables_intact _)|]. split; [exact Hfit|].
  exact (main_heap_restored demo_os
           (demo_world [lit "ls -l" ++ [LF]; lit "exit" ++ [LF]])
           demo_programs_end demo_grants (demo_tables_intact _) Hfit).
Defined.

(** X14.  A blank line.  On a line that holds delimiters only, the
    newline alone for instance, the pass through the loop prints the
    prompt, the length of the line and the count 0, dispatches nothing
    and returns 1: no fork, no wait, nothing on standard error, the
    working directory and the heap as before, and the next line is the
    next to be read.  This needs nothing of the builtin tables. *)
Theorem chrish_loop_body_blank (os : OS) (args : ptr) (w : world) (l : cstr)
    (rest : list cstr) :
  w_stdin w = l :: rest →
  Forall (λ c, delimiter c = true) (c_str l) →
  line_fits l → grants os →
  ∃ a w',
    chrish_loop_body os args w = Ret (1, PAddr a) w'
    ∧ w_stdin w' = rest
    ∧ w_out w' = w_out w ++ lit "> " ++ fmt_d (Z.of_nat (length l)) ++ [LF]
                   ++ lit "0" ++ [LF]
    ∧ w_err w' = w_err w ∧ w_cwd w' = w_cwd w
    ∧ w_forks w' = w_forks w ∧ w_waits w' = w_waits w
    ∧ w_live w' = w_live w.
Proof.
  intros Hin Hblank Hmax Hos.
  destruct (chrish_loop_body_pass os args w l rest Hin Hmax Hos)
    as (a & junk & w2 & _ & Hin2 & _ & Hforks & Hcwd & Herr & Hwaits & Hout
        & Hret & _).
  rewrite (maximal_runs_delims _ Hblank) in Hret, Hout.
  specialize (Hret 1 w2 eq_refl).
  exists a, (set_heap (w_live w) (w_brk w2) w2). by split.
Qed.

Lemma chrish_loop_body_blank_witness :
  w_stdin (demo_world [[LF]; lit "exit" ++ [LF]]) = [LF] :: [lit "exit" ++ [LF]]
  ∧ Forall (λ c, delimiter c = true) (c_str [LF])
  ∧ line_fits [LF] ∧ grants demo_os
  ∧ ∃ a w',
      chrish_loop_body demo_os PIndet (demo_world [[LF]; lit "exit" ++ [LF]])
      = Ret (1, PAddr a) w'
      ∧ w_stdin w' = [lit "exit" ++ [LF]]
      ∧ w_out w' = lit "> " ++ lit "1" ++ [LF] ++ lit "0" ++ [LF].
Proof.
  assert (Hin : w_stdin (demo_world [[LF]; lit "exit" ++ [LF]])
                = [LF] :: [lit "exit" ++ [LF]]) by reflexivity.
  assert (Hblank : Forall (λ c, delimiter c = true) (c_str [LF]))
    by (repeat constructor).
  assert (Hmax : line_fits [LF]) by (vm_compute; discriminate).
  split; [exact Hin|]. split; [exact Hblank|]. split; [exact Hmax|].
  split; [exact demo_grants|].
  destruct (chrish_loop_body_blank demo_os PIndet
              (demo_world [[LF]; lit "exit" ++ [LF]]) [LF]
              [lit "exit" ++ [LF]] Hin Hblank Hmax demo_grants)
    as (a & w' & Heq & Hrest & Hout & _).
  exists a, w'. split; [exact Heq|]. split; [exact Hrest|exact Hout].
Defined.

(** X15.  The dispatch never reads behind the NULL that ends the
    vector: what the slots behind it hold, initialised or not, changes
    nothing of what [chrish_execute] does, for a builtin and for a launch
    alike. *)
Theorem chrish_execute_ignores_junk (os : OS) (toks : list cstr)
    (junk junk' : list slot) (w : world) :
  tables_intact w →
  chrish_execute os (argv toks junk) w = chrish_execute os (argv toks junk') w.
Proof.
  intros Hw. rewrite !chrish_execute_eq by done.
  destruct toks as [|cmd rest]; [done|].
  repeat case_decide.
  - by rewrite !chrish_cd_eq.
  - by rewrite !chrish_help_eq.
  - done.
  - by rewrite !chrish_launch_eq.
Qed.

Lemma chrish_execute_ignores_junk_witness :
  tables_intact (demo_world []) ∧
  chrish_execute demo_os (argv [lit "cd"; lit "/tmp"] [Uninit; Uninit])
    (demo_world [])
  = chrish_execute demo_os (argv [lit "cd"; lit "/tmp"] []) (demo_world []).
Proof.
  split; [exact (demo_tables_intact [])|].
  exact (chrish_execute_ignores_junk demo_os [lit "cd"; lit "/tmp"]
           [Uninit; Uninit] [] (demo_world []) (demo_tables_intact [])).
Defined.

(** X16.  A refused allocation in the read is taken for the end of the
    input.  When the allocator refuses the line buffer, the pass prints
    the prompt and -1 and goes the way of the end of the input, although
    lines are pending: the input is left as it is, nothing is written to
    standard error, and the pass stops in the same free of a stale
    [args]. *)
Theorem chrish_loop_body_refused (os : OS) (args : ptr) (w : world) :
  os_malloc os (w_brk w) = false → stale args w →
  ∃ u w',
    chrish_loop_body os args w = Undef u w'
    ∧ w_stdin w' = w_stdin w ∧ w_err w' = w_err w
    ∧ w_out w' = w_out w ++ lit "> " ++ fmt_d (-1) ++ [LF]
    ∧ w_errno w' = ENOMEM ∧ w_live w' = w_live w.
Proof.
  intros Hos Hargs. unfold chrish_loop_body.
  rewrite (bind_Ret _ _ _ _ _ (printf_eq _ _)). cbn beta.
  set (w0 := set_out (λ o, o ++ lit "> ") w).
  assert (Hread : chrish_read_line os w0
                  = Ret (-1, PNull, [])
                        (set_errno ENOMEM
                           (set_heap (w_live w0) (S (w_brk w0)) w0))).
  { unfold chrish_read_line.
    by rewrite (bind_Ret _ _ _ _ _ (malloc_fail os w0 Hos)). }
  rewrite (bind_Ret _ _ _ _ _ Hread). cbn beta iota.
  rewrite (bind_Ret _ _ _ _ _ (printf_eq _ _)). cbn beta.
  change (-1 =? -1) with true. cbn iota.
  match goal with |- context [(free PNull ≫= _) ?w] =>
    rewrite (bind_Ret _ _ _ tt w (eq_refl : free PNull w = Ret tt w)) end.
  cbn beta. unfold mbind, M_bind, bind, free.
  destruct Hargs as [->|(a & -> & Ha)].
  - eexists _, _. split; [done|]. simpl. by rewrite <- app_assoc.
  - rewrite bool_decide_eq_false_2 by done.
    eexists _, _. split; [done|]. simpl. by rewrite <- app_assoc.
Qed.

Lemma chrish_loop_body_refused_witness :
  os_malloc refusing_os (w_brk (demo_world [lit "ls" ++ [LF]])) = false
  ∧ stale PIndet (demo_world [lit "ls" ++ [LF]])
  ∧ ∃ u w',
      chrish_loop_body refusing_os PIndet (demo_world [lit "ls" ++ [LF]])
      = Undef u w'
      ∧ w_stdin w' = [lit "ls" ++ [LF]].
Proof.
  assert (Hos : os_malloc refusing_os (w_brk (demo_world [lit "ls" ++ [LF]]))
                = false) by reflexivity.
  assert (Hargs : stale PIndet (demo_world [lit "ls" ++ [LF]]))
    by (left; reflexivity).
  split; [exact Hos|]. split; [exact Hargs|].
  destruct (chrish_loop_body_refused refusing_os PIndet
              (demo_world [lit "ls" ++ [LF]]) Hos Hargs)
    as (u & w' & Heq & Hin & _).
  exists u, w'. split; [exact Heq|exact Hin].
Defined.

(** X17.  No more forks than lines.  When the tables are as
    initialised, every program ends, the allocator grants and the lines
    fit, the shell has called [fork], when [main] ends, at most once for
    each line of its input: a pass through the loop takes a line and
    forks once at most. *)
Theorem main_forks (os : OS) (w : world) :
  programs_end os → grants os → tables_intact w →
  Forall line_fits (w_stdin w) →
  (w_forks (final (main os w)) ≤ w_forks w + length (w_stdin w))%nat.
Proof.
  intros Hend Hos Hw Hfit.
  pose proof (main_run os w (or_introl Hend) Hos Hw Hfit) as Hrun.
  pose proof (launched_le (w_stdin w)) as Hle.
  destruct (after_exit (w_stdin w)) as [rest|].
  - destruct Hrun as (w' & -> & _ & _ & Hforks). simpl. lia.
  - destruct Hrun as (u & w' & -> & _ & Hforks & _). simpl. lia.
Qed.

Lemma main_forks_witness :
  programs_end demo_os ∧ grants demo_os
  ∧ tables_intact
      (demo_world [lit "ls" ++ [LF]; lit "cd /tmp" ++ [LF]; [LF];
                   lit "nosuch" ++ [LF]; lit "exit" ++ [LF]; lit "ls" ++ [LF]])
  ∧ Forall line_fits
      [lit "ls" ++ [LF]; lit "cd /tmp" ++ [LF]; [LF];
       lit "nosuch" ++ [LF]; lit "exit" ++ [LF]; lit "ls" ++ [LF]]
  ∧ (w_forks
       (final (main demo_os
                 (demo_world [lit "ls" ++ [LF]; lit "cd /tmp" ++ [LF]; [LF];
                              lit "nosuch" ++ [LF]; lit "exit" ++ [LF];
                              lit "ls" ++ [LF]])))
     ≤ 0 + 6)%nat.
Proof.
  assert (Hfit : Forall line_fits
                   [lit "ls" ++ [LF]; lit "cd /tmp" ++ [LF]; [LF];
                    lit "nosuch" ++ [LF]; lit "exit" ++ [LF]; lit "ls" ++ [LF]]).
  { repeat constructor; vm_compute; discriminate. }
  split; [exact demo_programs_end|]. split; [exact demo_grants|].
  split; [exact (demo_tables_intact _)|]. split; [exact Hfit|].
  exact (main_forks demo_os
           (demo_world [lit "ls" ++ [LF]; lit "cd /tmp" ++ [LF]; [LF];
                        lit "nosuch" ++ [LF]; lit "exit" ++ [LF];
                        lit "ls" ++ [LF]])
           demo_programs_end demo_grants (demo_tables_intact _) Hfit).
Defined.

(** X18.  cd through the loop.  On a line whose first token is cd and
    whose second is [dir], the pass hands exactly [dir] to [chdir], with
    the directory the shell is in: when [chdir] succeeds the shell is in
    the new directory when the next prompt is printed, when it fails the
    directory is the old one and [perror]'s line is on standard error.
    Either way the pass returns 1, forks nothing and has taken the line
    off the input; what follows [dir] on the line is ignored. *)
Theorem chrish_loop_body_cd (os : OS) (args : ptr) (w : world) (l : cstr)
    (rest : list cstr) (dir : cstr) (more : list cstr) :
  w_stdin w = l :: rest →
  maximal_runs (c_str l) = lit "cd" :: dir :: more →
  tables_intact w → line_fits l → grants os →
  ∃ a w',
    chrish_loop_body os args w = Ret (1, PAddr a) w'
    ∧ w_stdin w' = rest ∧ w_forks w' = w_forks w
    ∧ match os_chdir os (w_cwd w) dir with
      | inr d => w_cwd w' = d ∧ w_err w' = w_err w
      | inl e => w_cwd w' = w_cwd w ∧ w_err w' = w_err w ++ perror_text os e
      end.
Proof.
  intros Hin Htoks Hw Hmax Hos.
  destruct (chrish_loop_body_pass os args w l rest Hin Hmax Hos)
    as (a & junk & w2 & _ & Hin2 & Htab & Hforks & Hcwd & Herr & _ & _
        & Hret & _).
  rewrite Htoks in Hret.
  assert (Hw2 : tables_intact w2) by (by apply (tables_intact_eq w)).
  assert (Hexec : chrish_execute os (argv (lit "cd" :: dir :: more) junk) w2
                  = Ret 1 match os_chdir os (w_cwd w) dir with
                          | inr d => set_cwd d w2
                          | inl e => set_err (λ o, o ++ perror_text os e)
                                       (set_errno e w2)
                          end).
  { rewrite chrish_execute_eq by done.
    destruct (decide (c_str (lit "cd") = lit "cd")) as [_|Hne];
      [|by destruct Hne].
    by rewrite chrish_cd_eq, Hcwd. }
  specialize (Hret _ _ Hexec).
  eexists a, _. split; [exact Hret|].
  destruct (os_chdir os (w_cwd w) dir) as [e|d]; simpl;
    rewrite ?Herr; by repeat split.
Qed.

Lemma chrish_loop_body_cd_witness :
  w_stdin (demo_world [lit "cd /tmp x" ++ [LF]]) = [lit "cd /tmp x" ++ [LF]]
  ∧ maximal_runs (c_str (lit "cd /tmp x" ++ [LF]))
    = lit "cd" :: lit "/tmp" :: [lit "x"]
  ∧ tables_intact (demo_world [lit "cd /tmp x" ++ [LF]])
  ∧ line_fits (lit "cd /tmp x" ++ [LF]) ∧ grants demo_os
  ∧ ∃ a w',
      chrish_loop_body demo_os PIndet (demo_world [lit "cd /tmp x" ++ [LF]])
      = Ret (1, PAddr a) w'
      ∧ w_cwd w' = lit "/tmp".
Proof.
  assert (Hin : w_stdin (demo_world [lit "cd /tmp x" ++ [LF]])
                = [lit "cd /tmp x" ++ [LF]]) by reflexivity.
  assert (Htoks : maximal_runs (c_str (lit "cd /tmp x" ++ [LF]))
                  = lit "cd" :: lit "/tmp" :: [lit "x"])
    by (vm_compute; reflexivity).
  assert (Hmax : line_fits (lit "cd /tmp x" ++ [LF]))
    by (vm_compute; discriminate).
  split; [exact Hin|]. split; [exact Htoks|].
  split; [exact (demo_tables_intact _)|]. split; [exact Hmax|].
  split; [exact demo_grants|].
  destruct (chrish_loop_body_cd demo_os PIndet
              (demo_world [lit "cd /tmp x" ++ [LF]]) (lit "cd /tmp x" ++ [LF])
              [] (lit "/tmp") [lit "x"] Hin Htoks (demo_tables_intact _)
              Hmax demo_grants)
    as (a & w' & Heq & _ & _ & Hcd).
  exists a, w'. split; [exact Heq|]. exact (proj1 Hcd).
Defined.
